(** * A shallow embedding of the multi-language sandbox kernel

    The development follows the TypeScript sources: the path validator
    ([security/pathValidator.ts]), the language runtimes
    ([runtimes/*.ts]), the container wrapper ([docker/Container.ts]), the
    session manager, the package cache, the container pool and the audit
    logger.  JavaScript strings are sequences of UTF-16 code units, engine
    calls are recorded in an explicit trace, and thrown errors are values
    of a sum type. *)

From Stdlib Require Import NArith ZArith List String Ascii Bool Lia DecimalString.
From stdpp Require Import base option list gmap.

Local Open Scope N_scope.

(** ** JavaScript strings *)

(** A JavaScript string is a finite sequence of UTF-16 code units. *)
Abbreviation jsstring := (list N).

Module JsString.

(** ASCII literals: every character of the Rocq string becomes one code
    unit. *)
Fixpoint js (s : string) : jsstring :=
  match s with
  | EmptyString => []
  | String a rest => N_of_ascii a :: js rest
  end.

Definition DQUOTE : N := 34.
Definition LF : N := 10.
Definition SLASH : N := 47.
Definition PERCENT : N := 37.
Definition DOT : N := 46.
Definition SPACE : N := 32.

Fixpoint str_eqb (a b : jsstring) : bool :=
  match a, b with
  | [], [] => true
  | x :: a', y :: b' => (x =? y) && str_eqb a' b'
  | _, _ => false
  end.

(** [s.startsWith(p)] *)
Fixpoint startsWith (p s : jsstring) : bool :=
  match p, s with
  | [], _ => true
  | x :: p', y :: s' => (x =? y) && startsWith p' s'
  | _ :: _, [] => false
  end.

(** [s.includes(sub)] *)
Fixpoint includes (sub s : jsstring) : bool :=
  startsWith sub s ||
  match s with
  | [] => false
  | _ :: s' => includes sub s'
  end.

(** [s.split(c)] for a one-character separator; the result is never
    empty: [''.split('/')] is [['']]. *)
Fixpoint split (c : N) (s : jsstring) : list jsstring :=
  match s with
  | [] => [[]]
  | x :: s' =>
      if x =? c then [] :: split c s'
      else match split c s' with
           | [] => [[x]]
           | w :: ws => (x :: w) :: ws
           end
  end.

(** [parts.join(sep)] *)
Fixpoint join (sep : jsstring) (parts : list jsstring) : jsstring :=
  match parts with
  | [] => []
  | [p] => p
  | p :: ps => p ++ sep ++ join sep ps
  end.

(** [s.replace(/^c+/, '')] *)
Fixpoint strip_leading (c : N) (s : jsstring) : jsstring :=
  match s with
  | x :: s' => if x =? c then strip_leading c s' else s
  | [] => []
  end.

End JsString.
Import JsString.

(** ** Regular expressions

    The fragment of ECMAScript regular expressions used by the sources:
    character classes, concatenation, alternation, [*] and [+], the
    start-of-input assertion [^] (no [m] flag is ever used) and the
    negative lookahead [(?!...)].  [test] searches for a match at any
    start position, as [RegExp.prototype.test] does for a pattern without
    the [g] and [y] flags. *)

Module Regex.

Inductive regex : Type :=
| Eps
| Chr (p : N -> bool)
| Seq (a b : regex)
| Alt (a b : regex)
| Star (a : regex)
| NotAhead (a : regex)
| Bos.

Definition Plus (a : regex) : regex := Seq a (Star a).

(** Iteration of a matcher.  Each round must consume input, which is
    what bounds the number of rounds by the length of the subject. *)
Fixpoint star_loop (m : jsstring -> (jsstring -> bool) -> bool)
    (fuel : nat) (s : jsstring) (k : jsstring -> bool) : bool :=
  k s ||
  match fuel with
  | O => false
  | S fuel' =>
      m s (fun s' => (length s' <? length s)%nat && star_loop m fuel' s' k)
  end.

(** [rmatch n r s k]: some match of [r] at the front of [s] leaves a
    rest accepted by [k]; [n] is the length of the whole subject, so
    that [length s = n] exactly at the start of the input. *)
Fixpoint rmatch (n : nat) (r : regex) (s : jsstring)
    (k : jsstring -> bool) : bool :=
  match r with
  | Eps => k s
  | Chr p => match s with
             | c :: s' => p c && k s'
             | [] => false
             end
  | Seq a b => rmatch n a s (fun s' => rmatch n b s' k)
  | Alt a b => rmatch n a s k || rmatch n b s k
  | Star a => star_loop (rmatch n a) (length s) s k
  | NotAhead a => negb (rmatch n a s (fun _ => true)) && k s
  | Bos => (length s =? n)%nat && k s
  end.

Fixpoint search (n : nat) (r : regex) (s : jsstring) : bool :=
  rmatch n r s (fun _ => true) ||
  match s with
  | [] => false
  | _ :: s' => search n r s'
  end.

(** [pattern.test(s)] *)
Definition test (r : regex) (s : jsstring) : bool := search (length s) r s.

(** *** What a match is

    [denotes n r s rest]: the expression [r] matches a front part of [s]
    and [rest] is what follows the match.  The matcher above decides this
    relation; it is the reading against which it is checked. *)

Inductive iter (R : jsstring -> jsstring -> Prop) : jsstring -> jsstring -> Prop :=
| iter_done s : iter R s s
| iter_step s s1 s2 : R s s1 -> iter R s1 s2 -> iter R s s2.

Fixpoint denotes (n : nat) (r : regex) (s rest : jsstring) : Prop :=
  match r with
  | Eps => rest = s
  | Chr p => exists c, s = c :: rest /\ p c = true
  | Seq a b => exists mid, denotes n a s mid /\ denotes n b mid rest
  | Alt a b => denotes n a s rest \/ denotes n b s rest
  | Star a => iter (denotes n a) s rest
  | NotAhead a => rest = s /\ forall rest', ~ denotes n a s rest'
  | Bos => rest = s /\ length s = n
  end.

(** *** Character classes *)

Definition chr (c : N) : regex := Chr (N.eqb c).

(** A literal, character by character. *)
Fixpoint lit (s : jsstring) : regex :=
  match s with
  | [] => Eps
  | [c] => chr c
  | c :: s' => Seq (chr c) (lit s')
  end.

Definition l (s : string) : regex := lit (js s).

Definition is_line_terminator (c : N) : bool :=
  (c =? 10) || (c =? 13) || (c =? 8232) || (c =? 8233).

(** [\s]: WhiteSpace and LineTerminator code units. *)
Definition is_space (c : N) : bool :=
  ((9 <=? c) && (c <=? 13)) || (c =? 32) || (c =? 160) || (c =? 5760)
  || ((8192 <=? c) && (c <=? 8202)) || (c =? 8232) || (c =? 8233)
  || (c =? 8239) || (c =? 8287) || (c =? 12288) || (c =? 65279).

(** [\w]: ASCII letters, digits and underscore. *)
Definition is_word (c : N) : bool :=
  ((97 <=? c) && (c <=? 122)) || ((65 <=? c) && (c <=? 90))
  || ((48 <=? c) && (c <=? 57)) || (c =? 95).

Definition sp : regex := Chr is_space.
Definition word : regex := Chr is_word.
(** [.] without the [s] flag *)
Definition any : regex := Chr (fun c => negb (is_line_terminator c)).
(** [[^c]] *)
Definition notchr (c : N) : regex := Chr (fun c' => negb (c' =? c)).
(** the class of the two quote characters, single and double *)
Definition quote : regex := Chr (fun c => (c =? 39) || (c =? 34)).

(** A literal under the [i] flag, for ASCII letters. *)
Definition to_upper (c : N) : N :=
  if (97 <=? c) && (c <=? 122) then c - 32 else c.

Fixpoint lit_ci (s : jsstring) : regex :=
  match s with
  | [] => Eps
  | [c] => Chr (fun x => to_upper x =? to_upper c)
  | c :: s' => Seq (Chr (fun x => to_upper x =? to_upper c)) (lit_ci s')
  end.

Fixpoint seqs (rs : list regex) : regex :=
  match rs with
  | [] => Eps
  | [r] => r
  | r :: rs' => Seq r (seqs rs')
  end.

(** A pattern keeps its source text, which the validators print. *)
Record pattern : Type := Pattern { source : jsstring; re : regex }.

Definition ptest (p : pattern) (s : jsstring) : bool := test (re p) s.

End Regex.
Import Regex.


(** ** Thrown errors

    A thrown JavaScript error is a value: its class (the [name] the
    constructors set) and its message. *)

Inductive ErrorClass : Type :=
| PlainError          (* new Error(...) *)
| SecurityError       (* types/index.ts, code 'SECURITY' *)
| PathSecurityError.  (* security/pathValidator.ts *)

Record JsError : Type := mkError { err_class : ErrorClass; err_message : jsstring }.

Inductive result (A : Type) : Type :=
| Ok (a : A)
| Throw (e : JsError).
Arguments Ok {A} a.
Arguments Throw {A} e.

Definition is_ok {A} (r : result A) : bool :=
  match r with Ok _ => true | Throw _ => false end.

(** ** [decodeURIComponent]

    The ECMAScript [Decode] operation with an empty set of preserved
    escapes: [%XX] octets are read, multi-octet sequences must be well-formed
    UTF-8 and are re-encoded as UTF-16.  [None] stands for the [URIError]
    the operation throws. *)

Module Uri.

Definition hex_val (c : N) : option N :=
  if (48 <=? c) && (c <=? 57) then Some (c - 48)
  else if (97 <=? c) && (c <=? 102) then Some (c - 87)
  else if (65 <=? c) && (c <=? 70) then Some (c - 55)
  else None.

(** Reads one [%XX] escape at the front of [s]. *)
Definition read_octet (s : jsstring) : option (N * jsstring) :=
  match s with
  | p :: h1 :: h2 :: rest =>
      if p =? PERCENT then
        match hex_val h1, hex_val h2 with
        | Some a, Some b => Some (16 * a + b, rest)
        | _, _ => None
        end
      else None
  | _ => None
  end.

Fixpoint read_octets (n : nat) (s : jsstring) : option (list N * jsstring) :=
  match n with
  | O => Some ([], s)
  | S n' =>
      match read_octet s with
      | Some (b, rest) =>
          match read_octets n' rest with
          | Some (bs, rest') => Some (b :: bs, rest')
          | None => None
          end
      | None => None
      end
  end.

(** Number of leading one bits of an octet (5 stands for five or more). *)
Definition leading_ones (b : N) : nat :=
  if b <? 128 then 0 else if b <? 192 then 1 else if b <? 224 then 2
  else if b <? 240 then 3 else if b <? 248 then 4 else 5.

Definition is_continuation (b : N) : bool := (128 <=? b) && (b <? 192).

(** The code point of a well-formed UTF-8 sequence: no overlong forms, no
    surrogates, nothing above U+10FFFF. *)
Definition utf8_code_point (b0 : N) (conts : list N) : option N :=
  if forallb is_continuation conts then
    match conts with
    | [b1] =>
        let v := (b0 mod 32) * 64 + b1 mod 64 in
        if 128 <=? v then Some v else None
    | [b1; b2] =>
        let v := (b0 mod 16) * 4096 + (b1 mod 64) * 64 + b2 mod 64 in
        if (2048 <=? v) && negb ((55296 <=? v) && (v <=? 57343))
        then Some v else None
    | [b1; b2; b3] =>
        let v := (b0 mod 8) * 262144 + (b1 mod 64) * 4096
                 + (b2 mod 64) * 64 + b3 mod 64 in
        if (65536 <=? v) && (v <=? 1114111) then Some v else None
    | _ => None
    end
  else None.

Definition utf16_encode (v : N) : jsstring :=
  if v <? 65536 then [v]
  else [55296 + (v - 65536) / 1024; 56320 + (v - 65536) mod 1024].

Fixpoint decode_loop (fuel : nat) (s : jsstring) : option jsstring :=
  match s with
  | [] => Some []
  | c :: rest =>
      match fuel with
      | O => None
      | S fuel' =>
          if c =? PERCENT then
            match read_octet s with
            | None => None
            | Some (b, rest1) =>
                match leading_ones b with
                | O => cons b <$> decode_loop fuel' rest1
                | S O => None
                | S (S m) =>
                    if (2 <? m)%nat then None
                    else
                      match read_octets (S m) rest1 with
                      | None => None
                      | Some (bs, rest2) =>
                          match utf8_code_point b bs with
                          | None => None
                          | Some v =>
                              app (utf16_encode v) <$> decode_loop fuel' rest2
                          end
                      end
                end
            end
          else cons c <$> decode_loop fuel' rest
      end
  end.

(** Every round consumes at least one code unit, so the length of the
    input is enough fuel. *)
Definition decodeURIComponent (s : jsstring) : option jsstring :=
  decode_loop (length s) s.

End Uri.


(** ** Node's [path.posix]

    [normalizeString] walks the [/]-separated segments: empty segments and
    [.] are dropped, [..] removes the previous segment when there is one
    that is not itself [..], and is kept only when the path may climb above
    its root. *)

Module PosixPath.

Definition dotdot : jsstring := [DOT; DOT].

Definition normalize_step (allowAboveRoot : bool)
    (stack : list jsstring) (seg : jsstring) : list jsstring :=
  if str_eqb seg [] || str_eqb seg [DOT] then stack
  else if str_eqb seg dotdot then
    match stack with
    | top :: below =>
        if str_eqb top dotdot
        then (if allowAboveRoot then seg :: stack else stack)
        else below
    | [] => if allowAboveRoot then [seg] else []
    end
  else seg :: stack.

(** The stack holds the kept segments, last one first. *)
Definition normalizeString (path : jsstring) (allowAboveRoot : bool) : jsstring :=
  join [SLASH]
    (rev (fold_left (normalize_step allowAboveRoot) (split SLASH path) [])).

Definition isAbsolute (path : jsstring) : bool :=
  match path with c :: _ => c =? SLASH | [] => false end.

Definition trailingSeparator (path : jsstring) : bool :=
  match last path with Some c => c =? SLASH | None => false end.

Definition normalize (path : jsstring) : jsstring :=
  match path with
  | [] => [DOT]
  | _ =>
      let p := normalizeString path (negb (isAbsolute path)) in
      match p with
      | [] =>
          if isAbsolute path then [SLASH]
          else if trailingSeparator path then [DOT; SLASH] else [DOT]
      | _ =>
          let p' := if trailingSeparator path then p ++ [SLASH] else p in
          if isAbsolute path then SLASH :: p' else p'
      end
  end.

Definition join_paths (args : list jsstring) : jsstring :=
  match List.filter (fun a => negb (str_eqb a [])) args with
  | [] => [DOT]
  | parts => normalize (join [SLASH] parts)
  end.

(** [resolve] prepends arguments from the right until the path is
    absolute, falling back on the working directory. *)
Fixpoint resolve_args (args_rev : list jsstring) (acc : jsstring) : jsstring * bool :=
  match args_rev with
  | [] => (acc, false)
  | a :: more =>
      match a with
      | [] => resolve_args more acc
      | _ =>
          if isAbsolute a then (a ++ [SLASH] ++ acc, true)
          else resolve_args more (a ++ [SLASH] ++ acc)
      end
  end.

Definition resolve (cwd : jsstring) (args : list jsstring) : jsstring :=
  let '(p, abs) := resolve_args (rev args) [] in
  let '(p, abs) :=
    if abs then (p, abs)
    else match cwd with
         | [] => (p, false)
         | _ => (cwd ++ [SLASH] ++ p, isAbsolute cwd)
         end in
  let r := normalizeString p (negb abs) in
  if abs then SLASH :: r
  else match r with [] => [DOT] | _ => r end.

End PosixPath.


(** ** The path validator ([security/pathValidator.ts]) *)

Module PathValidator.

Definition WORKSPACE_ROOT : jsstring := js "/workspace".

Definition BLOCKED_PATHS : list jsstring :=
  map js ["/etc"; "/proc"; "/sys"; "/dev"; "/root"; "/home"; "/var"; "/usr";
          "/bin"; "/sbin"; "/lib"; "/lib64"; "/boot"; "/opt"; "/run"; "/srv";
          "/mnt"; "/media"]%string.

(** The five [traversalPatterns], in source order. *)
Definition traversalPatterns : list regex :=
  [ l "..";
    Seq (l "..") (chr 92);
    lit_ci (js "%2e%2e");
    lit_ci (js "%252e");
    l ".." ].

Definition pathError (msg : jsstring) : JsError := mkError PathSecurityError msg.

(** Step 2: decode up to three times, stopping at a fixed point; any
    [URIError] falls back on the original text. *)
Fixpoint decode_rounds (n : nat) (decoded : jsstring) : option jsstring :=
  match n with
  | O => Some decoded
  | S n' =>
      match Uri.decodeURIComponent decoded with
      | None => None
      | Some newDecoded =>
          if str_eqb newDecoded decoded then Some decoded
          else decode_rounds n' newDecoded
      end
  end.

Definition decode_input (userPath : jsstring) : jsstring :=
  match decode_rounds 3 userPath with
  | Some decoded => decoded
  | None => userPath
  end.

(** Step 4 *)
Definition normalize_input (decoded : jsstring) : jsstring :=
  if startsWith [SLASH] decoded then
    let relativePath := strip_leading SLASH decoded in
    PosixPath.normalize (PosixPath.join_paths [WORKSPACE_ROOT; relativePath])
  else
    PosixPath.normalize (PosixPath.join_paths [WORKSPACE_ROOT; decoded]).

Definition under (root resolved : jsstring) : bool :=
  str_eqb resolved root || startsWith (root ++ [SLASH]) resolved.

Definition bad_component (component : jsstring) : bool :=
  startsWith PosixPath.dotdot component || str_eqb component [DOT].

Section WithCwd.
(** [path.resolve] reads the working directory of the process. *)
Variable cwd : jsstring.

Definition sanitizePath (userPath : jsstring) : result jsstring :=
  (* 1 *)
  if includes [0] userPath then
    Throw (pathError (js "Null byte detected in path"))
  else
    (* 2 *)
    let decoded := decode_input userPath in
    (* 3 *)
    if existsb (fun pattern => test pattern decoded) traversalPatterns then
      Throw (pathError (js "Path traversal pattern detected"))
    else
      (* 4 *)
      let normalized := normalize_input decoded in
      (* 5 *)
      let resolved := PosixPath.resolve cwd [normalized] in
      if negb (str_eqb resolved WORKSPACE_ROOT)
         && negb (startsWith (WORKSPACE_ROOT ++ [SLASH]) resolved) then
        Throw (pathError (js "Path escapes workspace: resolved to "
                          ++ [DQUOTE] ++ resolved ++ [DQUOTE]))
      else
        (* 6 *)
        match find (fun blocked => under blocked resolved) BLOCKED_PATHS with
        | Some blocked =>
            Throw (pathError (js "Access to " ++ blocked ++ js " is prohibited"))
        | None =>
            (* 7 *)
            let pathComponents :=
              List.filter (fun c => negb (str_eqb c [])) (split SLASH resolved) in
            if existsb bad_component pathComponents then
              Throw (pathError (js "Invalid path component detected"))
            else Ok resolved
        end.

(** [validatePathForOperation] *)
Inductive operation : Type := OpRead | OpWrite | OpList | OpDelete.

Definition validatePathForOperation (userPath : jsstring) (op : operation)
  : result jsstring :=
  match sanitizePath userPath with
  | Throw e => Throw e
  | Ok sanitized =>
      match op with
      | OpDelete =>
          if str_eqb sanitized WORKSPACE_ROOT
          then Throw (pathError (js "Cannot delete workspace root"))
          else Ok sanitized
      | OpWrite =>
          if str_eqb sanitized WORKSPACE_ROOT
          then Throw (pathError (js "Cannot write to workspace root directory"))
          else Ok sanitized
      | _ => Ok sanitized
      end
  end.

Definition isPathSafe (userPath : jsstring) : bool := is_ok (sanitizePath userPath).
End WithCwd.

(** Whether [sanitizePath] raised a [PathSecurityError]. *)
Definition raises_security {A} (r : result A) : Prop :=
  exists msg, r = Throw (mkError PathSecurityError msg).

End PathValidator.

(** ** Calls on a container and the effect monad

    The runtimes drive a [Container] through [exec], [putFile] and
    [deleteFile], read the clock and draw random file names.  The world
    records the calls issued so far, oldest first, and counts the reads of
    the clock and of the random source; the environment answers each call
    from what has happened before it. *)

Record ExecOptions : Type := mkExecOptions {
  opt_timeout : option Z;
  opt_env : option (list (jsstring * jsstring));
  opt_stdin : option jsstring;
  opt_workingDir : option jsstring }.

Record ExecResult : Type := mkExecResult {
  stdout : jsstring;
  stderr : jsstring;
  exitCode : Z;
  duration : Z }.

Inductive Call : Type :=
| CallExec (cmd : list jsstring) (options : ExecOptions)
| CallPutFile (path content : jsstring)
| CallDeleteFile (path : jsstring).

Record World : Type := mkWorld { calls : list Call; reads : nat }.

Record Env : Type := mkEnv {
  env_now : nat -> Z;                      (* Date.now() *)
  env_random : nat -> jsstring;            (* Math.random().toString(36).substring(7) *)
  env_exec : list Call -> list jsstring -> ExecOptions -> result ExecResult;
  env_putFile : list Call -> jsstring -> jsstring -> result unit;
  env_deleteFile : list Call -> jsstring -> result unit }.

Module Eff.

(** Computations over a state [St] that may throw; the state survives a
    throw, as the effects of a JavaScript block survive its exception. *)
Definition M (St A : Type) : Type := St -> result A * St.

Definition ret {St A} (a : A) : M St A := fun w => (Ok a, w).
Definition throw {St A} (e : JsError) : M St A := fun w => (Throw e, w).
Definition bind {St A B} (m : M St A) (k : A -> M St B) : M St B :=
  fun w => match m w with
           | (Ok a, w') => k a w'
           | (Throw e, w') => (Throw e, w')
           end.
(** [try { m } catch (error) { handler error }] *)
Definition try_catch {St A} (m : M St A) (handler : JsError -> M St A) : M St A :=
  fun w => match m w with
           | (Ok a, w') => (Ok a, w')
           | (Throw e, w') => handler e w'
           end.
(** [promise.catch(() => {})] *)
Definition ignore_errors {St} (m : M St unit) : M St unit :=
  try_catch m (fun _ => ret tt).

Definition lift {St A} (r : result A) : M St A := fun w => (r, w).
Definition get {St} : M St St := fun w => (Ok w, w).
Definition modify {St} (f : St -> St) : M St unit := fun w => (Ok tt, f w).

Section Primitives.
Variable env : Env.

Definition now : M World Z :=
  fun w => (Ok (env_now env (reads w)), mkWorld (calls w) (S (reads w))).
Definition random : M World jsstring :=
  fun w => (Ok (env_random env (reads w)), mkWorld (calls w) (S (reads w))).

Definition issue {A} (c : Call) (reply : list Call -> result A) : M World A :=
  fun w => (reply (calls w), mkWorld (calls w ++ [c]) (reads w)).

Definition exec (cmd : list jsstring) (options : ExecOptions) : M World ExecResult :=
  issue (CallExec cmd options) (fun h => env_exec env h cmd options).
Definition putFile (path content : jsstring) : M World unit :=
  issue (CallPutFile path content) (fun h => env_putFile env h path content).
Definition deleteFile (path : jsstring) : M World unit :=
  issue (CallDeleteFile path) (fun h => env_deleteFile env h path).
End Primitives.

End Eff.

Notation "'let*' x := m 'in' k" := (Eff.bind m (fun x => k))
  (at level 10, x name, m at level 100, k at level 200).

(** Decimal text of a number, as string interpolation prints it. *)
Definition decimal (n : Z) : jsstring :=
  match n with
  | Zneg _ => js "-" ++ js (NilZero.string_of_uint (N.to_uint (Z.to_N (- n))))
  | _ => js (NilZero.string_of_uint (N.to_uint (Z.to_N n)))
  end.

(** ** The language runtimes ([runtimes/*.ts]) *)

Module Runtimes.

Record ExecutionContext : Type := mkContext {
  ctx_timeout : Z;
  ctx_env : list (jsstring * jsstring);
  ctx_stdin : option jsstring;
  ctx_cwd : option jsstring }.

Record ExecutionResult : Type := mkExecutionResult {
  res_stdout : jsstring;
  res_stderr : jsstring;
  res_exitCode : Z;
  res_duration : Z }.

(** [context.cwd || '/workspace'] *)
Definition workingDir (ctx : ExecutionContext) : jsstring :=
  match ctx_cwd ctx with
  | Some (c :: d) => c :: d
  | _ => js "/workspace"
  end.

(** The options every runtime passes to the run of the user code. *)
Definition run_options (ctx : ExecutionContext) : ExecOptions :=
  mkExecOptions (Some (ctx_timeout ctx)) (Some (ctx_env ctx)) (ctx_stdin ctx)
    (Some (workingDir ctx)).

Definition P (source : jsstring) (r : regex) : pattern := Pattern source r.
Definition q : jsstring := [DQUOTE].
(** the source text of the class of the two quote characters *)
Definition qq : jsstring := js "['" ++ q ++ js "]".

(** *** Blocklists, in source order *)

Definition PYTHON_BLOCKLIST : list pattern :=
  [ P (js "import\s+os(?!\w)") (seqs [l "import"; Plus sp; l "os"; NotAhead word]);
    P (js "from\s+os\s+import") (seqs [l "from"; Plus sp; l "os"; Plus sp; l "import"]);
    P (js "import\s+subprocess") (seqs [l "import"; Plus sp; l "subprocess"]);
    P (js "from\s+subprocess\s+import")
      (seqs [l "from"; Plus sp; l "subprocess"; Plus sp; l "import"]);
    P (js "import\s+sys") (seqs [l "import"; Plus sp; l "sys"]);
    P (js "eval\s*\(") (seqs [l "eval"; Star sp; l "("]);
    P (js "exec\s*\(") (seqs [l "exec"; Star sp; l "("]);
    P (js "__import__\s*\(") (seqs [l "__import__"; Star sp; l "("]);
    P (js "compile\s*\(") (seqs [l "compile"; Star sp; l "("]);
    P (js "open\s*\([^)]*,\s*" ++ qq ++ js "w")
      (seqs [l "open"; Star sp; l "("; Star (notchr 41); l ","; Star sp; quote; l "w"]);
    P (js "open\s*\([^)]*,\s*" ++ qq ++ js "a")
      (seqs [l "open"; Star sp; l "("; Star (notchr 41); l ","; Star sp; quote; l "a"]);
    P (js "\.system\s*\(") (seqs [l ".system"; Star sp; l "("]);
    P (js "\.popen\s*\(") (seqs [l ".popen"; Star sp; l "("]) ].

Definition require_of (module : string) : pattern :=
  P (js "require\s*\(\s*" ++ qq ++ js module ++ qq ++ js "\s*\)")
    (seqs [l "require"; Star sp; l "("; Star sp; quote; l module; quote; Star sp; l ")"]).

Definition import_from (module : string) : pattern :=
  P (js "import\s+.*\s+from\s+" ++ qq ++ js module ++ qq)
    (seqs [l "import"; Plus sp; Star any; Plus sp; l "from"; Plus sp;
           quote; l module; quote]).

Definition JS_COMMON : list pattern :=
  [ P (js "eval\s*\(") (seqs [l "eval"; Star sp; l "("]);
    P (js "Function\s*\(") (seqs [l "Function"; Star sp; l "("]);
    P (js "process\.exit") (l "process.exit");
    P (js "process\.kill") (l "process.kill") ].

Definition TYPESCRIPT_BLOCKLIST : list pattern :=
  [ require_of "child_process"; require_of "fs";
    import_from "child_process"; import_from "fs" ] ++ JS_COMMON.

Definition JAVASCRIPT_BLOCKLIST : list pattern :=
  [ require_of "child_process"; require_of "fs" ] ++ JS_COMMON.

Definition go_import (text : string) (lit_text : string) : pattern :=
  P (js "import\s+.*" ++ q ++ js text ++ q)
    (seqs [l "import"; Plus sp; Star any; chr DQUOTE; l lit_text; chr DQUOTE]).

Definition GO_BLOCKLIST : list pattern :=
  [ go_import "os\/exec" "os/exec";
    go_import "syscall" "syscall";
    go_import "unsafe" "unsafe";
    P (js "exec\.Command") (l "exec.Command");
    P (js "syscall\.") (l "syscall.") ].

Definition RUST_BLOCKLIST : list pattern :=
  [ P (js "use\s+std::process") (seqs [l "use"; Plus sp; l "std::process"]);
    P (js "use\s+std::os") (seqs [l "use"; Plus sp; l "std::os"]);
    P (js "Command::") (l "Command::");
    P (js "unsafe\s*\{") (seqs [l "unsafe"; Star sp; l "{"]) ].

Definition pipe_to_shell (tool : string) : pattern :=
  P (js tool ++ js ".*\|\s*(sh|bash)")
    (seqs [l tool; Star any; l "|"; Star sp; Alt (l "sh") (l "bash")]).

Definition BASH_BLOCKLIST : list pattern :=
  [ P (js "rm\s+-rf\s+\/") (seqs [l "rm"; Plus sp; l "-rf"; Plus sp; l "/"]);
    P (js "dd\s+if=") (seqs [l "dd"; Plus sp; l "if="]);
    P (js ":\(\)\{.*\}:") (seqs [l ":(){"; Star any; l "}:"]);
    P (js "mkfs\.") (l "mkfs.");
    P (js ">\s*\/dev\/sd") (seqs [l ">"; Star sp; l "/dev/sd"]);
    pipe_to_shell "curl"; pipe_to_shell "wget" ].

(** [validateCode], the same loop in every runtime: the first pattern
    that matches raises a [SecurityError] naming it. *)
Definition validateCode (blocklist : list pattern) (code : jsstring) : result unit :=
  match find (fun pattern => ptest pattern code) blocklist with
  | Some pattern =>
      Throw (mkError SecurityError
               (js "Dangerous pattern detected: " ++ source pattern))
  | None => Ok tt
  end.

(** *** [wrapInMain] *)

Definition GO_PACKAGE_DECL : regex :=
  seqs [Bos; Star sp; l "package"; Plus sp; Plus word].
Definition GO_FUNC_MAIN : regex :=
  seqs [l "func"; Plus sp; l "main"; Star sp; l "("; Star sp; l ")"].
Definition RUST_FN_MAIN : regex :=
  seqs [l "fn"; Plus sp; l "main"; Star sp; l "("; Star sp; l ")"].

(** [code.split('\n').map(line => indent + line).join('\n')] *)
Definition indent_lines (indent code : jsstring) : jsstring :=
  join [LF] (map (fun line => indent ++ line) (split LF code)).

Definition go_wrapInMain (code : jsstring) : jsstring :=
  if test GO_PACKAGE_DECL code then code
  else if negb (test GO_FUNC_MAIN code) then
    js "package main" ++ [LF; LF] ++ js "import " ++ q ++ js "fmt" ++ q
    ++ [LF; LF] ++ js "func main() {" ++ [LF]
    ++ indent_lines (js "  ") code ++ [LF] ++ js "}"
  else js "package main" ++ [LF; LF] ++ code.

Definition rust_wrapInMain (code : jsstring) : jsstring :=
  if test RUST_FN_MAIN code then code
  else js "fn main() {" ++ [LF] ++ indent_lines (js "    ") code ++ [LF] ++ js "}".

(** *** [execute] *)

Section WithEnv.
Variable env : Env.

(** [RuntimeManager.getTempFilePath] *)
Definition getTempFilePath (extension : jsstring) : Eff.M World jsstring :=
  let* timestamp := Eff.now env in
  let* random := Eff.random env in
  Eff.ret (js "/workspace/.exec-" ++ decimal timestamp ++ js "-" ++ random
           ++ extension).

Definition rethrow {A} (language : string) (error : JsError) : Eff.M World A :=
  Eff.throw (mkError PlainError
               (js language ++ js " execution failed: " ++ err_message error)).

Definition finish (startTime : Z) (r : ExecResult) (t : Z) : ExecutionResult :=
  mkExecutionResult (stdout r) (stderr r) (exitCode r) (t - startTime).

(** The runtimes that hand the code to an interpreter on the command
    line: [python -c], [node -e], [sh -c]. *)
Definition execute_inline (language : string) (blocklist : list pattern)
    (interpreter : list jsstring) (code : jsstring) (ctx : ExecutionContext)
  : Eff.M World ExecutionResult :=
  let* startTime := Eff.now env in
  Eff.try_catch
    (let* _ := Eff.lift (validateCode blocklist code) in
     let* r := Eff.exec env (interpreter ++ [code]) (run_options ctx) in
     let* t := Eff.now env in
     Eff.ret (finish startTime r t))
    (rethrow language).

Definition python_execute := execute_inline "Python" PYTHON_BLOCKLIST [js "python"; js "-c"].
Definition javascript_execute := execute_inline "JavaScript" JAVASCRIPT_BLOCKLIST [js "node"; js "-e"].
Definition bash_execute := execute_inline "Bash" BASH_BLOCKLIST [js "sh"; js "-c"].

Definition typescript_execute (code : jsstring) (ctx : ExecutionContext)
  : Eff.M World ExecutionResult :=
  let* startTime := Eff.now env in
  Eff.try_catch
    (let* _ := Eff.lift (validateCode TYPESCRIPT_BLOCKLIST code) in
     let* tempFile := getTempFilePath (js ".ts") in
     let* _ := Eff.putFile env tempFile code in
     let* r := Eff.exec env [js "bun"; js "run"; tempFile] (run_options ctx) in
     let* t := Eff.now env in
     let* _ := Eff.ignore_errors (Eff.deleteFile env tempFile) in
     Eff.ret (finish startTime r t))
    (rethrow "TypeScript").

Definition go_execute (code : jsstring) (ctx : ExecutionContext)
  : Eff.M World ExecutionResult :=
  let* startTime := Eff.now env in
  Eff.try_catch
    (let* _ := Eff.lift (validateCode GO_BLOCKLIST code) in
     let* tempFile := getTempFilePath (js ".go") in
     let wrappedCode := go_wrapInMain code in
     let* _ := Eff.putFile env tempFile wrappedCode in
     let* r := Eff.exec env [js "go"; js "run"; tempFile] (run_options ctx) in
     let* t := Eff.now env in
     let* _ := Eff.ignore_errors (Eff.deleteFile env tempFile) in
     Eff.ret (finish startTime r t))
    (rethrow "Go").

Definition rust_execute (code : jsstring) (ctx : ExecutionContext)
  : Eff.M World ExecutionResult :=
  let* startTime := Eff.now env in
  Eff.try_catch
    (let* _ := Eff.lift (validateCode RUST_BLOCKLIST code) in
     let* tempFile := getTempFilePath (js ".rs") in
     let* binaryFile := getTempFilePath [] in
     let wrappedCode := rust_wrapInMain code in
     let* _ := Eff.putFile env tempFile wrappedCode in
     let* compileResult :=
       Eff.exec env [js "rustc"; tempFile; js "-o"; binaryFile]
         (mkExecOptions
            (Some (if (ctx_timeout ctx =? 0)%Z then 30000%Z else ctx_timeout ctx))
            None None (Some (workingDir ctx))) in
     if negb (exitCode compileResult =? 0)%Z then
       let* t := Eff.now env in
       Eff.ret (mkExecutionResult (stdout compileResult)
                  (js "Compilation failed:" ++ [LF] ++ stderr compileResult)
                  (exitCode compileResult) (t - startTime))
     else
       let* r := Eff.exec env [binaryFile] (run_options ctx) in
       let* t := Eff.now env in
       let* _ := Eff.ignore_errors (Eff.deleteFile env tempFile) in
       let* _ := Eff.ignore_errors (Eff.deleteFile env binaryFile) in
       Eff.ret (finish startTime r t))
    (rethrow "Rust").

(** The adapters the server dispatches to.  [PythonMLRuntime] inherits
    [execute] and the blocklist of [PythonRuntime]. *)
Inductive Adapter : Type :=
| Python | PythonML | TypeScript | JavaScript | Go | Rust | Bash.

Definition BLOCKLIST (a : Adapter) : list pattern :=
  match a with
  | Python | PythonML => PYTHON_BLOCKLIST
  | TypeScript => TYPESCRIPT_BLOCKLIST
  | JavaScript => JAVASCRIPT_BLOCKLIST
  | Go => GO_BLOCKLIST
  | Rust => RUST_BLOCKLIST
  | Bash => BASH_BLOCKLIST
  end.

Definition display_name (a : Adapter) : string :=
  match a with
  | Python | PythonML => "Python"
  | TypeScript => "TypeScript"
  | JavaScript => "JavaScript"
  | Go => "Go"
  | Rust => "Rust"
  | Bash => "Bash"
  end.

Definition execute (a : Adapter) : jsstring -> ExecutionContext -> Eff.M World ExecutionResult :=
  match a with
  | Python | PythonML => python_execute
  | TypeScript => typescript_execute
  | JavaScript => javascript_execute
  | Go => go_execute
  | Rust => rust_execute
  | Bash => bash_execute
  end.
End WithEnv.

End Runtimes.

(** A container that accepts every call and prints nothing, with a clock
    that ticks once per read; used to run the definitions on examples. *)
Definition quiet_env : Env :=
  mkEnv (fun n => 1700000000000 + Z.of_nat n)%Z
        (fun _ => js "k3x9q")
        (fun _ _ _ => Ok (mkExecResult [] [] 0 0))
        (fun _ _ _ => Ok tt)
        (fun _ _ => Ok tt).

Definition fresh_world : World := mkWorld [] 0.

Definition plain_context : Runtimes.ExecutionContext :=
  Runtimes.mkContext 30000 [] None None.

(** The Go fragment of the wrap scenario: a call of [fmt.Println] on the
    text [hi]. *)
Definition go_hi : jsstring :=
  js "fmt.Println(" ++ [DQUOTE] ++ js "hi" ++ [DQUOTE] ++ js ")".

(** ** Running a command in a container ([docker/Container.ts]) *)

Module ContainerExec.

(** Output size limits to prevent OOM attacks *)
Definition MAX_STDOUT_SIZE : Z := 10 * 1024 * 1024.
Definition MAX_STDERR_SIZE : Z := 5 * 1024 * 1024.
Definition TRUNCATION_MESSAGE : jsstring :=
  [LF; LF] ++ js "... [OUTPUT TRUNCATED - SIZE LIMIT EXCEEDED] ..." ++ [LF].

(** What the hijacked exec stream does, in order: frames of the
    multiplexed stream (given by the text [chunk.toString()] yields), its
    end, an error, or the timeout timer firing. *)
Inductive StreamEvent : Type :=
| StdoutFrame (chunk : jsstring)
| StderrFrame (chunk : jsstring)
| StreamEnd
| StreamError (e : JsError)
| TimerFired.

(** The body of the promise of [executeWithTimeout] once the stream is
    started: the two writers append every chunk; the first of end, error
    and timeout settles the promise.  [None]: still pending. *)
Fixpoint demux (events : list StreamEvent) (stdout stderr : jsstring)
  : option (result (jsstring * jsstring)) :=
  match events with
  | [] => None
  | StdoutFrame chunk :: rest => demux rest (stdout ++ chunk) stderr
  | StderrFrame chunk :: rest => demux rest stdout (stderr ++ chunk)
  | StreamEnd :: _ => Some (Ok (stdout, stderr))
  | StreamError e :: _ => Some (Throw e)
  | TimerFired :: _ => Some (Throw (mkError PlainError (js "Execution timeout")))
  end.

(** [exec.start] either throws or hands over the stream. *)
Definition executeWithTimeout (started : result (list StreamEvent))
  : option (result (jsstring * jsstring)) :=
  match started with
  | Throw e => Some (Throw e)
  | Ok events => demux events [] []
  end.

(** The engine's answers to one [Container.exec]: the inspection of the
    container, the start it may need, the creation of the exec instance,
    the stream, and the exit code the final inspection reports. *)
Record Engine : Type := mkEngine {
  inspect_running : result bool;
  start_reply : result unit;
  create_exec : result unit;
  start_exec : result (list StreamEvent);
  inspect_exit : result (option Z) }.

Definition wrap (prefix : string) {A} (r : result A) : result A :=
  match r with
  | Ok a => Ok a
  | Throw e => Throw (mkError PlainError (js prefix ++ err_message e))
  end.

(** [Container.start]: an engine that reports the container as already
    started is not an error. *)
Definition start (eng : Engine) : result unit :=
  match start_reply eng with
  | Ok tt => Ok tt
  | Throw e =>
      if includes (js "already started") (err_message e) then Ok tt
      else Throw (mkError PlainError
                    (js "Failed to start container: " ++ err_message e))
  end.

Definition exec_body (eng : Engine) (elapsed : Z) : option (result ExecResult) :=
  match wrap "Failed to inspect container: " (inspect_running eng) with
  | Throw e => Some (Throw e)
  | Ok running =>
      match (if running then Ok tt else start eng) with
      | Throw e => Some (Throw e)
      | Ok _ =>
          match create_exec eng with
          | Throw e => Some (Throw e)
          | Ok _ =>
              match executeWithTimeout (start_exec eng) with
              | None => None
              | Some (Throw e) => Some (Throw e)
              | Some (Ok (out, err)) =>
                  match inspect_exit eng with
                  | Throw e => Some (Throw e)
                  | Ok code =>
                      (* inspectResult.ExitCode || 0 *)
                      let exitCode := match code with Some c => c | None => 0%Z end in
                      Some (Ok (mkExecResult out err exitCode elapsed))
                  end
              end
          end
      end
  end.

(** [Container.exec] *)
Definition exec (eng : Engine) (elapsed : Z) : option (result ExecResult) :=
  match exec_body eng elapsed with
  | Some (Throw error) =>
      if includes (js "timeout") (err_message error)
      then Some (Throw (mkError PlainError (js "Execution timeout")))
      else Some (Throw (mkError PlainError
                          (js "Failed to execute command: " ++ err_message error)))
  | other => other
  end.

(** A healthy engine whose process writes [out] on stdout in one frame. *)
Definition prints (out : jsstring) : Engine :=
  mkEngine (Ok true) (Ok tt) (Ok tt) (Ok [StdoutFrame out; StreamEnd]) (Ok (Some 0%Z)).

End ContainerExec.

(** ** The audit logger ([security/AuditLogger.ts]) *)

Module AuditLogger.

Inductive AuditEventType : Type :=
| EXECUTE_START | EXECUTE_END | EXECUTE_ERROR | EXECUTE_TIMEOUT | EXECUTE_BLOCKED
| SESSION_CREATE | SESSION_DESTROY | SESSION_PAUSE | SESSION_RESUME
| PACKAGE_INSTALL | PACKAGE_INSTALL_BLOCKED
| FILE_READ | FILE_WRITE | FILE_DELETE
| SECURITY_VIOLATION
| CONTAINER_CREATE | CONTAINER_DESTROY
| POOL_ACQUIRE | POOL_RELEASE.

Inductive AuditSeverity : Type := INFO | WARN | ERROR | CRITICAL.

(** The optional fields of the third argument of [log]. *)
Record LogOptions : Type := mkLogOptions {
  o_language : option jsstring;
  o_sessionId : option jsstring;
  o_containerId : option jsstring;
  o_severity : option AuditSeverity;
  o_success : option bool;
  o_duration : option Z;
  o_errorMessage : option jsstring }.

Definition no_options : LogOptions :=
  mkLogOptions None None None None None None None.

Record AuditEvent : Type := mkAuditEvent {
  timestamp : jsstring;
  eventId : jsstring;
  eventType : AuditEventType;
  severity : AuditSeverity;
  language : option jsstring;
  sessionId : option jsstring;
  containerId : option jsstring;
  details : list (jsstring * jsstring);
  duration : option Z;
  success : bool;
  errorMessage : option jsstring }.

Definition inferSeverity (eventType : AuditEventType) (success : option bool)
  : AuditSeverity :=
  match eventType with
  | SECURITY_VIOLATION => CRITICAL
  | EXECUTE_BLOCKED | PACKAGE_INSTALL_BLOCKED => WARN
  | EXECUTE_ERROR | EXECUTE_TIMEOUT => ERROR
  | _ => match success with
         | Some false => ERROR
         | _ => INFO
         end
  end.

(** The logger: the in-memory ring of events, the lines handed to the
    log stream, and its switches. *)
Record Logger : Type := mkLogger {
  events : list AuditEvent;
  written : list AuditEvent;
  maxInMemoryEvents : nat;
  enabled : bool;
  hasStream : bool }.

(** [log]; the time stamp and the event id come from the clock and the
    random source. *)
Definition log (now id : jsstring) (eventType : AuditEventType)
    (details : list (jsstring * jsstring)) (options : LogOptions)
    (lg : Logger) : AuditEvent * Logger :=
  let event :=
    mkAuditEvent now id eventType
      (match o_severity options with
       | Some s => s
       | None => inferSeverity eventType (o_success options)
       end)
      (o_language options) (o_sessionId options) (o_containerId options)
      details (o_duration options)
      (match o_success options with Some b => b | None => true end)
      (o_errorMessage options) in
  let pushed := events lg ++ [event] in
  let kept :=
    if (maxInMemoryEvents lg <? length pushed)%nat then tail pushed else pushed in
  (event,
   mkLogger kept
     (if enabled lg && hasStream lg then written lg ++ [event] else written lg)
     (maxInMemoryEvents lg) (enabled lg) (hasStream lg)).

Definition new_logger : Logger := mkLogger [] [] 1000 true true.

(** The options of a call that reports a failure and names no severity,
    as [logExecuteEnd] passes for a non-zero exit code. *)
Definition failed_options : LogOptions :=
  mkLogOptions None None None None (Some false) None None.

End AuditLogger.

(** ** Languages ([types/index.ts]) *)

Inductive Language : Type :=
| python | typescript | javascript | go | rust | bash | ruby.

Definition language_name (l : Language) : string :=
  match l with
  | python => "python" | typescript => "typescript" | javascript => "javascript"
  | go => "go" | rust => "rust" | bash => "bash" | ruby => "ruby"
  end.

(** The [imageMap] of the session manager and of the pool. *)
Definition imageMap (l : Language) : jsstring :=
  js match l with
     | python => "python:3.11-slim"
     | typescript => "oven/bun:latest"
     | javascript => "node:20-alpine"
     | go => "golang:1.21-alpine"
     | rust => "rust:1.75-alpine"
     | bash => "alpine:latest"
     | ruby => "ruby:3.2-alpine"
     end.

(** ** JavaScript [Map] with string keys

    A [Map] iterates in insertion order and [set] on a present key keeps
    its position, so it is an association list without repeated keys. *)

Module JsMap.

Definition t (V : Type) : Type := list (jsstring * V).

Fixpoint get {V} (k : jsstring) (m : t V) : option V :=
  match m with
  | [] => None
  | (k', v) :: m' => if str_eqb k' k then Some v else get k m'
  end.

Fixpoint set {V} (k : jsstring) (v : V) (m : t V) : t V :=
  match m with
  | [] => [(k, v)]
  | (k', v') :: m' =>
      if str_eqb k' k then (k, v) :: m' else (k', v') :: set k v m'
  end.

Fixpoint delete {V} (k : jsstring) (m : t V) : t V :=
  match m with
  | [] => []
  | (k', v') :: m' => if str_eqb k' k then m' else (k', v') :: delete k m'
  end.

Definition has {V} (k : jsstring) (m : t V) : bool :=
  match get k m with Some _ => true | None => false end.

(** A change of the object stored under [k], in place. *)
Fixpoint mutate {V} (k : jsstring) (f : V -> V) (m : t V) : t V :=
  match m with
  | [] => []
  | (k', v) :: m' => if str_eqb k' k then (k', f v) :: m' else (k', v) :: mutate k f m'
  end.

Definition size {V} (m : t V) : nat := length m.
Definition values {V} (m : t V) : list V := map snd m.
Definition keys {V} (m : t V) : list jsstring := map fst m.

End JsMap.

(** ** The session manager ([core/SessionManager.ts]) *)

Module SessionManager.

Inductive SessionState : Type := active | paused | stopped.

Record Session : Type := mkSession {
  s_id : jsstring;
  s_name : jsstring;
  s_language : Language;
  s_container : jsstring;           (* the id of the session's container *)
  s_state : SessionState;
  s_createdAt : Z;
  s_lastUsedAt : Z;
  s_expiresAt : option Z;
  s_packages : list jsstring }.

Definition with_state (st : SessionState) (s : Session) : Session :=
  mkSession (s_id s) (s_name s) (s_language s) (s_container s) st
    (s_createdAt s) (s_lastUsedAt s) (s_expiresAt s) (s_packages s).

Definition with_lastUsedAt (t : Z) (s : Session) : Session :=
  mkSession (s_id s) (s_name s) (s_language s) (s_container s) (s_state s)
    (s_createdAt s) t (s_expiresAt s) (s_packages s).

(** Calls on the engine, through [dockerClient] and [Container]. *)
Inductive EngineCall : Type :=
| ECreate (image : jsstring) (language : Language)
| EStart (container : jsstring)
| EStop (container : jsstring)
| ERemove (container : jsstring)
| EPause (container : jsstring)
| EUnpause (container : jsstring).

Record Engine : Type := mkEngine {
  e_now : nat -> Z;                                  (* the clock *)
  e_uuid : nat -> jsstring;                          (* uuidv4() *)
  e_create : list EngineCall -> result jsstring;     (* the id of the new container *)
  e_reply : list EngineCall -> EngineCall -> result unit }.

(** The two maps of the manager, with the engine calls issued so far and
    the number of reads of the clock and of the id source. *)
Record St : Type := mkSt {
  sessions : JsMap.t Session;
  sessionsByName : JsMap.t jsstring;
  trace : list EngineCall;
  reads : nat }.

Definition M := Eff.M St.

Section WithEngine.
Variable eng : Engine.

Definition now : M Z :=
  fun st => (Ok (e_now eng (reads st)),
             mkSt (sessions st) (sessionsByName st) (trace st) (S (reads st))).

Definition uuidv4 : M jsstring :=
  fun st => (Ok (e_uuid eng (reads st)),
             mkSt (sessions st) (sessionsByName st) (trace st) (S (reads st))).

Definition call (c : EngineCall) : M unit :=
  fun st => (e_reply eng (trace st) c,
             mkSt (sessions st) (sessionsByName st) (trace st ++ [c]) (reads st)).

Definition set_sessions (f : JsMap.t Session -> JsMap.t Session) : M unit :=
  Eff.modify (fun st => mkSt (f (sessions st)) (sessionsByName st) (trace st) (reads st)).

Definition set_names (f : JsMap.t jsstring -> JsMap.t jsstring) : M unit :=
  Eff.modify (fun st => mkSt (sessions st) (f (sessionsByName st)) (trace st) (reads st)).

Definition failed (what : string) (e : JsError) : JsError :=
  mkError PlainError (js what ++ err_message e).

(** [Container.stop], [remove], [pause], [unpause], [start] *)
Definition container_stop (c : jsstring) : M unit :=
  Eff.try_catch (call (EStop c))
    (fun error =>
       if negb (includes (js "already stopped") (err_message error))
          && negb (includes (js "not running") (err_message error))
       then Eff.throw (failed "Failed to stop container: " error)
       else Eff.ret tt).

Definition container_remove (c : jsstring) : M unit :=
  Eff.try_catch (call (ERemove c))
    (fun error => Eff.throw (failed "Failed to remove container: " error)).

Definition container_pause (c : jsstring) : M unit :=
  Eff.try_catch (call (EPause c))
    (fun error => Eff.throw (failed "Failed to pause container: " error)).

Definition container_unpause (c : jsstring) : M unit :=
  Eff.try_catch (call (EUnpause c))
    (fun error => Eff.throw (failed "Failed to unpause container: " error)).

Definition container_start (c : jsstring) : M unit :=
  Eff.try_catch (call (EStart c))
    (fun error =>
       if negb (includes (js "already started") (err_message error))
       then Eff.throw (failed "Failed to start container: " error)
       else Eff.ret tt).

Definition createContainer (image : jsstring) (language : Language) : M jsstring :=
  fun st => (e_create eng (trace st),
             mkSt (sessions st) (sessionsByName st)
               (trace st ++ [ECreate image language]) (reads st)).

(** The key under which [get] finds a session: the argument itself when
    it is an id, else the id the name maps to. *)
Definition locate (nameOrId : jsstring) (st : St) : option jsstring :=
  if JsMap.has nameOrId (sessions st) then Some nameOrId
  else match JsMap.get nameOrId (sessionsByName st) with
       | Some (c :: id) =>
           if JsMap.has (c :: id) (sessions st) then Some (c :: id) else None
       | _ => None
       end.

(** [get]: the session found has its [lastUsedAt] refreshed.  The result
    carries the key of the stored object, through which later assignments
    to its fields reach the map. *)
Definition get (nameOrId : jsstring) : M (option (jsstring * Session)) :=
  let* st := Eff.get in
  match locate nameOrId st with
  | None => Eff.ret None
  | Some key =>
      let* t := now in
      let* _ := set_sessions (JsMap.mutate key (with_lastUsedAt t)) in
      let* st' := Eff.get in
      Eff.ret (match JsMap.get key (sessions st') with
               | Some session => Some (key, session)
               | None => None
               end)
  end.

Definition not_found {A} (sessionId : jsstring) : M A :=
  Eff.throw (mkError PlainError (js "Session not found: " ++ sessionId)).

Definition pause (sessionId : jsstring) : M unit :=
  let* found := get sessionId in
  match found with
  | None => not_found sessionId
  | Some (key, session) =>
      match s_state session with
      | paused => Eff.ret tt
      | _ =>
          Eff.try_catch
            (let* _ := container_pause (s_container session) in
             set_sessions (JsMap.mutate key (with_state paused)))
            (fun error => Eff.throw error)
      end
  end.

Definition resume (sessionId : jsstring) : M unit :=
  let* found := get sessionId in
  match found with
  | None => not_found sessionId
  | Some (key, session) =>
      match s_state session with
      | paused =>
          Eff.try_catch
            (let* _ := container_unpause (s_container session) in
             let* _ := set_sessions (JsMap.mutate key (with_state active)) in
             let* t := now in
             set_sessions (JsMap.mutate key (with_lastUsedAt t)))
            (fun error => Eff.throw error)
      | _ => Eff.ret tt
      end
  end.

Definition destroy (sessionId : jsstring) : M unit :=
  let* found := get sessionId in
  match found with
  | None => not_found sessionId
  | Some (_, session) =>
      Eff.try_catch
        (let* _ := container_stop (s_container session) in
         let* _ := container_remove (s_container session) in
         let* _ := set_sessions (JsMap.delete (s_id session)) in
         set_names (JsMap.delete (s_name session)))
        (fun error => Eff.throw error)
  end.

Definition is_expired (t : Z) (session : Session) : bool :=
  match s_expiresAt session with
  | Some expiresAt => (expiresAt <=? t)%Z
  | None => false
  end.

Fixpoint cleanup_each (expired : list jsstring) : M unit :=
  match expired with
  | [] => Eff.ret tt
  | id :: more =>
      let* _ :=
        Eff.try_catch
          (let* st := Eff.get in
           match JsMap.get id (sessions st) with
           | None => Eff.ret tt
           | Some _ => destroy id
           end)
          (fun _ => Eff.ret tt) in
      cleanup_each more
  end.

(** [cleanup], the body of the janitor's timer *)
Definition cleanup : M unit :=
  let* t := now in
  let* st := Eff.get in
  cleanup_each (map s_id (List.filter (is_expired t) (JsMap.values (sessions st)))).

Record SessionConfig : Type := mkSessionConfig {
  c_language : Language;
  c_ttl : option Z;
  c_packages : list jsstring }.

Definition create (name : jsstring) (config : SessionConfig) : M Session :=
  Eff.try_catch
    (let* st := Eff.get in
     let* _ :=
       match JsMap.get name (sessionsByName st) with
       | Some existingId =>
           match JsMap.get existingId (sessions st) with
           | Some _ =>
               Eff.throw (mkError PlainError
                            (js "Session with name " ++ [DQUOTE] ++ name ++ [DQUOTE]
                             ++ js " already exists"))
           | None => set_names (JsMap.delete name)
           end
       | None => Eff.ret tt
       end in
     let* container := createContainer (imageMap (c_language config)) (c_language config) in
     let* _ := container_start container in
     let* id := uuidv4 in
     let* createdAt := now in
     let* lastUsedAt := now in
     let* expiresAt :=
       match c_ttl config with
       | Some ttl =>
           if (ttl =? 0)%Z then Eff.ret None
           else let* t := now in Eff.ret (Some (t + ttl * 1000)%Z)
       | None => Eff.ret None
       end in
     let session :=
       mkSession id name (c_language config) container active createdAt lastUsedAt
         expiresAt (c_packages config) in
     let* _ := set_sessions (JsMap.set id session) in
     let* _ := set_names (JsMap.set name id) in
     Eff.ret session)
    (fun error => Eff.throw error).

End WithEngine.

Definition empty : St := mkSt [] [] [] 0.

(** An engine that accepts every call; containers are numbered from the
    length of the trace and session ids from the number of reads. *)
Definition obliging : Engine :=
  mkEngine (fun n => 1700000000000 + Z.of_nat n)%Z
           (fun n => js "session-" ++ decimal (Z.of_nat n))
           (fun h => Ok (js "container-" ++ decimal (Z.of_nat (length h))))
           (fun _ _ => Ok tt).

(** The manager after [create('demo', {language: 'python', ttl: 3600})] on
    the obliging engine, and the session it stores. *)
Definition demo : St :=
  snd (create obliging (js "demo") (mkSessionConfig python (Some 3600%Z) []) empty).

Definition demo_session : Session :=
  mkSession (js "session-0") (js "demo") python (js "container-0") active
    1700000000001 1700000000002 (Some 1700003600003%Z) [].

(** A manager whose only session expired long ago. *)
Definition stale : St :=
  mkSt [(js "s1", mkSession (js "s1") (js "job") python (js "c1") active 0 0
                    (Some 1%Z) [])]
       [(js "job", js "s1")] [] 0.

End SessionManager.

(** ** The package cache ([core/PackageCache.ts]) *)

Module PackageCache.

Record InstallResult : Type := mkInstallResult {
  success : bool;
  cached : bool;
  i_duration : Z;
  installedPackages : list jsstring;
  errors : option (list jsstring) }.

Record ImageInfo : Type := mkImageInfo {
  img_id : jsstring;
  img_tags : list jsstring;
  img_size : Z;
  img_created : Z }.

(** What the cache asks of the engine and of the runtime adapter. *)
Inductive CacheCall : Type :=
| KListImages
| KInstallPackages (packages : list jsstring)
| KCommit (container repo tag : jsstring).

(** The engine and the runtime adapter, as the cache sees them.  A commit
    the engine accepts creates an image named [repo:tag], which is how the
    Docker Engine API names the result of a commit with a [repo] and a
    [tag]; the engine may refuse a commit, and a listing may fail. *)
Record Engine : Type := mkEngine {
  e_now : nat -> Z;
  e_list_fails : list CacheCall -> option JsError;
  e_commit : list CacheCall -> jsstring -> jsstring -> result jsstring;
  e_installPackages : list CacheCall -> list jsstring -> result InstallResult }.

Record St : Type := mkSt {
  cacheHits : nat;
  cacheMisses : nat;
  images : list ImageInfo;           (* the image store of the engine *)
  calls : list CacheCall;
  reads : nat }.

Definition M := Eff.M St.

(** [Array.prototype.sort()] without a comparator orders strings by
    their code units. *)
Fixpoint str_leb (a b : jsstring) : bool :=
  match a, b with
  | [], _ => true
  | _ :: _, [] => false
  | x :: a', y :: b' => if x =? y then str_leb a' b' else x <? y
  end.

Fixpoint insert_sorted (x : jsstring) (xs : list jsstring) : list jsstring :=
  match xs with
  | [] => [x]
  | y :: ys => if str_leb x y then x :: xs else y :: insert_sorted x ys
  end.

Definition sort (xs : list jsstring) : list jsstring :=
  fold_right insert_sorted [] xs.

Section WithEngine.
Variable eng : Engine.
(** [crypto.createHash('sha256').update(data).digest('hex')] and
    [JSON.stringify] on an array of strings *)
Variable sha256_hex : jsstring -> jsstring.
Variable JSON_stringify : list jsstring -> jsstring.

Definition now : M Z :=
  fun st => (Ok (e_now eng (reads st)),
             mkSt (cacheHits st) (cacheMisses st) (images st) (calls st) (S (reads st))).

Definition record (c : CacheCall) : M unit :=
  Eff.modify (fun st => mkSt (cacheHits st) (cacheMisses st) (images st)
                          (calls st ++ [c]) (reads st)).

Definition getCacheKey (language : Language) (packages : list jsstring) : jsstring :=
  let sorted := sort packages in
  let data := js (language_name language) ++ js ":" ++ JSON_stringify sorted in
  sha256_hex data.

Definition imageName (language : Language) (packages : list jsstring) : jsstring :=
  js "mcp-sandbox-" ++ js (language_name language) ++ js ":"
  ++ firstn 12 (getCacheKey language packages).

(** [dockerClient.listImages] *)
Definition listImages : M (list ImageInfo) :=
  let* st := Eff.get in
  let* _ := record KListImages in
  match e_list_fails eng (calls st) with
  | Some e => Eff.throw e
  | None => Eff.ret (images st)
  end.

(** [images.some(img => img.tags.includes(name))] *)
Definition listed (name : jsstring) (imgs : list ImageInfo) : bool :=
  existsb (fun img => existsb (str_eqb name) (img_tags img)) imgs.

(** [hasImage]: a failed listing counts as absent. *)
Definition hasImage (name : jsstring) : M bool :=
  Eff.try_catch
    (let* imgs := listImages in Eff.ret (listed name imgs))
    (fun _ => Eff.ret false).

(** [Container.commit(tag)]: the engine is asked for an image of
    repository [mcp-sandbox] with the given tag. *)
Definition container_commit (container tag : jsstring) : M jsstring :=
  let repo := js "mcp-sandbox" in
  let* st := Eff.get in
  let* _ := record (KCommit container repo tag) in
  match e_commit eng (calls st) repo tag with
  | Ok id =>
      let* t := now in
      let* _ :=
        Eff.modify (fun st =>
          mkSt (cacheHits st) (cacheMisses st)
               (images st ++ [mkImageInfo id [repo ++ js ":" ++ tag] 0 t])
               (calls st) (reads st)) in
      Eff.ret id
  | Throw e =>
      Eff.throw (mkError PlainError (js "Failed to commit container: " ++ err_message e))
  end.

Definition commitImage (container name : jsstring) : M unit :=
  Eff.try_catch
    (let* _ := container_commit container name in Eff.ret tt)
    (fun error => Eff.throw error).

(** [runtime.installPackages(packages, container)] *)
Definition runtime_installPackages (packages : list jsstring) : M InstallResult :=
  let* st := Eff.get in
  let* _ := record (KInstallPackages packages) in
  Eff.lift (e_installPackages eng (calls st) packages).

Definition install (language : Language) (packages : list jsstring)
    (container : jsstring) : M InstallResult :=
  let* startTime := now in
  Eff.try_catch
    (let name := imageName language packages in
     let* cachedImage := hasImage name in
     if cachedImage then
       let* _ := Eff.modify (fun st =>
         mkSt (S (cacheHits st)) (cacheMisses st) (images st) (calls st) (reads st)) in
       let* t := now in
       Eff.ret (mkInstallResult true true (t - startTime) packages None)
     else
       let* _ := Eff.modify (fun st =>
         mkSt (cacheHits st) (S (cacheMisses st)) (images st) (calls st) (reads st)) in
       let* installResult := runtime_installPackages packages in
       if negb (success installResult) then Eff.ret installResult
       else
         let* _ := commitImage container name in
         let* t := now in
         Eff.ret (mkInstallResult true false (t - startTime) packages None))
    (fun error =>
       let* t := now in
       Eff.ret (mkInstallResult false false (t - startTime) []
                  (Some [err_message error]))).

End WithEngine.

Definition empty : St := mkSt 0 0 [] [] 0.

(** An engine that lists and commits without error, with an adapter whose
    installs succeed. *)
Definition obliging : Engine :=
  mkEngine (fun n => 1700000000000 + Z.of_nat n)%Z
           (fun _ => None)
           (fun h _ _ => Ok (js "sha256:" ++ decimal (Z.of_nat (length h))))
           (fun _ packages => Ok (mkInstallResult true false 8000 packages None)).

(** An engine that, like Docker, refuses a tag that is not made of
    letters, digits, [_], [.] and [-]. *)
Definition valid_tag (tag : jsstring) : bool :=
  forallb (fun c => is_word c || (c =? DOT) || (c =? 45)) tag.

Definition strict : Engine :=
  mkEngine (e_now obliging) (e_list_fails obliging)
           (fun h repo tag =>
              if valid_tag tag then e_commit obliging h repo tag
              else Throw (mkError PlainError (js "invalid reference format")))
           (e_installPackages obliging).

Definition installs (cs : list CacheCall) : nat :=
  length (List.filter (fun c => match c with KInstallPackages _ => true | _ => false end) cs).

End PackageCache.

(** ** The container pool ([core/ContainerPool.ts]) *)

Module ContainerPool.

Record PooledContainer : Type := mkPooled {
  p_container : jsstring;            (* container.id *)
  p_language : Language;
  p_createdAt : Z;
  p_lastUsedAt : Z;
  p_useCount : nat;
  p_healthy : bool }.

Record PoolConfig : Type := mkPoolConfig {
  minIdle : nat;
  maxActive : nat }.

(** Calls on containers, through [Container]. *)
Inductive PoolCall : Type :=
| PExec (container : jsstring) (cmd : list jsstring)
| PStop (container : jsstring)
| PRemove (container : jsstring).

Record Engine : Type := mkEngine {
  e_now : nat -> Z;
  e_exec : list PoolCall -> jsstring -> list jsstring -> result ExecResult;
  e_reply : list PoolCall -> PoolCall -> result unit }.

Record St : Type := mkSt {
  pool : JsMap.t PooledContainer;
  trace : list PoolCall;
  reads : nat }.

Definition M := Eff.M St.

Section WithEngine.
Variable eng : Engine.
Variable config : PoolConfig.

Definition now : M Z :=
  fun st => (Ok (e_now eng (reads st)), mkSt (pool st) (trace st) (S (reads st))).

Definition call (c : PoolCall) : M unit :=
  fun st => (e_reply eng (trace st) c, mkSt (pool st) (trace st ++ [c]) (reads st)).

Definition container_exec (container : jsstring) (cmd : list jsstring) : M ExecResult :=
  fun st => (e_exec eng (trace st) container cmd,
             mkSt (pool st) (trace st ++ [PExec container cmd]) (reads st)).

Definition set_pool (f : JsMap.t PooledContainer -> JsMap.t PooledContainer) : M unit :=
  Eff.modify (fun st => mkSt (f (pool st)) (trace st) (reads st)).

(** [Container.stop] and [Container.remove] *)
Definition container_stop (c : jsstring) : M unit :=
  Eff.try_catch (call (PStop c))
    (fun error =>
       if negb (includes (js "already stopped") (err_message error))
          && negb (includes (js "not running") (err_message error))
       then Eff.throw (mkError PlainError
                         (js "Failed to stop container: " ++ err_message error))
       else Eff.ret tt).

Definition container_remove (c : jsstring) : M unit :=
  Eff.try_catch (call (PRemove c))
    (fun error =>
       Eff.throw (mkError PlainError
                    (js "Failed to remove container: " ++ err_message error))).

(** [cleanContainer]: the removal of the workspace files may fail, the
    re-creation of the workspace may not. *)
Definition cleanContainer (container : jsstring) : M unit :=
  Eff.try_catch
    (let* _ :=
       Eff.ignore_errors
         (let* _ := container_exec container
                      [js "sh"; js "-c"; js "rm -rf /workspace/* /workspace/.*"] in
          Eff.ret tt) in
     let* _ := container_exec container [js "mkdir"; js "-p"; js "/workspace"] in
     Eff.ret tt)
    (fun error => Eff.throw error).

(** [destroyContainer]: a failure is logged and goes no further; the entry
    is deleted only after the stop and the removal went through. *)
Definition destroyContainer (container : jsstring) : M unit :=
  Eff.try_catch
    (let* _ := container_stop container in
     let* _ := container_remove container in
     set_pool (JsMap.delete container))
    (fun _ => Eff.ret tt).

(** The loop of [evictOldest]: the first entry, in iteration order, whose
    [lastUsedAt] is below that of every entry before it. *)
Fixpoint oldest_from (oldest : option PooledContainer) (entries : list PooledContainer)
  : option PooledContainer :=
  match entries with
  | [] => oldest
  | pooled :: more =>
      match oldest with
      | None => oldest_from (Some pooled) more
      | Some o =>
          if (p_lastUsedAt pooled <? p_lastUsedAt o)%Z
          then oldest_from (Some pooled) more
          else oldest_from oldest more
      end
  end.

Definition evictOldest : M unit :=
  let* st := Eff.get in
  match oldest_from None (JsMap.values (pool st)) with
  | Some oldest => destroyContainer (p_container oldest)
  | None => Eff.ret tt
  end.

Definition release (container : jsstring) (language : Language) : M unit :=
  Eff.try_catch
    (let* st := Eff.get in
     let* _ :=
       if (maxActive config <=? JsMap.size (pool st))%nat then evictOldest
       else Eff.ret tt in
     let* _ := cleanContainer container in
     let* createdAt := now in
     let* lastUsedAt := now in
     set_pool (JsMap.set container
                 (mkPooled container language createdAt lastUsedAt 0 true)))
    (fun _ => destroyContainer container).





End WithEngine.

Definition empty : St := mkSt [] [] 0.

(** An engine that accepts every call, with a clock that ticks at every
    read. *)
Definition obliging : Engine :=
  mkEngine (fun n => 1700000000000 + Z.of_nat n)%Z
           (fun _ _ _ => Ok (mkExecResult [] [] 0 0))
           (fun _ _ => Ok tt).

(** An engine that cannot stop the container [victim]. *)
Definition stubborn (victim : jsstring) : Engine :=
  mkEngine (e_now obliging) (e_exec obliging)
           (fun _ c =>
              match c with
              | PStop container =>
                  if str_eqb container victim
                  then Throw (mkError PlainError (js "connect ECONNREFUSED"))
                  else Ok tt
              | _ => Ok tt
              end).

(** An engine on which the container [victim] has stopped by itself: the
    stop is refused with a message that [Container.stop] ignores. *)
Definition already_stopped (victim : jsstring) : Engine :=
  mkEngine (e_now obliging) (e_exec obliging)
           (fun _ c =>
              match c with
              | PStop container =>
                  if str_eqb container victim
                  then Throw (mkError PlainError (js "container already stopped"))
                  else Ok tt
              | _ => Ok tt
              end).

(** An engine that cannot remove the container [victim]. *)
Definition unremovable (victim : jsstring) : Engine :=
  mkEngine (e_now obliging) (e_exec obliging)
           (fun _ c =>
              match c with
              | PRemove container =>
                  if str_eqb container victim
                  then Throw (mkError PlainError (js "removal in progress"))
                  else Ok tt
              | _ => Ok tt
              end).

(** An engine that cannot stop [victim] and on which no command runs in
    the container [dirty]. *)
Definition unclean (victim dirty : jsstring) : Engine :=
  mkEngine (e_now obliging)
           (fun h c cmd =>
              if str_eqb c dirty
              then Throw (mkError PlainError (js "exec failed"))
              else e_exec obliging h c cmd)
           (e_reply (stubborn victim)).

(** The pool after the releases of [c1], [c2] and [c3], in this order, into
    an empty pool with [maxActive = 2]. *)
Definition two_slots : PoolConfig := mkPoolConfig 0 2.

Definition after_two_releases (eng : Engine) (c1 c2 : jsstring) : St :=
  snd (release eng two_slots c2 python
         (snd (release eng two_slots c1 python empty))).

Definition after_three_releases (eng : Engine) (c1 c2 c3 : jsstring) : St :=
  snd (release eng two_slots c3 python (after_two_releases eng c1 c2)).

End ContainerPool.

(** * Further parts of the sources *)

(** ** The shape of an accepted path

    What [sanitizePath] returns, read off the calls it makes: the
    segments of the decoded text that are neither empty nor [.], behind
    the workspace root. *)

Module PathShape.

Definition kept (seg : jsstring) : bool :=
  negb (str_eqb seg [] || str_eqb seg [DOT]).

Definition segments (s : jsstring) : list jsstring :=
  List.filter kept (split SLASH s).

Definition workspace_path (segs : list jsstring) : jsstring :=
  SLASH :: join [SLASH] (js "workspace" :: segs).

(** What every kept segment of a text free of two dots in a row is. *)
Definition plain_segment (seg : jsstring) : Prop :=
  kept seg = true /\ ~ In SLASH seg /\ startsWith PosixPath.dotdot seg = false.

(** Whether an expression looks at the start of the input. *)
Fixpoint uses_bos (r : regex) : bool :=
  match r with
  | Eps | Chr _ => false
  | Seq a b | Alt a b => uses_bos a || uses_bos b
  | Star a | NotAhead a => uses_bos a
  | Bos => true
  end.

End PathShape.

(** ** Installing packages ([installPackages] of the runtimes)

    Every runtime checks the names, runs its package manager in the
    container and reports the outcome as an [InstallResult]; whatever is
    thrown on the way is caught and reported the same way. *)

Module Packages.
Import Runtimes.

(** [$] without the [m] flag: nothing follows. *)
Definition Eos : regex := NotAhead (Chr (fun _ => true)).

(** [/^[...]+$/] for a character class. *)
Definition whole (cls : N -> bool) : regex := seqs [Bos; Plus (Chr cls); Eos].

Definition is_alnum (c : N) : bool :=
  ((97 <=? c) && (c <=? 122)) || ((65 <=? c) && (c <=? 90))
  || ((48 <=? c) && (c <=? 57)).

(** [[a-zA-Z0-9._-]] *)
Definition python_name (c : N) : bool :=
  is_alnum c || (c =? 46) || (c =? 95) || (c =? 45).
(** [[@a-zA-Z0-9/_-]] *)
Definition node_name (c : N) : bool :=
  (c =? 64) || is_alnum c || (c =? 47) || (c =? 95) || (c =? 45).
(** [[a-zA-Z0-9._+@-]] *)
Definition apk_name (c : N) : bool :=
  is_alnum c || (c =? 46) || (c =? 95) || (c =? 43) || (c =? 64) || (c =? 45).
(** [[a-zA-Z0-9._\-/]] *)
Definition go_name (c : N) : bool :=
  is_alnum c || (c =? 46) || (c =? 95) || (c =? 45) || (c =? 47).
(** [[a-zA-Z0-9_-]] *)
Definition crate_name (c : N) : bool :=
  is_alnum c || (c =? 95) || (c =? 45).

Definition not_allowed (pkg : jsstring) : JsError :=
  mkError SecurityError
    (js "Package " ++ [DQUOTE] ++ pkg ++ [DQUOTE] ++ js " is not allowed").
Definition invalid_name (pkg : jsstring) : JsError :=
  mkError SecurityError (js "Invalid package name: " ++ pkg).

(** [validatePackageNames], the same loop in every runtime. *)
Fixpoint validatePackageNames (blocked : jsstring -> bool) (cls : N -> bool)
    (packages : list jsstring) : result unit :=
  match packages with
  | [] => Ok tt
  | pkg :: more =>
      if blocked pkg then Throw (not_allowed pkg)
      else if negb (test (whole cls) pkg) then Throw (invalid_name pkg)
      else validatePackageNames blocked cls more
  end.

(** [exec(cmd)]: the options default to the empty object. *)
Definition no_options : ExecOptions := mkExecOptions None None None None.

Definition CARGO_TOML : jsstring :=
  js "[package]" ++ [LF] ++
  js "name = " ++ [DQUOTE] ++ js "sandbox" ++ [DQUOTE] ++ [LF] ++
  js "version = " ++ [DQUOTE] ++ js "0.1.0" ++ [DQUOTE] ++ [LF] ++
  js "edition = " ++ [DQUOTE] ++ js "2021" ++ [DQUOTE] ++ [LF] ++
  [LF] ++ js "[dependencies]" ++ [LF].

Section WithEnv.
Variable env : Env.
(** [String.prototype.toLowerCase] *)
Variable toLowerCase : jsstring -> jsstring.

(** [PACKAGE_BLOCKLIST.includes(pkg.toLowerCase())] *)
Definition listed (blocklist : list string) (pkg : jsstring) : bool :=
  existsb (fun blocked => str_eqb blocked (toLowerCase pkg)) (map js blocklist).

(** [PACKAGE_BLOCKLIST.some(blocked => pkg.includes(blocked))] *)
Definition mentions (blocklist : list string) (pkg : jsstring) : bool :=
  existsb (fun blocked => includes blocked pkg) (map js blocklist).

Definition python_validatePackageNames :=
  validatePackageNames (listed ["os"; "subprocess"; "sys"]%string) python_name.
Definition typescript_validatePackageNames :=
  validatePackageNames
    (listed ["child_process"; "fs"; "node:child_process"; "node:fs"]%string) node_name.
Definition javascript_validatePackageNames :=
  validatePackageNames (listed ["child_process"; "fs"]%string) node_name.
Definition bash_validatePackageNames :=
  validatePackageNames (listed ["docker"; "podman"]%string) apk_name.
Definition go_validatePackageNames :=
  validatePackageNames (mentions ["os/exec"; "syscall"; "unsafe"]%string) go_name.
Definition rust_validatePackageNames :=
  validatePackageNames (mentions ["std::process"; "std::os"]%string) crate_name.

Definition failure (startTime : Z) (message : jsstring)
  : Eff.M World PackageCache.InstallResult :=
  let* t := Eff.now env in
  Eff.ret (PackageCache.mkInstallResult false false (t - startTime) [] (Some [message])).

Definition installed (startTime : Z) (packages : list jsstring)
  : Eff.M World PackageCache.InstallResult :=
  let* t := Eff.now env in
  Eff.ret (PackageCache.mkInstallResult true false (t - startTime) packages None).

(** The end shared by the runtimes that install in one command. *)
Definition report (startTime : Z) (packages : list jsstring) (r : ExecResult)
  : Eff.M World PackageCache.InstallResult :=
  if negb (exitCode r =? 0)%Z then failure startTime (stderr r)
  else installed startTime packages.

(** [try { ... } catch (error) { return { success: false, ... } }] *)
Definition guarded (startTime : Z) (body : Eff.M World PackageCache.InstallResult)
  : Eff.M World PackageCache.InstallResult :=
  Eff.try_catch body (fun error => failure startTime (err_message error)).

Definition python_installPackages (packages : list jsstring)
  : Eff.M World PackageCache.InstallResult :=
  let* startTime := Eff.now env in
  guarded startTime
    (let* _ := Eff.lift (python_validatePackageNames packages) in
     let requirements := join [LF] packages in
     let* _ := Eff.putFile env (js "/tmp/requirements.txt") requirements in
     let* r := Eff.exec env
                 [js "pip"; js "install"; js "--no-cache-dir";
                  js "--disable-pip-version-check"; js "-r";
                  js "/tmp/requirements.txt"] no_options in
     report startTime packages r).

(** TypeScript, JavaScript and Bash: one preparing command, whose
    outcome is not looked at, then one command that names every
    package. *)
Definition install_at_once (validate : list jsstring -> result unit)
    (prepare command : list jsstring) (packages : list jsstring)
  : Eff.M World PackageCache.InstallResult :=
  let* startTime := Eff.now env in
  guarded startTime
    (let* _ := Eff.lift (validate packages) in
     let* _ := Eff.exec env prepare no_options in
     let* r := Eff.exec env (command ++ packages) no_options in
     report startTime packages r).

Definition typescript_installPackages :=
  install_at_once typescript_validatePackageNames
    [js "sh"; js "-c";
     js "test -f package.json || echo " ++ [DQUOTE] ++ js "{}" ++ [DQUOTE]
     ++ js " > package.json"]
    [js "pnpm"; js "add"].
Definition javascript_installPackages :=
  install_at_once javascript_validatePackageNames
    [js "sh"; js "-c"; js "test -f package.json || npm init -y"]
    [js "npm"; js "install"; js "--no-save"].
Definition bash_installPackages :=
  install_at_once bash_validatePackageNames
    [js "apk"; js "update"]
    [js "apk"; js "add"; js "--no-cache"].

(** Go and Rust: one command for each package, in order; the first one
    that fails ends the loop with a failure. *)
Fixpoint install_each (command : jsstring -> list jsstring) (startTime : Z)
    (packages : list jsstring) : Eff.M World (option PackageCache.InstallResult) :=
  match packages with
  | [] => Eff.ret None
  | pkg :: more =>
      let* r := Eff.exec env (command pkg) no_options in
      if negb (exitCode r =? 0)%Z then
        let* res := failure startTime (stderr r) in Eff.ret (Some res)
      else install_each command startTime more
  end.

Definition finish_each (command : jsstring -> list jsstring) (startTime : Z)
    (packages : list jsstring) : Eff.M World PackageCache.InstallResult :=
  let* early := install_each command startTime packages in
  match early with
  | Some res => Eff.ret res
  | None => installed startTime packages
  end.

Definition go_get (pkg : jsstring) : list jsstring := [js "go"; js "get"; pkg].
Definition cargo_add (pkg : jsstring) : list jsstring :=
  [js "sh"; js "-c"; js "cargo add " ++ pkg].

Definition go_installPackages (packages : list jsstring)
  : Eff.M World PackageCache.InstallResult :=
  let* startTime := Eff.now env in
  guarded startTime
    (let* _ := Eff.lift (go_validatePackageNames packages) in
     let* _ := Eff.exec env
                 [js "sh"; js "-c"; js "test -f go.mod || go mod init sandbox"]
                 no_options in
     finish_each go_get startTime packages).

Definition rust_installPackages (packages : list jsstring)
  : Eff.M World PackageCache.InstallResult :=
  let* startTime := Eff.now env in
  guarded startTime
    (let* _ := Eff.lift (rust_validatePackageNames packages) in
     let* cargoTomlExists :=
       Eff.exec env [js "test"; js "-f"; js "Cargo.toml"] no_options in
     let* _ :=
       if negb (exitCode cargoTomlExists =? 0)%Z
       then Eff.putFile env (js "/workspace/Cargo.toml") CARGO_TOML
       else Eff.ret tt in
     finish_each cargo_add startTime packages).

(** The validator and the installer of each adapter; [PythonMLRuntime]
    inherits both from [PythonRuntime]. *)
Definition validator (a : Adapter) : list jsstring -> result unit :=
  match a with
  | Python | PythonML => python_validatePackageNames
  | TypeScript => typescript_validatePackageNames
  | JavaScript => javascript_validatePackageNames
  | Go => go_validatePackageNames
  | Rust => rust_validatePackageNames
  | Bash => bash_validatePackageNames
  end.

Definition name_class (a : Adapter) : N -> bool :=
  match a with
  | Python | PythonML => python_name
  | TypeScript | JavaScript => node_name
  | Go => go_name
  | Rust => crate_name
  | Bash => apk_name
  end.

Definition installPackages (a : Adapter)
  : list jsstring -> Eff.M World PackageCache.InstallResult :=
  match a with
  | Python | PythonML => python_installPackages
  | TypeScript => typescript_installPackages
  | JavaScript => javascript_installPackages
  | Go => go_installPackages
  | Rust => rust_installPackages
  | Bash => bash_installPackages
  end.

End WithEnv.

(** What an [InstallResult] can look like: never from the cache; a
    success names the requested packages, which all passed the
    validator, and no error; a failure names no package and one error. *)
Definition install_outcome (valid : bool) (packages : list jsstring)
    (res : PackageCache.InstallResult) : Prop :=
  PackageCache.cached res = false
  /\ if PackageCache.success res
     then valid = true /\ PackageCache.installedPackages res = packages
          /\ PackageCache.errors res = None
     else PackageCache.installedPackages res = []
          /\ exists message, PackageCache.errors res = Some [message].

(** The calls [rust_installPackages] may issue for a request. *)
Definition cargo_call (packages : list jsstring) (c : Call) : Prop :=
  c = CallExec [js "test"; js "-f"; js "Cargo.toml"] no_options
  \/ c = CallPutFile (js "/workspace/Cargo.toml") CARGO_TOML
  \/ exists pkg, In pkg packages /\ pkg <> [] /\ forallb crate_name pkg = true
                 /\ c = CallExec [js "sh"; js "-c"; js "cargo add " ++ pkg] no_options.

(** Lower case of the ASCII letters, which is what [toLowerCase] does on
    text made of ASCII characters. *)
Definition ascii_lower (s : jsstring) : jsstring :=
  map (fun c => if (65 <=? c) && (c <=? 90) then c + 32 else c) s.

End Packages.

(** An environment in which [go get] fails for one module path. *)
Definition missing_module (path : jsstring) : Env :=
  mkEnv (env_now quiet_env) (env_random quiet_env)
        (fun _ cmd _ =>
           Ok (if existsb (str_eqb path) cmd
               then mkExecResult [] (js "go: module not found") 1 0
               else mkExecResult [] [] 0 0))
        (fun _ _ _ => Ok tt)
        (fun _ _ => Ok tt).

(** An environment whose commands never come back in time. *)
Definition timing_out : Env :=
  mkEnv (env_now quiet_env) (env_random quiet_env)
        (fun _ _ _ => Throw (mkError PlainError (js "Execution timeout")))
        (fun _ _ _ => Ok tt)
        (fun _ _ => Ok tt).

(** An environment whose compiler rejects every program. *)
Definition rejecting_compiler : Env :=
  mkEnv (env_now quiet_env) (env_random quiet_env)
        (fun _ _ _ => Ok (mkExecResult [] (js "error: expected item") 1 0))
        (fun _ _ _ => Ok tt)
        (fun _ _ => Ok tt).

(** ** Where [Container.putFile] puts a file

    The archive holds one entry named after the last segment of the
    path and is unpacked in the directory that precedes the last
    slash. *)

Module ContainerFiles.

(** [s.lastIndexOf(c)], [-1] when [c] does not occur *)
Fixpoint lastIndexOf (c : N) (s : jsstring) : Z :=
  match s with
  | [] => -1
  | x :: s' =>
      let r := lastIndexOf c s' in
      if (0 <=? r)%Z then (r + 1)%Z else if x =? c then 0%Z else (-1)%Z
  end.

(** [s.substring(0, e)]: a negative end counts as [0] *)
Definition substring0 (e : Z) (s : jsstring) : jsstring := firstn (Z.to_nat e) s.

(** [path.split('/').pop() || 'file'] *)
Definition entry_name (path : jsstring) : jsstring :=
  match last (split SLASH path) with
  | Some (c :: name) => c :: name
  | _ => js "file"
  end.

(** [path.substring(0, path.lastIndexOf('/')) || '/'] *)
Definition archive_dir (path : jsstring) : jsstring :=
  match substring0 (lastIndexOf SLASH path) path with
  | [] => [SLASH]
  | dir => dir
  end.

End ContainerFiles.

(** ** The stream of one command *)

Module ContainerStream.
Import ContainerExec.

(** A frame of the multiplexed stream: [true] for stdout. *)
Definition frame (f : bool * jsstring) : StreamEvent :=
  if fst f then StdoutFrame (snd f) else StderrFrame (snd f).

Definition text_of (out : bool) (frames : list (bool * jsstring)) : jsstring :=
  concat (map snd (List.filter (fun f => Bool.eqb (fst f) out) frames)).

(** An engine that reaches the stream: the container runs, or starts,
    and the exec instance is created. *)
Definition reaches_stream (eng : Engine) : Prop :=
  (inspect_running eng = Ok true
   \/ (inspect_running eng = Ok false /\ start eng = Ok tt))
  /\ create_exec eng = Ok tt.

Definition interleaved : list (bool * jsstring) :=
  [(true, js "a"); (false, js "warn"); (true, js "b")].

Definition slow_engine : Engine :=
  mkEngine (Ok true) (Ok tt) (Ok tt)
    (Ok (map frame interleaved ++ [TimerFired; StreamEnd])) (Ok (Some 0%Z)).

Definition done_engine : Engine :=
  mkEngine (Ok false) (Ok tt) (Ok tt)
    (Ok (map frame interleaved ++ [StreamEnd; TimerFired])) (Ok None).

End ContainerStream.

(** ** The session manager, continued: [extend], [getCount],
    [getByState], [shutdown] *)

Module SessionOps.
Import SessionManager.

Definition with_expiresAt (e : option Z) (s : Session) : Session :=
  mkSession (s_id s) (s_name s) (s_language s) (s_container s) (s_state s)
    (s_createdAt s) (s_lastUsedAt s) e (s_packages s).

Definition state_eqb (a b : SessionState) : bool :=
  match a, b with
  | active, active | paused, paused | stopped, stopped => true
  | _, _ => false
  end.

Section WithEngine.
Variable eng : Engine.

Definition extend (sessionId : jsstring) (additionalSeconds : Z) : M unit :=
  let* found := get eng sessionId in
  match found with
  | None => not_found sessionId
  | Some (key, session) =>
      match s_expiresAt session with
      | None =>
          (* No TTL set, set one now *)
          let* t := now eng in
          set_sessions
            (JsMap.mutate key (with_expiresAt (Some (t + additionalSeconds * 1000)%Z)))
      | Some expiresAt =>
          set_sessions
            (JsMap.mutate key
               (with_expiresAt (Some (expiresAt + additionalSeconds * 1000)%Z)))
      end
  end.

Fixpoint shutdown_each (sessionIds : list jsstring) : M unit :=
  match sessionIds with
  | [] => Eff.ret tt
  | id :: more =>
      let* _ := Eff.try_catch (destroy eng id) (fun _ => Eff.ret tt) in
      shutdown_each more
  end.

Definition shutdown : M unit :=
  let* st := Eff.get in
  shutdown_each (JsMap.keys (sessions st)).

End WithEngine.

Definition getCount (st : St) : nat := JsMap.size (sessions st).

Definition getByState (state : SessionState) (st : St) : list Session :=
  List.filter (fun s => state_eqb (s_state s) state) (JsMap.values (sessions st)).

(** The two maps are in step: keys are unique, every session is stored
    under its own id and found under its name, and every name leads to a
    stored session of that name. *)
Definition in_step (st : St) : Prop :=
  List.NoDup (JsMap.keys (sessions st))
  /\ List.NoDup (JsMap.keys (sessionsByName st))
  /\ (forall id s, JsMap.get id (sessions st) = Some s ->
        s_id s = id /\ JsMap.get (s_name s) (sessionsByName st) = Some id)
  /\ (forall name id, JsMap.get name (sessionsByName st) = Some id ->
        exists s, JsMap.get id (sessions st) = Some s /\ s_name s = name).

(** The requests of the session tool and the janitor. *)
Inductive Request : Type :=
| RCreate (name : jsstring) (config : SessionConfig)
| RGet (nameOrId : jsstring)
| RPause (sessionId : jsstring)
| RResume (sessionId : jsstring)
| RExtend (sessionId : jsstring) (additionalSeconds : Z)
| RDestroy (sessionId : jsstring)
| RCleanup
| RShutdown.

(** The manager after a request that ran alone from its first line to
    its return or its raise, whether it succeeded or raised.  No other
    request runs between its waits on the engine: requests that overlap,
    such as two creations of one name of which the second starts while
    the first waits for its container, are not described by [after]. *)
Definition after (eng : Engine) (r : Request) (st : St) : St :=
  match r with
  | RCreate name config => snd (create eng name config st)
  | RGet nameOrId => snd (get eng nameOrId st)
  | RPause sessionId => snd (pause eng sessionId st)
  | RResume sessionId => snd (resume eng sessionId st)
  | RExtend sessionId additionalSeconds => snd (extend eng sessionId additionalSeconds st)
  | RDestroy sessionId => snd (destroy eng sessionId st)
  | RCleanup => snd (cleanup eng st)
  | RShutdown => snd (shutdown eng st)
  end.

(** The id source never repeats itself and never yields the empty text. *)
Definition fresh_ids (eng : Engine) (st : St) : Prop :=
  forall n, (reads st <= n)%nat ->
    e_uuid eng n <> [] /\ JsMap.get (e_uuid eng n) (sessions st) = None.

End SessionOps.

(** A store that already holds the image for [requests] on Python, for
    a digest and a serialisation that stand in for the real ones. *)
Definition prebuilt : PackageCache.St :=
  PackageCache.mkSt 0 0
    [PackageCache.mkImageInfo (js "sha256:77")
       [PackageCache.imageName (fun data => data) (fun xs => concat xs) python
          [js "requests"]] 0 0]
    [] 0.

(** ** The container pool, continued: [getAvailableContainer] *)

Module PoolOps.
Import ContainerPool.

(** [pooled.language === language], on the names of the languages *)
Definition language_eqb (a b : Language) : bool :=
  String.eqb (language_name a) (language_name b).

Definition available (language : Language) (pooled : PooledContainer) : bool :=
  language_eqb (p_language pooled) language && p_healthy pooled.

(** The first entry, in the order of the map, that is of the language
    and healthy; it leaves the pool. *)
Definition getAvailableContainer (language : Language) : M (option PooledContainer) :=
  let* st := Eff.get in
  match find (available language) (JsMap.values (pool st)) with
  | Some pooled =>
      let* _ := set_pool (JsMap.delete (p_container pooled)) in
      Eff.ret (Some pooled)
  | None => Eff.ret None
  end.

(** Every entry is stored under the id of its container, and no id
    occurs twice. *)
Definition well_keyed (st : St) : Prop :=
  List.NoDup (JsMap.keys (pool st))
  /\ forall k pooled, JsMap.get k (pool st) = Some pooled -> p_container pooled = k.

End PoolOps.

(** A pool with one Go container waiting in front of two Python ones,
    the first of which failed its last health check. *)
Definition idle_pool : ContainerPool.St :=
  ContainerPool.mkSt
    [(js "g1", ContainerPool.mkPooled (js "g1") go 10 11 0 true);
     (js "p1", ContainerPool.mkPooled (js "p1") python 20 21 0 false);
     (js "p2", ContainerPool.mkPooled (js "p2") python 30 31 0 true)]
    [] 0.

(** ** Reading the audit log back ([getRecentEvents],
    [getSecurityEvents]) *)

Module AuditQueries.
Import AuditLogger.

#[global] Instance eventType_eq_dec : EqDecision AuditEventType.
Proof. solve_decision. Defined.

#[global] Instance severity_eq_dec : EqDecision AuditSeverity.
Proof. solve_decision. Defined.

(** [xs.slice(-count)]: the last [count] elements for a positive
    [count], everything for [0], and for a negative one what follows the
    first [-count] elements. *)
Definition slice_from_end {A} (count : Z) (xs : list A) : list A :=
  if (0 <? count)%Z then skipn (length xs - Z.to_nat count) xs
  else skipn (Z.to_nat (- count)) xs.

Record Filter : Type := mkFilter {
  f_eventType : option AuditEventType;
  f_severity : option AuditSeverity;
  f_language : option jsstring }.

(** A filter field counts when it is given and, for the language, not
    the empty text. *)
Definition matches (filter : Filter) (e : AuditEvent) : bool :=
  match f_eventType filter with
  | Some t => bool_decide (eventType e = t)
  | None => true
  end
  && match f_severity filter with
     | Some s => bool_decide (severity e = s)
     | None => true
     end
  && match f_language filter with
     | Some (c :: l) =>
         match language e with
         | Some l' => str_eqb l' (c :: l)
         | None => false
         end
     | _ => true
     end.

Definition getRecentEvents (count : Z) (filter : option Filter) (lg : Logger)
  : list AuditEvent :=
  let filtered :=
    match filter with
    | Some f =>
        let by_type :=
          match f_eventType f with
          | Some t => List.filter (fun e => bool_decide (eventType e = t)) (events lg)
          | None => events lg
          end in
        let by_severity :=
          match f_severity f with
          | Some s => List.filter (fun e => bool_decide (severity e = s)) by_type
          | None => by_type
          end in
        match f_language f with
        | Some (c :: l) =>
            List.filter (fun e => match language e with
                                  | Some l' => str_eqb l' (c :: l)
                                  | None => false
                                  end) by_severity
        | _ => by_severity
        end
    | None => events lg
    end in
  slice_from_end count filtered.

Definition is_security_event (e : AuditEvent) : bool :=
  bool_decide (eventType e = SECURITY_VIOLATION)
  || bool_decide (eventType e = EXECUTE_BLOCKED)
  || bool_decide (eventType e = PACKAGE_INSTALL_BLOCKED)
  || bool_decide (severity e = CRITICAL).

Definition getSecurityEvents (count : Z) (lg : Logger) : list AuditEvent :=
  slice_from_end count (List.filter is_security_event (events lg)).

(** [clear] *)
Definition clear (lg : Logger) : Logger :=
  mkLogger [] (written lg) (maxInMemoryEvents lg) (enabled lg) (hasStream lg).

(** A run of calls of [log], oldest first. *)
Record Entry : Type := mkEntry {
  en_now : jsstring;
  en_id : jsstring;
  en_type : AuditEventType;
  en_details : list (jsstring * jsstring);
  en_options : LogOptions }.

Definition log_entry (lg : Logger) (en : Entry) : Logger :=
  snd (log (en_now en) (en_id en) (en_type en) (en_details en) (en_options en) lg).

Definition log_all (entries : list Entry) (lg : Logger) : Logger :=
  fold_left log_entry entries lg.

Definition event_of (en : Entry) (lg : Logger) : AuditEvent :=
  fst (log (en_now en) (en_id en) (en_type en) (en_details en) (en_options en) lg).

End AuditQueries.

(** A logger that keeps two events in memory, and three calls of
    [log]. *)
Definition small_logger : AuditLogger.Logger := AuditLogger.mkLogger [] [] 2 true true.

Definition three_entries : list AuditQueries.Entry :=
  [AuditQueries.mkEntry (js "t1") (js "evt_1") AuditLogger.EXECUTE_START []
     AuditLogger.no_options;
   AuditQueries.mkEntry (js "t2") (js "evt_2") AuditLogger.EXECUTE_BLOCKED []
     AuditLogger.no_options;
   AuditQueries.mkEntry (js "t3") (js "evt_3") AuditLogger.EXECUTE_END []
     AuditLogger.failed_options].

(** * Properties *)

(** ** Sanity checks of the string, pattern, URI and path primitives *)

Example regex_smoke_1 : test (seqs [l "import"; Plus sp; l "os"; NotAhead word]) (js "x; import  os") = true.
Proof. reflexivity. Qed.
Example regex_smoke_2 : test (seqs [l "import"; Plus sp; l "os"; NotAhead word]) (js "import ossify") = false.
Proof. reflexivity. Qed.
Example regex_smoke_3 : test (seqs [Bos; Star sp; l "package"; Plus sp; Plus word]) (js "  package main") = true.
Proof. reflexivity. Qed.
Example regex_smoke_4 : test (seqs [Bos; Star sp; l "package"; Plus sp; Plus word]) (js "x package main") = false.
Proof. reflexivity. Qed.
Example decode_smoke_1 : Uri.decodeURIComponent (js "%252e%252e/x") = Some (js "%2e%2e/x").
Proof. reflexivity. Qed.
Example decode_smoke_2 : Uri.decodeURIComponent (js "%2e%2E/x") = Some (js "../x").
Proof. reflexivity. Qed.
Example decode_smoke_3 : Uri.decodeURIComponent (js "a%C3%A9%E2%82%AC%F0%9F%98%80") = Some [97; 233; 8364; 55357; 56832].
Proof. reflexivity. Qed.
Example decode_smoke_4 : Uri.decodeURIComponent (js "%C0%AE") = None.
Proof. reflexivity. Qed.
Example decode_smoke_5 : Uri.decodeURIComponent (js "100%") = None.
Proof. reflexivity. Qed.
Example normalize_smoke_1 : PosixPath.normalize (js "/workspace/a/../b//c/./d/") = js "/workspace/b/c/d/".
Proof. reflexivity. Qed.
Example normalize_smoke_2 : PosixPath.normalize (js "a/../../b") = js "../b".
Proof. reflexivity. Qed.
Example normalize_smoke_3 : PosixPath.join_paths [js "/workspace"; js "../etc"] = js "/etc".
Proof. reflexivity. Qed.
Example normalize_smoke_4 : PosixPath.resolve (js "/home/u") [js "x/..//y/"] = js "/home/u/y".
Proof. reflexivity. Qed.
(** The examples of the Node documentation for [path.posix]. *)
Example node_join :
  PosixPath.join_paths (map js ["/foo"; "bar"; "baz/asdf"; "quux"; ".."]%string)
  = js "/foo/bar/baz/asdf".
Proof. reflexivity. Qed.
Example node_normalize :
  PosixPath.normalize (js "/foo/bar//baz/asdf/quux/..") = js "/foo/bar/baz/asdf".
Proof. reflexivity. Qed.
Example node_resolve_relative :
  PosixPath.resolve (js "/") (map js ["/foo/bar"; "./baz"]%string) = js "/foo/bar/baz".
Proof. reflexivity. Qed.
Example node_resolve_absolute :
  PosixPath.resolve (js "/") (map js ["/foo/bar"; "/tmp/file/"]%string) = js "/tmp/file".
Proof. reflexivity. Qed.
Example node_resolve_cwd :
  PosixPath.resolve (js "/home/myself/node")
    (map js ["wwwroot"; "static_files/png/"; "../gif/image.gif"]%string)
  = js "/home/myself/node/wwwroot/static_files/gif/image.gif".
Proof. reflexivity. Qed.
Example node_normalize_corners :
  map PosixPath.normalize (map js [""; "/"; "./"; "a/"; "/.."; ".."; "../../a/.."; "a/b/../.."]%string)
  = map js ["."; "/"; "./"; "a/"; "/"; ".."; "../.."; "."]%string.
Proof. reflexivity. Qed.

Example python_blocks_import_os :
  Runtimes.validateCode Runtimes.PYTHON_BLOCKLIST (js "import os")
  = Throw (mkError SecurityError (js "Dangerous pattern detected: import\s+os(?!\w)")).
Proof. reflexivity. Qed.
Example python_blocks_open_for_writing :
  is_ok (Runtimes.validateCode Runtimes.PYTHON_BLOCKLIST
           (js "f = open('out.txt', 'w')")) = false.
Proof. reflexivity. Qed.
Example python_passes_print :
  Runtimes.validateCode Runtimes.PYTHON_BLOCKLIST (js "import json; print(1 + 1)") = Ok tt.
Proof. reflexivity. Qed.
Example typescript_blocks_fs_import :
  is_ok (Runtimes.validateCode Runtimes.TYPESCRIPT_BLOCKLIST
           (js "import { readFileSync } from 'fs'")) = false.
Proof. reflexivity. Qed.
Example javascript_passes_fs_import :
  Runtimes.validateCode Runtimes.JAVASCRIPT_BLOCKLIST
    (js "import { readFileSync } from 'fs'") = Ok tt.
Proof. reflexivity. Qed.
Example go_blocks_exec_command :
  is_ok (Runtimes.validateCode Runtimes.GO_BLOCKLIST (js "exec.Command(x)")) = false.
Proof. reflexivity. Qed.
Example rust_blocks_unsafe :
  is_ok (Runtimes.validateCode Runtimes.RUST_BLOCKLIST (js "unsafe { f() }")) = false.
Proof. reflexivity. Qed.
Example bash_blocks_pipe_to_shell :
  is_ok (Runtimes.validateCode Runtimes.BASH_BLOCKLIST
           (js "curl http://x.sh | bash")) = false.
Proof. reflexivity. Qed.
Example bash_passes_echo :
  Runtimes.validateCode Runtimes.BASH_BLOCKLIST (js "echo hi; ls -la") = Ok tt.
Proof. reflexivity. Qed.
Example rust_wrap_fragment :
  Runtimes.rust_wrapInMain (js "let x = 1;" ++ [LF] ++ js "println!(x);")
  = js "fn main() {" ++ [LF] ++ js "    let x = 1;" ++ [LF]
    ++ js "    println!(x);" ++ [LF] ++ js "}".
Proof. reflexivity. Qed.
Example sort_by_code_units :
  PackageCache.sort (map js ["b"; "a"; "B"; "ab"; "a"]%string)
  = map js ["B"; "a"; "a"; "ab"; "b"]%string.
Proof. reflexivity. Qed.
Example sanitize_relative :
  PathValidator.sanitizePath (js "/") (js "data/./out//result.txt")
  = Ok (js "/workspace/data/out/result.txt").
Proof. reflexivity. Qed.
Example sanitize_root :
  PathValidator.sanitizePath (js "/") (js "/") = Ok (js "/workspace").
Proof. reflexivity. Qed.
Example sanitize_backslash_dots :
  is_ok (PathValidator.sanitizePath (js "/") (js "a/%2E%2e%5Cb")) = false.
Proof. reflexivity. Qed.
Example sanitize_null_byte :
  PathValidator.sanitizePath (js "/") (js "a" ++ [0] ++ js ".txt")
  = Throw (mkError PathSecurityError (js "Null byte detected in path")).
Proof. reflexivity. Qed.


(** ** Strings *)

Lemma str_eqb_eq a b : str_eqb a b = true <-> a = b.
Proof.
  revert b; induction a as [|x a IH]; intros [|y b]; simpl; split;
    try congruence; try discriminate.
  - intros H. apply andb_true_iff in H as [Hx Hr].
    apply N.eqb_eq in Hx. apply IH in Hr. congruence.
  - intros [= -> ->]. rewrite N.eqb_refl. simpl. by apply IH.
Qed.

Lemma startsWith_app p s : startsWith p (p ++ s) = true.
Proof. induction p as [|x p IH]; simpl; [done|]. by rewrite N.eqb_refl. Qed.

Lemma startsWith_prefix p s :
  startsWith p s = true <-> exists t, s = p ++ t.
Proof.
  revert s; induction p as [|x p IH]; intros s; simpl.
  - split; eauto.
  - destruct s as [|y s].
    + split; [discriminate | intros [t Ht]; discriminate].
    + rewrite andb_true_iff, N.eqb_eq, IH. split.
      * intros [-> [t ->]]. eauto.
      * intros [t [= -> ->]]. eauto.
Qed.

(** ** The matcher *)

(** The iteration only looks at what its continuation says about rests
    that are not longer than the subject. *)
Lemma star_loop_ext (m : jsstring -> (jsstring -> bool) -> bool) :
  (forall s k1 k2,
      (forall s', (length s' <= length s)%nat -> k1 s' = k2 s') -> m s k1 = m s k2) ->
  forall fuel s k1 k2,
    (forall s', (length s' <= length s)%nat -> k1 s' = k2 s') ->
    star_loop m fuel s k1 = star_loop m fuel s k2.
Proof.
  intros Hm fuel. induction fuel as [|fuel IH]; intros s k1 k2 Hk; simpl.
  - by rewrite (Hk s).
  - rewrite (Hk s) by done. f_equal. apply Hm. intros s' Hs'.
    destruct (length s' <? length s)%nat eqn:Hlt; [|done]. simpl.
    apply IH. intros s'' Hs''. apply Hk. lia.
Qed.

Lemma rmatch_ext n r : forall s k1 k2,
  (forall s', (length s' <= length s)%nat -> k1 s' = k2 s') ->
  rmatch n r s k1 = rmatch n r s k2.
Proof.
  induction r as [|p|a IHa b IHb|a IHa b IHb|a IHa|a IHa|]; intros s k1 k2 Hk; simpl.
  - by apply Hk.
  - destruct s as [|c s']; [done|]. rewrite (Hk s'); [done|]. simpl. lia.
  - apply IHa. intros s' Hs'. apply IHb. intros s'' Hs''. apply Hk. lia.
  - by rewrite (IHa s k1 k2 Hk), (IHb s k1 k2 Hk).
  - by apply star_loop_ext.
  - by rewrite (Hk s).
  - by rewrite (Hk s).
Qed.

(** A continuation that refuses everything makes the match fail. *)
Lemma rmatch_dead n r : forall s, rmatch n r s (fun _ => false) = false.
Proof.
  induction r as [|p|a IHa b IHb|a IHa b IHb|a IHa|a IHa|]; intros s; simpl.
  - done.
  - destruct s; [done|]. apply andb_false_r.
  - rewrite (rmatch_ext n a s _ (fun _ => false)); [apply IHa|].
    intros s' _. apply IHb.
  - by rewrite IHa, IHb.
  - generalize (length s) at 1. intros fuel. revert s.
    induction fuel as [|fuel IH]; intros s; simpl; [done|].
    rewrite (rmatch_ext n a s _ (fun _ => false)); [apply IHa|].
    intros s' _. rewrite IH. apply andb_false_r.
  - apply andb_false_r.
  - apply andb_false_r.
Qed.

(** Fuel beyond the length of the subject changes nothing. *)
Lemma star_loop_fuel n a : forall f1 f2 s k,
  (length s <= f1)%nat -> (length s <= f2)%nat ->
  star_loop (rmatch n a) f1 s k = star_loop (rmatch n a) f2 s k.
Proof.
  assert (Hempty : forall f k, star_loop (rmatch n a) f [] k = k []).
  { intros [|f] k; simpl; [apply orb_false_r|].
    rewrite rmatch_dead. apply orb_false_r. }
  induction f1 as [|f1 IH]; intros f2 s k H1 H2.
  - destruct s; [|simpl in H1; lia]. by rewrite !Hempty.
  - destruct f2 as [|f2].
    + destruct s; [|simpl in H2; lia]. by rewrite !Hempty.
    + simpl. f_equal. apply rmatch_ext. intros s' Hs'.
      destruct (length s' <? length s)%nat eqn:Hlt; [|done]. simpl.
      apply Nat.ltb_lt in Hlt. apply IH; lia.
Qed.

(** The star is what it should be: nothing, or one round that consumes
    input followed by the star again. *)
Lemma rmatch_star n a s k :
  rmatch n (Star a) s k
  = k s || rmatch n a s (fun s' => (length s' <? length s)%nat && rmatch n (Star a) s' k).
Proof.
  cbn [rmatch]. destruct s as [|c s].
  - simpl. by rewrite rmatch_dead.
  - cbn [length star_loop]. f_equal. apply rmatch_ext. intros s' Hs'.
    destruct (length s' <? S (length s))%nat eqn:Hlt; [|done]. simpl.
    apply Nat.ltb_lt in Hlt. apply star_loop_fuel; lia.
Qed.

(** What follows a match is a rest of the subject. *)
Lemma denotes_suffix n r : forall s rest,
  denotes n r s rest -> exists front, s = front ++ rest.
Proof.
  induction r as [|p|a IHa b IHb|a IHa b IHb|a IHa|a IHa|]; intros s rest; simpl.
  - intros ->. by exists [].
  - intros (c & -> & _). by exists [c].
  - intros (mid & Ha & Hb). apply IHa in Ha as [f1 ->]. apply IHb in Hb as [f2 ->].
    exists (f1 ++ f2). by rewrite <- app_assoc.
  - intros [H|H]; [by apply IHa | by apply IHb].
  - intros H. induction H as [s|s s1 s2 H1 _ IH]; [by exists []|].
    apply IHa in H1 as [f1 ->]. destruct IH as [f2 ->].
    exists (f1 ++ f2). by rewrite <- app_assoc.
  - intros [-> _]. by exists [].
  - intros [-> _]. by exists [].
Qed.

Lemma denotes_shorter n r s rest :
  denotes n r s rest -> (length rest <= length s)%nat.
Proof.
  intros H. apply denotes_suffix in H as [front ->]. rewrite length_app. lia.
Qed.

Lemma denotes_same_length n r s rest :
  denotes n r s rest -> length rest = length s -> rest = s.
Proof.
  intros H Hlen. apply denotes_suffix in H as [front ->].
  rewrite length_app in Hlen. destruct front; [done|simpl in Hlen; lia].
Qed.

(** The iteration decides the closure of what its matcher decides. *)
Lemma star_loop_denotes n a k :
  (forall s k', rmatch n a s k' = true
                <-> exists rest, denotes n a s rest /\ k' rest = true) ->
  forall fuel s, (length s <= fuel)%nat ->
    star_loop (rmatch n a) fuel s k = true
    <-> exists rest, iter (denotes n a) s rest /\ k rest = true.
Proof.
  intros Ha fuel s Hfuel. split.
  - revert s Hfuel. induction fuel as [|fuel IH]; intros s Hfuel; simpl.
    + rewrite orb_false_r. intros Hk. exists s. split; [constructor|done].
    + intros H. apply orb_true_iff in H as [Hk|H].
      * exists s. split; [constructor|done].
      * apply Ha in H as (s1 & H1 & H). apply andb_true_iff in H as [Hlt H].
        apply Nat.ltb_lt in Hlt. apply IH in H as (rest & Hiter & Hk); [|lia].
        exists rest. split; [|done]. by apply iter_step with s1.
  - intros (rest & Hiter & Hk). revert fuel Hfuel.
    induction Hiter as [s|s s1 s2 H1 Hiter IH]; intros fuel Hfuel.
    + destruct fuel; simpl; by rewrite Hk.
    + pose proof (denotes_shorter _ _ _ _ H1) as Hle.
      destruct (decide (length s1 = length s)) as [Heq|Hne].
      * rewrite <- (denotes_same_length _ _ _ _ H1 Heq). apply IH; [done|lia].
      * destruct fuel as [|fuel]; [lia|]. simpl. apply orb_true_iff. right.
        apply Ha. exists s1. split; [done|]. apply andb_true_iff. split.
        -- apply Nat.ltb_lt. lia.
        -- apply IH; [done|lia].
Qed.

(** The matcher decides [denotes]: it accepts exactly when some match
    leaves a rest that the continuation accepts. *)
Theorem rmatch_denotes n r : forall s k,
  rmatch n r s k = true <-> exists rest, denotes n r s rest /\ k rest = true.
Proof.
  induction r as [|p|a IHa b IHb|a IHa b IHb|a IHa|a IHa|]; intros s k; simpl.
  - split; [eauto|]. by intros (rest & -> & H).
  - destruct s as [|c s].
    + split; [done|]. by intros (rest & (c & ? & _) & _).
    + rewrite andb_true_iff. split.
      * intros [Hp Hk]. eauto.
      * intros (rest & (c' & [= -> ->] & Hp) & Hk). done.
  - rewrite IHa. split.
    + intros (mid & Hmid & H). apply IHb in H as (rest & Hrest & Hk). eauto.
    + intros (rest & (mid & Hmid & Hrest) & Hk). exists mid. split; [done|].
      apply IHb. eauto.
  - rewrite orb_true_iff, IHa, IHb. split.
    + intros [(rest & H & Hk)|(rest & H & Hk)]; eauto.
    + intros (rest & [H|H] & Hk); eauto.
  - by apply star_loop_denotes.
  - rewrite andb_true_iff, negb_true_iff. split.
    + intros [Hno Hk]. exists s. split; [|done]. split; [done|].
      intros rest' Hd. assert (rmatch n a s (fun _ => true) = true) as Habs
        by (apply IHa; eauto). congruence.
    + intros (rest & (-> & Hno) & Hk). split; [|done].
      destruct (rmatch n a s (fun _ => true)) eqn:E; [|done].
      apply IHa in E as (rest' & Hd & _). by destruct (Hno rest').
  - rewrite andb_true_iff, Nat.eqb_eq. split.
    + intros [Hn Hk]. eauto.
    + by intros (rest & (-> & Hn) & Hk).
Qed.

(** [test] finds a match at some position of the subject. *)
Theorem test_denotes r s :
  test r s = true
  <-> exists front mid rest, s = front ++ mid /\ denotes (length s) r mid rest.
Proof.
  unfold test. generalize (length s) as n. intros n.
  induction s as [|c s IH]; simpl.
  - rewrite orb_false_r, rmatch_denotes. split.
    + intros (rest & H & _). by exists [], [], rest.
    + intros (front & mid & rest & Heq & H).
      symmetry in Heq. apply app_eq_nil in Heq as [-> ->]. eauto.
  - rewrite orb_true_iff, rmatch_denotes, IH. split.
    + intros [(rest & H & _)|(front & mid & rest & -> & H)].
      * by exists [], (c :: s), rest.
      * by exists (c :: front), mid, rest.
    + intros (front & mid & rest & Heq & H). destruct front as [|c' front].
      * left. simpl in Heq. subst mid. eauto.
      * right. injection Heq as -> ->. eauto.
Qed.

(** ** URI decoding *)

Lemma read_octet_shorter s b rest :
  Uri.read_octet s = Some (b, rest) -> length s = (3 + length rest)%nat.
Proof.
  unfold Uri.read_octet. destruct s as [|p [|h1 [|h2 s]]]; try discriminate.
  destruct (p =? PERCENT); [|discriminate].
  destruct (Uri.hex_val h1); [|discriminate].
  destruct (Uri.hex_val h2); [|discriminate].
  by intros [= _ <-].
Qed.

Lemma read_octets_shorter n s bs rest :
  Uri.read_octets n s = Some (bs, rest) -> (length rest <= length s)%nat.
Proof.
  revert s bs rest; induction n as [|n IH]; intros s bs rest; simpl.
  - intros [= _ <-]. lia.
  - destruct (Uri.read_octet s) as [[b s1]|] eqn:H1; [|discriminate].
    destruct (Uri.read_octets n s1) as [[bs' s2]|] eqn:H2; [|discriminate].
    intros [= _ <-]. apply read_octet_shorter in H1. apply IH in H2. lia.
Qed.

(** Fuel beyond the length of the text changes nothing: the decoder never
    runs out of it. *)
Lemma decode_loop_fuel f1 : forall f2 s,
  (length s <= f1)%nat -> (length s <= f2)%nat ->
  Uri.decode_loop f1 s = Uri.decode_loop f2 s.
Proof.
  induction f1 as [|f1 IH]; intros f2 s H1 H2.
  - destruct s; [|simpl in H1; lia]. by destruct f2.
  - destruct s as [|c rest]; [by destruct f2|].
    destruct f2 as [|f2]; [simpl in H2; lia|].
    cbn [length] in H1, H2.
    cbn [Uri.decode_loop]. destruct (c =? PERCENT).
    + destruct (Uri.read_octet (c :: rest)) as [[b rest1]|] eqn:Hr; [|done].
      apply read_octet_shorter in Hr. cbn [length] in Hr.
      destruct (Uri.leading_ones b) as [|[|m]]; [|done|].
      * rewrite (IH f2 rest1) by lia. done.
      * destruct (2 <? m)%nat; [done|].
        destruct (Uri.read_octets (S m) rest1) as [[bs rest2]|] eqn:Hc; [|done].
        apply read_octets_shorter in Hc.
        destruct (Uri.utf8_code_point b bs); [|done].
        rewrite (IH f2 rest2) by lia. done.
    + rewrite (IH f2 rest) by lia. done.
Qed.

(** One step of [decodeURIComponent] on a code unit that is not [%]. *)
Lemma decodeURIComponent_plain c rest :
  c <> PERCENT ->
  Uri.decodeURIComponent (c :: rest) = cons c <$> Uri.decodeURIComponent rest.
Proof.
  intros Hc. unfold Uri.decodeURIComponent. cbn [length Uri.decode_loop].
  apply N.eqb_neq in Hc. by rewrite Hc.
Qed.

(** Text without [%] decodes to itself. *)
Lemma decodeURIComponent_no_escape s :
  ~ In PERCENT s -> Uri.decodeURIComponent s = Some s.
Proof.
  induction s as [|c s IH]; [done|]. intros Hn.
  rewrite decodeURIComponent_plain by (intros ->; apply Hn; by left).
  rewrite IH; [done|]. intros Hin. apply Hn. by right.
Qed.

(** ** The path validator *)

Section PathValidatorFacts.
Import PathValidator.

Lemma decodeURIComponent_slash rest d :
  Uri.decodeURIComponent (SLASH :: rest) = Some d ->
  exists d', d = SLASH :: d'.
Proof.
  unfold Uri.decodeURIComponent. simpl.
  destruct (Uri.decode_loop (length rest) rest) as [d'|]; simpl; [|discriminate].
  intros [= <-]. eauto.
Qed.

Lemma decode_rounds_slash n rest d :
  decode_rounds n (SLASH :: rest) = Some d -> exists d', d = SLASH :: d'.
Proof.
  revert rest; induction n as [|n IH]; intros rest; simpl.
  - intros [= <-]. eauto.
  - destruct (Uri.decodeURIComponent (SLASH :: rest)) as [nd|] eqn:Hd; [|discriminate].
    destruct (decodeURIComponent_slash _ _ Hd) as [nd' ->].
    destruct (str_eqb _ _).
    + intros [= <-]. eauto.
    + apply IH.
Qed.

(** Decoding never removes a leading slash. *)
Lemma decode_input_slash userPath :
  startsWith [SLASH] userPath = true ->
  startsWith [SLASH] (decode_input userPath) = true.
Proof.
  intros H. destruct userPath as [|c rest]; [discriminate|].
  cbn [startsWith] in H. apply andb_true_iff in H as [H _].
  apply N.eqb_eq in H. subst c.
  unfold decode_input.
  destruct (decode_rounds 3 (SLASH :: rest)) as [d|] eqn:Hd.
  - destruct (decode_rounds_slash _ _ _ Hd) as [d' ->]. reflexivity.
  - reflexivity.
Qed.

(** What a successful [sanitizePath] returns. *)
Lemma sanitizePath_ok cwd userPath r :
  sanitizePath cwd userPath = Ok r ->
  r = PosixPath.resolve cwd [normalize_input (decode_input userPath)]
  /\ (r = WORKSPACE_ROOT \/ startsWith (WORKSPACE_ROOT ++ [SLASH]) r = true).
Proof.
  unfold sanitizePath.
  destruct (includes [0] userPath); [done|].
  destruct (existsb _ traversalPatterns); [done|].
  set (resolved := PosixPath.resolve cwd _).
  destruct (negb (str_eqb resolved WORKSPACE_ROOT)
            && negb (startsWith (WORKSPACE_ROOT ++ [SLASH]) resolved)) eqn:Hout;
    [done|].
  destruct (find _ BLOCKED_PATHS); [done|].
  destruct (existsb bad_component _); [done|].
  intros [= <-]. split; [done|].
  apply andb_false_iff in Hout as [H|H]; apply negb_false_iff in H.
  - left. by apply str_eqb_eq.
  - by right.
Qed.

End PathValidatorFacts.

(** C1, as the code has it: of the four inputs, [".."], ["%2e%2e/x"] and
    ["%252e%252e/x"] make [sanitizePath] raise a [PathSecurityError] (the
    traversal patterns fire on the decoded text), while ["/etc/passwd"]
    is not rejected: its leading slash is stripped and the call returns
    ["/workspace/etc/passwd"]. *)
Theorem sanitizePath_four_inputs (cwd : jsstring) :
  PathValidator.raises_security (PathValidator.sanitizePath cwd (js ".."))
  /\ PathValidator.raises_security (PathValidator.sanitizePath cwd (js "%2e%2e/x"))
  /\ PathValidator.raises_security (PathValidator.sanitizePath cwd (js "%252e%252e/x"))
  /\ PathValidator.sanitizePath cwd (js "/etc/passwd") = Ok (js "/workspace/etc/passwd").
Proof.
  repeat split; try (eexists; reflexivity).
Qed.

(** C1, counterexample to the claim as stated: on ["/etc/passwd"] the
    sanitizer returns a path and raises nothing. *)
Lemma sanitizePath_etc_passwd_not_rejected :
  PathValidator.sanitizePath (js "/") (js "/etc/passwd") = Ok (js "/workspace/etc/passwd")
  /\ ~ PathValidator.raises_security (PathValidator.sanitizePath (js "/") (js "/etc/passwd")).
Proof.
  split; [reflexivity|]. intros [msg H]. discriminate H.
Qed.

(** C10: for an input that begins with [/], the decoded text still begins
    with [/], so the sanitizer strips the leading slashes and resolves the
    remainder under [/workspace]; a returned value is [/workspace] or begins
    with [/workspace/]; and the absolute path [/etc/passwd] is re-rooted to
    [/workspace/etc/passwd], neither rejected nor returned as it is. *)
Theorem sanitizePath_reroots_absolute (cwd userPath r : jsstring) :
  startsWith [SLASH] userPath = true ->
  PathValidator.sanitizePath cwd userPath = Ok r ->
  startsWith [SLASH] (PathValidator.decode_input userPath) = true
  /\ r = PosixPath.resolve cwd
           [PosixPath.normalize
              (PosixPath.join_paths
                 [PathValidator.WORKSPACE_ROOT;
                  strip_leading SLASH (PathValidator.decode_input userPath)])]
  /\ (r = PathValidator.WORKSPACE_ROOT
      \/ startsWith (PathValidator.WORKSPACE_ROOT ++ [SLASH]) r = true)
  /\ PathValidator.sanitizePath cwd (js "/etc/passwd") = Ok (js "/workspace/etc/passwd").
Proof.
  intros Hslash Hok.
  pose proof (decode_input_slash _ Hslash) as Hdec.
  destruct (sanitizePath_ok _ _ _ Hok) as [Hr Hunder].
  unfold PathValidator.normalize_input in Hr. rewrite Hdec in Hr.
  repeat split; try assumption. 
Qed.

Lemma sanitizePath_reroots_absolute_witness :
  startsWith [SLASH] (PathValidator.decode_input (js "//etc/%70asswd")) = true
  /\ js "/workspace/etc/passwd"
     = PosixPath.resolve (js "/srv/app")
           [PosixPath.normalize
              (PosixPath.join_paths
                 [PathValidator.WORKSPACE_ROOT;
                  strip_leading SLASH (PathValidator.decode_input (js "//etc/%70asswd"))])]
  /\ (js "/workspace/etc/passwd" = PathValidator.WORKSPACE_ROOT
      \/ startsWith (PathValidator.WORKSPACE_ROOT ++ [SLASH]) (js "/workspace/etc/passwd") = true)
  /\ PathValidator.sanitizePath (js "/srv/app") (js "/etc/passwd") = Ok (js "/workspace/etc/passwd").
Proof.
  apply (sanitizePath_reroots_absolute (js "/srv/app") (js "//etc/%70asswd")
           (js "/workspace/etc/passwd")); reflexivity.
Defined.

(** ** The runtimes *)

Section RuntimeFacts.
Import Runtimes.

Lemma existsb_find {A} (f : A -> bool) (xs : list A) :
  existsb f xs = true -> exists x, find f xs = Some x /\ f x = true.
Proof.
  induction xs as [|x xs IH]; simpl; [discriminate|].
  destruct (f x) eqn:Hx; simpl; eauto.
Qed.

Lemma validateCode_blocked blocklist code p :
  find (fun pattern => ptest pattern code) blocklist = Some p ->
  validateCode blocklist code
  = Throw (mkError SecurityError (js "Dangerous pattern detected: " ++ source p)).
Proof. unfold validateCode. by intros ->. Qed.

Lemma validateCode_pass blocklist code :
  existsb (fun pattern => ptest pattern code) blocklist = false ->
  validateCode blocklist code = Ok tt.
Proof.
  unfold validateCode. intros H.
  destruct (find _ blocklist) as [p|] eqn:Hf; [|done].
  apply find_some in Hf as [Hin Hp].
  assert (existsb (fun pattern => ptest pattern code) blocklist = true)
    by (apply existsb_exists; eauto).
  congruence.
Qed.

Lemma execute_blocked_by env a code ctx w p :
  find (fun pattern => ptest pattern code) (BLOCKLIST a) = Some p ->
  execute env a code ctx w
  = (Throw (mkError PlainError
              (js (display_name a) ++ js " execution failed: "
               ++ js "Dangerous pattern detected: " ++ source p)),
     mkWorld (calls w) (S (reads w))).
Proof.
  intros Hf. apply validateCode_blocked in Hf.
  destruct a; cbn [BLOCKLIST] in Hf;
    cbv [execute python_execute javascript_execute bash_execute execute_inline
         typescript_execute go_execute rust_execute
         Eff.try_catch Eff.bind Eff.now Eff.lift];
    rewrite Hf; reflexivity.
Qed.

End RuntimeFacts.

(** C2, as the code has it: when the source matches a pattern of the
    adapter's blocklist, [execute] raises an error and issues no call on
    the container; the error is a plain [Error] whose message wraps the
    validator's, because the [catch] around the whole body re-throws the
    validator's [SecurityError] as
    [<Language> execution failed: Dangerous pattern detected: <source>]. *)
Theorem execute_blocked_raises_wrapped_error
    (env : Env) (a : Runtimes.Adapter) (code : jsstring)
    (ctx : Runtimes.ExecutionContext) (w : World) :
  existsb (fun pattern => ptest pattern code) (Runtimes.BLOCKLIST a) = true ->
  exists p e w',
    find (fun pattern => ptest pattern code) (Runtimes.BLOCKLIST a) = Some p
    /\ Runtimes.execute env a code ctx w = (Throw e, w')
    /\ e = mkError PlainError
             (js (Runtimes.display_name a) ++ js " execution failed: "
              ++ js "Dangerous pattern detected: " ++ source p)
    /\ calls w' = calls w.
Proof.
  intros H. apply existsb_find in H as [p [Hf _]].
  eexists p, _, (mkWorld (calls w) (S (reads w))).
  split; [done|]. split; [by apply execute_blocked_by|]. done.
Qed.

Lemma execute_blocked_raises_wrapped_error_witness :
  exists p e w',
    find (fun pattern => ptest pattern (js "import os; os.getcwd()"))
      (Runtimes.BLOCKLIST Runtimes.Python) = Some p
    /\ Runtimes.execute quiet_env Runtimes.Python (js "import os; os.getcwd()")
         plain_context fresh_world = (Throw e, w')
    /\ e = mkError PlainError
             (js (Runtimes.display_name Runtimes.Python) ++ js " execution failed: "
              ++ js "Dangerous pattern detected: " ++ source p)
    /\ calls w' = calls fresh_world.
Proof.
  apply (execute_blocked_raises_wrapped_error quiet_env Runtimes.Python
           (js "import os; os.getcwd()") plain_context fresh_world).
  reflexivity.
Defined.

(** C2, counterexample to the claim as stated: the Python adapter on
    [import os] raises an error whose class is not [SecurityError]. *)
Lemma execute_blocked_is_not_a_SecurityError :
  exists e w',
    existsb (fun pattern => ptest pattern (js "import os"))
      (Runtimes.BLOCKLIST Runtimes.Python) = true
    /\ Runtimes.execute quiet_env Runtimes.Python (js "import os")
         plain_context fresh_world = (Throw e, w')
    /\ e = mkError PlainError
             (js "Python execution failed: Dangerous pattern detected: import\s+os(?!\w)")
    /\ err_class e <> SecurityError.
Proof.
  eexists _, _. split; [reflexivity|]. split; [reflexivity|].
  split; [reflexivity|]. discriminate.
Qed.

(** ** Lines of a text: [split] and [join] *)

Lemma split_not_nil c s : split c s <> [].
Proof.
  destruct s as [|x s]; simpl; [done|].
  destruct (x =? c); [done|]. by destruct (split c s).
Qed.

Lemma split_no_sep c s : Forall (fun part => ~ In c part) (split c s).
Proof.
  induction s as [|x s IH]; simpl.
  - constructor; [|constructor]. intros [].
  - destruct (x =? c) eqn:Hx.
    + constructor; [intros []|done].
    + apply N.eqb_neq in Hx.
      destruct (split c s) as [|w ws]; [constructor; [|constructor]|].
      * intros [->|[]]. done.
      * inversion IH; subst. constructor; [|done].
        intros [->|Hin]; [done|]. auto.
Qed.

Lemma split_single c part : ~ In c part -> split c part = [part].
Proof.
  induction part as [|x part IH]; simpl; [done|].
  intros Hn. destruct (x =? c) eqn:Hx.
  - apply N.eqb_eq in Hx. destruct Hn. by left.
  - rewrite IH; [done|]. intros Hin. apply Hn. by right.
Qed.

Lemma split_app_sep c part s :
  ~ In c part -> split c (part ++ c :: s) = part :: split c s.
Proof.
  induction part as [|x part IH]; simpl; intros Hn.
  - by rewrite N.eqb_refl.
  - destruct (x =? c) eqn:Hx.
    + apply N.eqb_eq in Hx. destruct Hn. by left.
    + rewrite IH; [done|]. intros Hin. apply Hn. by right.
Qed.

(** Splitting a joined list of lines gives the lines back. *)
Lemma split_join c parts :
  parts <> [] -> Forall (fun part => ~ In c part) parts ->
  split c (join [c] parts) = parts.
Proof.
  induction parts as [|part parts IH]; [done|].
  intros _ Hall. inversion Hall as [|? ? Hpart Hrest]; subst.
  destruct parts as [|part' parts].
  - simpl. by apply split_single.
  - change (join [c] (part :: part' :: parts))
      with (part ++ c :: join [c] (part' :: parts)).
    rewrite split_app_sep by done. rewrite IH; done.
Qed.

(** Joining the lines of a text gives the text back. *)
Lemma join_split c s : join [c] (split c s) = s.
Proof.
  induction s as [|x s IH]; simpl; [done|].
  destruct (x =? c) eqn:Hx.
  - apply N.eqb_eq in Hx. subst x.
    pose proof (split_not_nil c s) as Hne.
    destruct (split c s) as [|w ws]; [done|]. simpl in *. by rewrite IH.
  - destruct (split c s) as [|w ws] eqn:Hs; [by destruct (split_not_nil c s)|].
    destruct ws; simpl in *; by rewrite <- IH.
Qed.

(** The lines of an indented text are the lines of the text, each behind
    the indentation. *)
Lemma indent_lines_lines indent code :
  ~ In LF indent ->
  split LF (Runtimes.indent_lines indent code)
  = map (fun line => indent ++ line) (split LF code).
Proof.
  intros Hind. unfold Runtimes.indent_lines. apply split_join.
  - pose proof (split_not_nil LF code). by destruct (split LF code).
  - apply Forall_map. eapply Forall_impl; [apply split_no_sep|].
    intros part Hpart Hin. apply in_app_or in Hin as [Hin|Hin]; auto.
Qed.

(** C9: for a Go source without a package declaration and without
    [func main()], [wrapInMain] yields [package main], a blank line, the
    injected import of [fmt], a blank line and [func main() { ... }] whose
    body has the lines of the source, each behind two spaces; a source with
    [func main()] is kept as it is or put behind [package main] alone, so no
    new main function is put around it.  When the source passes the gate,
    [execute] writes [wrapInMain code] to its temporary file and, the write
    having succeeded, runs [go run] on that file. *)
Theorem go_execute_wraps_fragment
    (env : Env) (code : jsstring) (ctx : Runtimes.ExecutionContext) (w : World) :
  let tempFile :=
    js "/workspace/.exec-" ++ decimal (env_now env (S (reads w))) ++ js "-"
    ++ env_random env (S (S (reads w))) ++ js ".go" in
  let written := Runtimes.go_wrapInMain code in
  let run := [js "go"; js "run"; tempFile] in
  (test Runtimes.GO_PACKAGE_DECL code = false ->
   test Runtimes.GO_FUNC_MAIN code = false ->
   exists body,
     written = js "package main" ++ [LF; LF]
               ++ js "import " ++ [DQUOTE] ++ js "fmt" ++ [DQUOTE] ++ [LF; LF]
               ++ js "func main() {" ++ [LF] ++ body ++ [LF] ++ js "}"
     /\ split LF body = map (fun line => js "  " ++ line) (split LF code))
  /\ (test Runtimes.GO_FUNC_MAIN code = true ->
      written = code \/ written = js "package main" ++ [LF; LF] ++ code)
  /\ (Runtimes.validateCode Runtimes.GO_BLOCKLIST code = Ok tt ->
      exists res w',
        Runtimes.go_execute env code ctx w = (res, w')
        /\ calls w' =
           calls w ++ CallPutFile tempFile written ::
             match env_putFile env (calls w) tempFile written with
             | Throw _ => []
             | Ok _ =>
                 CallExec run (Runtimes.run_options ctx) ::
                   match env_exec env (calls w ++ [CallPutFile tempFile written])
                           run (Runtimes.run_options ctx) with
                   | Throw _ => []
                   | Ok _ => [CallDeleteFile tempFile]
                   end
             end).
Proof.
  intros tempFile written run. split; [|split].
  - intros Hpkg Hmain. subst written. unfold Runtimes.go_wrapInMain.
    rewrite Hpkg, Hmain. cbn [negb].
    exists (Runtimes.indent_lines (js "  ") code). split; [reflexivity|].
    apply indent_lines_lines. cbv. intros [H|[H|[]]]; discriminate H.
  - intros Hmain. subst written. unfold Runtimes.go_wrapInMain.
    rewrite Hmain. cbn [negb]. destruct (test Runtimes.GO_PACKAGE_DECL code); auto.
  - intros Hgate. destruct w as [cs rd].
    cbv [Runtimes.go_execute Runtimes.getTempFilePath Runtimes.rethrow
         Eff.try_catch Eff.bind Eff.now Eff.random Eff.lift Eff.putFile Eff.exec
         Eff.deleteFile Eff.issue Eff.ret Eff.ignore_errors Eff.throw].
    rewrite Hgate. cbn [calls reads] in *.
    fold tempFile. fold written. fold run.
    destruct (env_putFile env cs tempFile written) as [[]|e1]; [|eauto].
    destruct (env_exec env (cs ++ [CallPutFile tempFile written]) run _) as [r|e2].
    + destruct (env_deleteFile env _ tempFile) as [[]|e3];
        eexists _, _; (split; [reflexivity|]); cbn [calls];
        by rewrite <- !app_assoc.
    + eexists _, _. split; [reflexivity|]. cbn [calls]. by rewrite <- !app_assoc.
Qed.

Lemma go_execute_wraps_fragment_witness :
  (exists body,
      Runtimes.go_wrapInMain go_hi
      = js "package main" ++ [LF; LF]
        ++ js "import " ++ [DQUOTE] ++ js "fmt" ++ [DQUOTE] ++ [LF; LF]
        ++ js "func main() {" ++ [LF] ++ body ++ [LF] ++ js "}"
      /\ split LF body = map (fun line => js "  " ++ line) (split LF go_hi))
  /\ exists res w',
       Runtimes.go_execute quiet_env go_hi plain_context fresh_world = (res, w')
       /\ calls w'
          = [CallPutFile (js "/workspace/.exec-1700000000001-k3x9q.go")
               (Runtimes.go_wrapInMain go_hi);
             CallExec [js "go"; js "run"; js "/workspace/.exec-1700000000001-k3x9q.go"]
               (Runtimes.run_options plain_context);
             CallDeleteFile (js "/workspace/.exec-1700000000001-k3x9q.go")].
Proof.
  destruct (go_execute_wraps_fragment quiet_env go_hi plain_context fresh_world)
    as (Hwrap & _ & Hrun).
  split.
  - apply Hwrap; reflexivity.
  - apply Hrun. reflexivity.
Defined.

Example go_wrap_hi :
  Runtimes.go_wrapInMain go_hi
  = js "package main" ++ [LF; LF] ++ js "import " ++ [DQUOTE] ++ js "fmt" ++ [DQUOTE]
    ++ [LF; LF] ++ js "func main() {" ++ [LF]
    ++ js "  fmt.Println(" ++ [DQUOTE] ++ js "hi" ++ [DQUOTE] ++ js ")" ++ [LF] ++ js "}".
Proof. reflexivity. Qed.

Example go_wrap_keeps_main :
  Runtimes.go_wrapInMain (js "func main() { println(1) }")
  = js "package main" ++ [LF; LF] ++ js "func main() { println(1) }".
Proof. reflexivity. Qed.

(** ** Output of [Container.exec] *)

Section ContainerExecFacts.
Import ContainerExec.

(** The writers only ever append: what [demux] resolves with is the
    accumulated text followed by the text of the frames. *)
Lemma demux_appends events out err out' err' :
  demux events out err = Some (Ok (out', err')) ->
  exists more_out more_err, out' = out ++ more_out /\ err' = err ++ more_err.
Proof.
  revert out err; induction events as [|ev events IH]; intros out err; simpl;
    [discriminate|].
  destruct ev; try discriminate.
  - intros H. apply IH in H as (mo & me & -> & ->).
    exists (chunk ++ mo), me. by rewrite <- app_assoc.
  - intros H. apply IH in H as (mo & me & -> & ->).
    exists mo, (chunk ++ me). by rewrite <- app_assoc.
  - intros [= <- <-]. exists [], []. by rewrite !app_nil_r.
Qed.

Lemma exec_prints out elapsed :
  exec (prints out) elapsed = Some (Ok (mkExecResult out [] 0 elapsed)).
Proof. reflexivity. Qed.

Lemma includes_repeat sub c n :
  match sub with x :: _ => x <> c | [] => False end ->
  includes sub (repeat c n) = false.
Proof.
  destruct sub as [|x sub]; [done|]. intros Hx.
  apply N.eqb_neq in Hx.
  induction n as [|n IH]; simpl; [done|]. by rewrite Hx, IH.
Qed.

End ContainerExecFacts.

(** C3, the code at an output above the cap: a process that prints
    [n] characters in one stdout frame gets all [n] back from
    [Container.exec], without the truncation marker, also when [n] exceeds
    [MAX_STDOUT_SIZE] plus the length of the marker.  The limits are
    declared in [Container.ts] and never applied. *)
Theorem exec_stdout_is_not_capped (elapsed : Z) :
  let n := Z.to_nat (ContainerExec.MAX_STDOUT_SIZE
                     + Z.of_nat (length ContainerExec.TRUNCATION_MESSAGE) + 1) in
  let out := repeat 97 n in
  exists r,
    ContainerExec.exec (ContainerExec.prints out) elapsed = Some (Ok r)
    /\ stdout r = out
    /\ (Z.of_nat (length (stdout r))
        > ContainerExec.MAX_STDOUT_SIZE
          + Z.of_nat (length ContainerExec.TRUNCATION_MESSAGE))%Z
    /\ includes ContainerExec.TRUNCATION_MESSAGE (stdout r) = false.
Proof.
  intros n out. eexists. split; [apply exec_prints|].
  cbn [stdout]. split; [done|]. split.
  - subst out. rewrite repeat_length. subst n.
    rewrite Z2Nat.id; [lia|]. unfold ContainerExec.MAX_STDOUT_SIZE. lia.
  - apply includes_repeat. discriminate.
Qed.

(** ** The audit logger *)

(** C7, as the code has it: an event logged without an explicit severity
    is [CRITICAL] for [SECURITY_VIOLATION], [WARN] for [EXECUTE_BLOCKED] and
    [PACKAGE_INSTALL_BLOCKED], [ERROR] for [EXECUTE_ERROR] and
    [EXECUTE_TIMEOUT]; any other type is [ERROR] when the event was logged
    with [success: false] and [INFO] otherwise. *)
Theorem log_infers_severity
    (now id : jsstring) (ty : AuditLogger.AuditEventType)
    (details : list (jsstring * jsstring)) (options : AuditLogger.LogOptions)
    (lg : AuditLogger.Logger) :
  AuditLogger.o_severity options = None ->
  let sev := AuditLogger.severity (fst (AuditLogger.log now id ty details options lg)) in
  (ty = AuditLogger.SECURITY_VIOLATION -> sev = AuditLogger.CRITICAL)
  /\ (ty = AuditLogger.EXECUTE_BLOCKED \/ ty = AuditLogger.PACKAGE_INSTALL_BLOCKED ->
      sev = AuditLogger.WARN)
  /\ (ty = AuditLogger.EXECUTE_ERROR \/ ty = AuditLogger.EXECUTE_TIMEOUT ->
      sev = AuditLogger.ERROR)
  /\ (ty <> AuditLogger.SECURITY_VIOLATION -> ty <> AuditLogger.EXECUTE_BLOCKED ->
      ty <> AuditLogger.PACKAGE_INSTALL_BLOCKED -> ty <> AuditLogger.EXECUTE_ERROR ->
      ty <> AuditLogger.EXECUTE_TIMEOUT ->
      sev = if bool_decide (AuditLogger.o_success options = Some false)
            then AuditLogger.ERROR else AuditLogger.INFO).
Proof.
  intros Hsev sev. subst sev. unfold AuditLogger.log. cbn [fst AuditLogger.severity].
  rewrite Hsev. repeat split.
  - by intros ->.
  - by intros [-> | ->].
  - by intros [-> | ->].
  - intros. destruct (AuditLogger.o_success options) as [[]|]; by destruct ty.
Qed.

Lemma log_infers_severity_witness :
  AuditLogger.o_severity AuditLogger.failed_options = None
  /\ AuditLogger.severity
       (fst (AuditLogger.log (js "2025-12-07T10:00:00.000Z") (js "evt_1_abc")
               AuditLogger.EXECUTE_END [] AuditLogger.failed_options
               AuditLogger.new_logger))
     = AuditLogger.ERROR.
Proof.
  split; [reflexivity|].
  destruct (log_infers_severity (js "2025-12-07T10:00:00.000Z") (js "evt_1_abc")
              AuditLogger.EXECUTE_END [] AuditLogger.failed_options
              AuditLogger.new_logger eq_refl)
    as (_ & _ & _ & H).
  apply H; discriminate.
Defined.

(** C7, counterexample to the claim as stated: [EXECUTE_END] logged with
    [success: false] and no explicit severity (what [logExecuteEnd] does for
    a non-zero exit code) gets severity [ERROR], not [INFO]. *)
Lemma log_other_type_not_always_info :
  AuditLogger.o_severity AuditLogger.failed_options = None
  /\ AuditLogger.severity
       (fst (AuditLogger.log (js "t") (js "evt") AuditLogger.EXECUTE_END []
               AuditLogger.failed_options AuditLogger.new_logger))
     = AuditLogger.ERROR
  /\ AuditLogger.severity
       (fst (AuditLogger.log (js "t") (js "evt") AuditLogger.EXECUTE_END []
               AuditLogger.failed_options AuditLogger.new_logger))
     <> AuditLogger.INFO.
Proof. repeat split. discriminate. Qed.

(** ** Maps *)

Lemma str_eqb_refl a : str_eqb a a = true.
Proof. by apply str_eqb_eq. Qed.

Lemma str_eqb_neq a b : str_eqb a b = false <-> a <> b.
Proof.
  split.
  - intros H Heq. apply str_eqb_eq in Heq. congruence.
  - intros H. destruct (str_eqb a b) eqn:E; [|done]. apply str_eqb_eq in E. done.
Qed.

Lemma str_eqb_sym a b : str_eqb a b = str_eqb b a.
Proof.
  destruct (str_eqb a b) eqn:E.
  - apply str_eqb_eq in E. subst. by rewrite str_eqb_refl.
  - symmetry. apply str_eqb_neq. apply str_eqb_neq in E. congruence.
Qed.

Lemma jsmap_get_mutate {V} k k' (f : V -> V) m :
  JsMap.get k (JsMap.mutate k' f m)
  = if str_eqb k' k then f <$> JsMap.get k m else JsMap.get k m.
Proof.
  induction m as [|[k0 v] m IH]; simpl.
  - by destruct (str_eqb k' k).
  - destruct (str_eqb k0 k') eqn:E0; simpl.
    + apply str_eqb_eq in E0. subst k0.
      destruct (str_eqb k' k); done.
    + destruct (str_eqb k0 k) eqn:E1; simpl; [|done].
      apply str_eqb_eq in E1. subst k0. by rewrite str_eqb_sym, E0.
Qed.

Lemma jsmap_get_mutate_eq {V} k (f : V -> V) m :
  JsMap.get k (JsMap.mutate k f m) = f <$> JsMap.get k m.
Proof. by rewrite jsmap_get_mutate, str_eqb_refl. Qed.

Lemma jsmap_has_mutate {V} k k' (f : V -> V) m :
  JsMap.has k (JsMap.mutate k' f m) = JsMap.has k m.
Proof.
  unfold JsMap.has. rewrite jsmap_get_mutate.
  destruct (str_eqb k' k); [|done]. by destruct (JsMap.get k m).
Qed.

Lemma jsmap_size_mutate {V} k (f : V -> V) m :
  JsMap.size (JsMap.mutate k f m) = JsMap.size m.
Proof.
  unfold JsMap.size. induction m as [|[k0 v] m IH]; simpl; [done|].
  destruct (str_eqb k0 k); simpl; by rewrite ?IH.
Qed.

Lemma jsmap_get_set {V} k k' (v : V) m :
  JsMap.get k (JsMap.set k' v m)
  = if str_eqb k' k then Some v else JsMap.get k m.
Proof.
  induction m as [|[k0 v0] m IH]; simpl.
  - done.
  - destruct (str_eqb k0 k') eqn:E0; simpl.
    + apply str_eqb_eq in E0. subst k0. by destruct (str_eqb k' k).
    + destruct (str_eqb k0 k) eqn:E1; [|done].
      apply str_eqb_eq in E1. subst k0. by rewrite str_eqb_sym, E0.
Qed.

Lemma jsmap_get_delete_ne {V} k k' (m : JsMap.t V) :
  k' <> k -> JsMap.get k (JsMap.delete k' m) = JsMap.get k m.
Proof.
  intros Hne. induction m as [|[k0 v0] m IH]; simpl; [done|].
  destruct (str_eqb k0 k') eqn:E0; simpl.
  - apply str_eqb_eq in E0. subst k0.
    apply str_eqb_neq in Hne. by rewrite Hne.
  - by rewrite IH.
Qed.

(** ** The session manager *)

Section SessionFacts.
Import SessionManager.
Variable eng : Engine.

(** The state after [get] has found and touched the session stored under
    [key]. *)
Local Abbreviation touched key st :=
  (mkSt (JsMap.mutate key (with_lastUsedAt (e_now eng (reads st))) (sessions st))
        (sessionsByName st) (trace st) (S (reads st))).

Lemma locate_by_id sid st s :
  JsMap.get sid (sessions st) = Some s -> locate sid st = Some sid.
Proof. unfold locate, JsMap.has. by intros ->. Qed.

Lemma locate_absent sid st :
  JsMap.has sid (sessions st) = false ->
  JsMap.has sid (sessionsByName st) = false ->
  locate sid st = None.
Proof.
  unfold locate. intros -> H. unfold JsMap.has in H.
  by destruct (JsMap.get sid (sessionsByName st)).
Qed.

Lemma get_by_id sid st s :
  JsMap.get sid (sessions st) = Some s ->
  get eng sid st
  = (Ok (Some (sid, with_lastUsedAt (e_now eng (reads st)) s)), touched sid st).
Proof.
  intros Hs. unfold get, Eff.bind, Eff.get.
  rewrite (locate_by_id _ _ _ Hs).
  cbv [now set_sessions Eff.modify Eff.ret sessions sessionsByName trace reads].
  destruct st as [ss names tr rd]. cbn in Hs |- *.
  by rewrite jsmap_get_mutate_eq, Hs.
Qed.

Lemma get_absent sid st :
  locate sid st = None -> get eng sid st = (Ok None, st).
Proof. intros H. unfold get, Eff.bind, Eff.get. by rewrite H. Qed.

(** [pause] on a session found by its id. *)
Lemma pause_by_id sid st s :
  JsMap.get sid (sessions st) = Some s ->
  pause eng sid st =
  match s_state s with
  | paused => (Ok tt, touched sid st)
  | _ =>
      match e_reply eng (trace st) (EPause (s_container s)) with
      | Ok _ =>
          (Ok tt,
           mkSt (JsMap.mutate sid (with_state paused)
                   (JsMap.mutate sid (with_lastUsedAt (e_now eng (reads st)))
                      (sessions st)))
                (sessionsByName st) (trace st ++ [EPause (s_container s)])
                (S (reads st)))
      | Throw e =>
          (Throw (failed "Failed to pause container: " e),
           mkSt (JsMap.mutate sid (with_lastUsedAt (e_now eng (reads st)))
                   (sessions st))
                (sessionsByName st) (trace st ++ [EPause (s_container s)])
                (S (reads st)))
      end
  end.
Proof.
  intros Hs. unfold pause, Eff.bind at 1. rewrite (get_by_id _ _ _ Hs).
  cbn [s_state with_lastUsedAt s_container].
  destruct (s_state s); try reflexivity;
    cbv [Eff.try_catch Eff.bind container_pause call set_sessions Eff.modify
         Eff.throw];
    cbn [sessions sessionsByName trace reads];
    destruct (e_reply eng (trace st) (EPause (s_container s))) as [[]|e];
    reflexivity.
Qed.

(** [resume] on a session found by its id. *)
Lemma resume_by_id sid st s :
  JsMap.get sid (sessions st) = Some s ->
  resume eng sid st =
  match s_state s with
  | paused =>
      match e_reply eng (trace st) (EUnpause (s_container s)) with
      | Ok _ =>
          (Ok tt,
           mkSt (JsMap.mutate sid (with_lastUsedAt (e_now eng (S (reads st))))
                   (JsMap.mutate sid (with_state active)
                      (JsMap.mutate sid (with_lastUsedAt (e_now eng (reads st)))
                         (sessions st))))
                (sessionsByName st) (trace st ++ [EUnpause (s_container s)])
                (S (S (reads st))))
      | Throw e =>
          (Throw (failed "Failed to unpause container: " e),
           mkSt (JsMap.mutate sid (with_lastUsedAt (e_now eng (reads st)))
                   (sessions st))
                (sessionsByName st) (trace st ++ [EUnpause (s_container s)])
                (S (reads st)))
      end
  | _ => (Ok tt, touched sid st)
  end.
Proof.
  intros Hs. unfold resume, Eff.bind at 1. rewrite (get_by_id _ _ _ Hs).
  cbn [s_state with_lastUsedAt s_container].
  destruct (s_state s); try reflexivity.
  cbv [Eff.try_catch Eff.bind container_unpause call set_sessions Eff.modify
       Eff.throw now].
  cbn [sessions sessionsByName trace reads].
  destruct (e_reply eng (trace st) (EUnpause (s_container s))) as [[]|e];
    reflexivity.
Qed.

Lemma state_after_touch sid t ss s :
  JsMap.get sid ss = Some s ->
  JsMap.get sid (JsMap.mutate sid (with_lastUsedAt t) ss)
  = Some (with_lastUsedAt t s).
Proof. intros H. by rewrite jsmap_get_mutate_eq, H. Qed.

End SessionFacts.

(** C8: for a session stored under [sid], a pause followed by a resume
    (both completing) leaves it [active], and with an engine that accepts
    pause and unpause both do complete; a pause of a paused session and a
    resume of a session that is not paused return without any engine call
    and change the state of no session. *)
Theorem pause_resume_laws
    (eng : SessionManager.Engine) (sid : jsstring)
    (st : SessionManager.St) (s : SessionManager.Session) :
  JsMap.get sid (SessionManager.sessions st) = Some s ->
  (forall st1 st2,
      SessionManager.pause eng sid st = (Ok tt, st1) ->
      SessionManager.resume eng sid st1 = (Ok tt, st2) ->
      SessionManager.s_state <$> JsMap.get sid (SessionManager.sessions st2)
      = Some SessionManager.active)
  /\ ((forall h c, SessionManager.e_reply eng h c = Ok tt) ->
      exists st1 st2,
        SessionManager.pause eng sid st = (Ok tt, st1)
        /\ SessionManager.resume eng sid st1 = (Ok tt, st2))
  /\ (SessionManager.s_state s = SessionManager.paused ->
      exists st',
        SessionManager.pause eng sid st = (Ok tt, st')
        /\ SessionManager.trace st' = SessionManager.trace st
        /\ forall k,
             SessionManager.s_state <$> JsMap.get k (SessionManager.sessions st')
             = SessionManager.s_state <$> JsMap.get k (SessionManager.sessions st))
  /\ (SessionManager.s_state s <> SessionManager.paused ->
      exists st',
        SessionManager.resume eng sid st = (Ok tt, st')
        /\ SessionManager.trace st' = SessionManager.trace st
        /\ forall k,
             SessionManager.s_state <$> JsMap.get k (SessionManager.sessions st')
             = SessionManager.s_state <$> JsMap.get k (SessionManager.sessions st)).
Proof.
  intros Hs.
  assert (Hkeep : forall k t,
             SessionManager.s_state
               <$> JsMap.get k (JsMap.mutate sid (SessionManager.with_lastUsedAt t)
                                  (SessionManager.sessions st))
             = SessionManager.s_state <$> JsMap.get k (SessionManager.sessions st)).
  { intros k t. rewrite jsmap_get_mutate. destruct (str_eqb sid k); [|done].
    by destruct (JsMap.get k (SessionManager.sessions st)). }
  pose proof (pause_by_id eng sid st s Hs) as Hp.
  split; [|split; [|split]].
  - intros st1 st2 H1 H2. rewrite Hp in H1.
    assert (exists s1, JsMap.get sid (SessionManager.sessions st1) = Some s1
                       /\ SessionManager.s_state s1 = SessionManager.paused)
      as (s1 & Hs1 & Hst1).
    { revert H1. destruct (SessionManager.s_state s) eqn:Est.
      - destruct (SessionManager.e_reply eng _ _); [|intros Habs; discriminate Habs].
        intros [= <-]. cbn [SessionManager.sessions].
        rewrite !jsmap_get_mutate_eq, Hs. eauto.
      - intros [= <-]. cbn [SessionManager.sessions].
        rewrite jsmap_get_mutate_eq, Hs. eauto.
      - destruct (SessionManager.e_reply eng _ _); [|intros Habs; discriminate Habs].
        intros [= <-]. cbn [SessionManager.sessions].
        rewrite !jsmap_get_mutate_eq, Hs. eauto. }
    rewrite (resume_by_id eng sid st1 s1 Hs1), Hst1 in H2.
    revert H2.
    destruct (SessionManager.e_reply eng (SessionManager.trace st1) _);
      [|intros Habs; discriminate Habs].
    intros [= <-]. cbn [SessionManager.sessions].
    by rewrite !jsmap_get_mutate_eq, Hs1.
  - intros Hok.
    assert (exists st1 s1,
               SessionManager.pause eng sid st = (Ok tt, st1)
               /\ JsMap.get sid (SessionManager.sessions st1) = Some s1
               /\ SessionManager.s_state s1 = SessionManager.paused)
      as (st1 & s1 & H1 & Hs1 & Hst1).
    { rewrite Hp.
      destruct (SessionManager.s_state s) eqn:Est; rewrite ?Hok;
        eexists _, _; (split; [reflexivity|]); cbn [SessionManager.sessions];
        rewrite ?jsmap_get_mutate_eq, Hs; cbn; eauto. }
    exists st1. eexists. split; [exact H1|].
    rewrite (resume_by_id eng sid st1 s1 Hs1), Hst1, Hok. reflexivity.
  - intros Hpaused. rewrite Hp, Hpaused. eexists. split; [reflexivity|].
    split; [reflexivity|]. intros k. apply Hkeep.
  - intros Hnot. rewrite (resume_by_id eng sid st s Hs).
    destruct (SessionManager.s_state s); try done;
      (eexists; split; [reflexivity|]; split; [reflexivity|]; intros k; apply Hkeep).
Qed.

Example demo_holds_its_session :
  SessionManager.sessions SessionManager.demo
  = [(js "session-0", SessionManager.demo_session)]
  /\ SessionManager.sessionsByName SessionManager.demo = [(js "demo", js "session-0")].
Proof. split; reflexivity. Qed.

Lemma pause_resume_laws_witness :
  exists st1 st2,
    SessionManager.pause SessionManager.obliging (js "session-0") SessionManager.demo
    = (Ok tt, st1)
    /\ SessionManager.resume SessionManager.obliging (js "session-0") st1 = (Ok tt, st2)
    /\ SessionManager.s_state <$> JsMap.get (js "session-0") (SessionManager.sessions st2)
       = Some SessionManager.active.
Proof.
  destruct (pause_resume_laws SessionManager.obliging (js "session-0")
              SessionManager.demo SessionManager.demo_session eq_refl)
    as (Hactive & Hrun & _).
  destruct (Hrun (fun _ _ => eq_refl)) as (st1 & st2 & H1 & H2).
  exists st1, st2. split; [exact H1|]. split; [exact H2|].
  exact (Hactive st1 st2 H1 H2).
Defined.

Section DestroyFacts.
Import SessionManager.
Variable eng : Engine.

(** The janitor's loop never raises: each round catches what it throws. *)
Lemma cleanup_each_completes ids st :
  exists st', cleanup_each eng ids st = (Ok tt, st').
Proof.
  revert st; induction ids as [|id ids IH]; intros st.
  - eexists. reflexivity.
  - cbn [cleanup_each]. unfold Eff.bind at 1.
    destruct (Eff.try_catch _ _ st) as [r st1] eqn:Htry.
    assert (r = Ok tt) as ->.
    { revert Htry. unfold Eff.try_catch.
      destruct (Eff.bind _ _ st) as [[[]|e] st0]; cbv [Eff.ret]; congruence. }
    apply IH.
Qed.

Lemma cleanup_completes st : exists st', cleanup eng st = (Ok tt, st').
Proof.
  unfold cleanup, Eff.bind, now, Eff.get. apply cleanup_each_completes.
Qed.

End DestroyFacts.

(** C4, as the code has it: [destroy] of an id or name that is in neither
    session map raises [Session not found: <id>], issues no engine call and
    leaves the maps as they are.  It is the janitor that treats an
    already-gone session as success: its loop skips an id that is no longer
    in the map, and it catches whatever [destroy] throws, so [cleanup]
    always completes. *)
Theorem destroy_of_absent_session_raises
    (eng : SessionManager.Engine) (sid : jsstring) (st : SessionManager.St) :
  JsMap.has sid (SessionManager.sessions st) = false ->
  JsMap.has sid (SessionManager.sessionsByName st) = false ->
  SessionManager.destroy eng sid st
  = (Throw (mkError PlainError (js "Session not found: " ++ sid)), st)
  /\ SessionManager.cleanup_each eng [sid] st = (Ok tt, st)
  /\ (forall ids st0, exists st1, SessionManager.cleanup_each eng ids st0 = (Ok tt, st1))
  /\ (forall st0, exists st1, SessionManager.cleanup eng st0 = (Ok tt, st1)).
Proof.
  intros Hid Hname. split; [|split; [|split]].
  - unfold SessionManager.destroy, Eff.bind.
    by rewrite (get_absent eng sid st (locate_absent sid st Hid Hname)).
  - cbn [SessionManager.cleanup_each].
    cbv [Eff.bind Eff.try_catch Eff.get Eff.ret].
    unfold JsMap.has in Hid.
    by destruct (JsMap.get sid (SessionManager.sessions st)).
  - intros ids st0. apply cleanup_each_completes.
  - intros st0. apply cleanup_completes.
Qed.

Lemma destroy_of_absent_session_raises_witness :
  SessionManager.destroy SessionManager.obliging (js "session-7") SessionManager.demo
  = (Throw (mkError PlainError (js "Session not found: session-7")), SessionManager.demo)
  /\ SessionManager.cleanup_each SessionManager.obliging [js "session-7"] SessionManager.demo
     = (Ok tt, SessionManager.demo).
Proof.
  destruct (destroy_of_absent_session_raises SessionManager.obliging (js "session-7")
              SessionManager.demo eq_refl eq_refl) as (Hd & Hc & _).
  split; [exact Hd | exact Hc].
Defined.

(** The race of the claim, run in order: the janitor destroys the expired
    session, then the caller's [destroy] of the same id raises. *)
Example caller_destroy_after_janitor :
  exists st1,
    SessionManager.cleanup SessionManager.obliging SessionManager.stale = (Ok tt, st1)
    /\ SessionManager.sessions st1 = []
    /\ SessionManager.sessionsByName st1 = []
    /\ SessionManager.trace st1
       = [SessionManager.EStop (js "c1"); SessionManager.ERemove (js "c1")]
    /\ SessionManager.destroy SessionManager.obliging (js "s1") st1
       = (Throw (mkError PlainError (js "Session not found: s1")), st1).
Proof. eexists. repeat split. Qed.

(** C4, counterexample to the claim as stated: [destroy] of an id that no
    map holds does not complete, it raises. *)
Lemma destroy_of_absent_session_fails :
  JsMap.has (js "gone") (SessionManager.sessions SessionManager.empty) = false
  /\ JsMap.has (js "gone") (SessionManager.sessionsByName SessionManager.empty) = false
  /\ SessionManager.destroy SessionManager.obliging (js "gone") SessionManager.empty
     = (Throw (mkError PlainError (js "Session not found: gone")), SessionManager.empty)
  /\ is_ok (fst (SessionManager.destroy SessionManager.obliging (js "gone")
                   SessionManager.empty)) = false.
Proof. repeat split. Qed.

(** ** The package cache *)

Section PackageCacheFacts.
Import PackageCache.
Variable eng : Engine.
Variable sha256_hex : jsstring -> jsstring.
Variable JSON_stringify : list jsstring -> jsstring.

(** The key depends on the packages through their sorted list only. *)
Lemma imageName_sorted language packages packages' :
  sort packages' = sort packages ->
  imageName sha256_hex JSON_stringify language packages'
  = imageName sha256_hex JSON_stringify language packages.
Proof. unfold imageName, getCacheKey. by intros ->. Qed.

(** The name a commit gives its image never is the name looked up: the
    first starts with [mcp-sandbox:], the second with [mcp-sandbox-]. *)
Lemma committed_name_differs language packages tag :
  str_eqb (imageName sha256_hex JSON_stringify language packages)
          (js "mcp-sandbox" ++ js ":" ++ tag) = false.
Proof. reflexivity. Qed.

Lemma listed_app name imgs more :
  listed name (imgs ++ more) = listed name imgs || listed name more.
Proof. unfold listed. apply existsb_app. Qed.

(** [hasImage] on a store that does not list the name. *)
Lemma hasImage_absent name st :
  listed name (images st) = false ->
  hasImage eng name st
  = (Ok false, mkSt (cacheHits st) (cacheMisses st) (images st)
                 (calls st ++ [KListImages]) (reads st)).
Proof.
  intros H.
  cbv [hasImage Eff.try_catch Eff.bind listImages Eff.get record Eff.modify
       Eff.throw Eff.ret].
  cbn [cacheHits cacheMisses images calls reads].
  destruct (e_list_fails eng (calls st)); [reflexivity|]. by rewrite H.
Qed.

(** An install on a store that does not list the image name is a miss:
    it asks the adapter to install, it does not answer "cached", and it
    leaves the name unlisted, whatever the engine and the adapter do. *)
Lemma install_miss language packages container st :
  listed (imageName sha256_hex JSON_stringify language packages) (images st) = false ->
  exists res st',
    install eng sha256_hex JSON_stringify language packages container st
    = (Ok res, st')
    /\ success res && cached res = false
    /\ installs (calls st') = S (installs (calls st))
    /\ cacheHits st' = cacheHits st
    /\ listed (imageName sha256_hex JSON_stringify language packages) (images st')
       = false.
Proof.
  intros Hmiss.
  unfold install. unfold Eff.bind at 1. cbn [now].
  unfold Eff.try_catch at 1. unfold Eff.bind at 1.
  rewrite hasImage_absent by done.
  cbv [Eff.bind Eff.modify runtime_installPackages Eff.get record Eff.lift
       commitImage container_commit Eff.try_catch Eff.throw Eff.ret now].
  cbn [cacheHits cacheMisses images calls reads].
  set (cs := calls st ++ [KListImages]).
  assert (Hins : forall more,
             installs ((cs ++ [KInstallPackages packages]) ++ more)
             = S (installs (calls st) + installs more)%nat).
  { intros more. unfold installs, cs.
    rewrite !List.filter_app, !length_app. cbn. lia. }
  assert (Hins0 : installs (cs ++ [KInstallPackages packages]) = S (installs (calls st))).
  { rewrite <- (app_nil_r (cs ++ _)), Hins. cbn. lia. }
  destruct (e_installPackages eng cs packages) as [ir|e].
  - destruct ir as [ok c d ps errs]. cbn [success negb].
    destruct ok; cbn [negb].
    + destruct (e_commit eng _ _ _) as [id|e].
      * eexists _, _. split; [reflexivity|].
        cbn [success cached calls images cacheHits andb].
        split; [done|]. split; [by rewrite Hins; cbn; lia|]. split; [done|].
        rewrite listed_app, Hmiss. cbn [orb listed existsb img_tags].
        by rewrite committed_name_differs.
      * eexists _, _. split; [reflexivity|].
        cbn [success cached calls images cacheHits andb].
        split; [done|]. split; [by rewrite Hins; cbn; lia|]. done.
    + eexists _, _. split; [reflexivity|].
      cbn [success cached calls images cacheHits andb].
      split; [done|]. split; [exact Hins0|]. done.
  - eexists _, _. split; [reflexivity|].
    cbn [success cached calls images cacheHits andb].
    split; [done|]. split; [exact Hins0|]. done.
Qed.

End PackageCacheFacts.

(** Whatever the engine and the adapter do, an install of a package set
    whose image name is not listed is followed by a miss for every package
    list with the same sorted form: the adapter is asked to install again
    and the hit counter stays where it was. *)
Lemma install_twice_never_hits
    (eng : PackageCache.Engine) (sha256_hex : jsstring -> jsstring)
    (JSON_stringify : list jsstring -> jsstring) (language : Language)
    (packages packages' : list jsstring) (c c' : jsstring) (st : PackageCache.St) :
  PackageCache.listed
    (PackageCache.imageName sha256_hex JSON_stringify language packages)
    (PackageCache.images st) = false ->
  PackageCache.sort packages' = PackageCache.sort packages ->
  exists r1 st1 r2 st2,
    PackageCache.install eng sha256_hex JSON_stringify language packages c st
    = (Ok r1, st1)
    /\ PackageCache.install eng sha256_hex JSON_stringify language packages' c' st1
       = (Ok r2, st2)
    /\ PackageCache.success r2 && PackageCache.cached r2 = false
    /\ PackageCache.installs (PackageCache.calls st2)
       = S (PackageCache.installs (PackageCache.calls st1))
    /\ PackageCache.cacheHits st2 = PackageCache.cacheHits st.
Proof.
  intros Hmiss Hsort.
  destruct (install_miss eng sha256_hex JSON_stringify language packages c st Hmiss)
    as (r1 & st1 & H1 & _ & _ & Hhits1 & Hmiss1).
  rewrite <- (imageName_sorted sha256_hex JSON_stringify language _ _ Hsort) in Hmiss1.
  destruct (install_miss eng sha256_hex JSON_stringify language packages' c' st1 Hmiss1)
    as (r2 & st2 & H2 & Hnot & Hcalls & Hhits2 & _).
  exists r1, st1, r2, st2. repeat split; try done. congruence.
Qed.

(** C5, the code at the scenario of the claim: on an engine without
    images that accepts every call, [install('python', ['requests'])]
    succeeds with [cached: false] and commits an image named
    [mcp-sandbox:mcp-sandbox-python:<key>]; the same install again looks for
    [mcp-sandbox-python:<key>], does not find it, answers [cached: false]
    and has the adapter install a second time. *)
Theorem second_install_is_a_miss
    (sha256_hex : jsstring -> jsstring) (JSON_stringify : list jsstring -> jsstring) :
  exists r1 st1 r2 st2,
    PackageCache.install PackageCache.obliging sha256_hex JSON_stringify
      python [js "requests"] (js "c1") PackageCache.empty = (Ok r1, st1)
    /\ PackageCache.success r1 = true /\ PackageCache.cached r1 = false
    /\ map PackageCache.img_tags (PackageCache.images st1)
       = [[js "mcp-sandbox:mcp-sandbox-python:"
           ++ firstn 12 (sha256_hex (js "python:" ++ JSON_stringify [js "requests"]))]]
    /\ PackageCache.install PackageCache.obliging sha256_hex JSON_stringify
         python [js "requests"] (js "c2") st1 = (Ok r2, st2)
    /\ PackageCache.success r2 = true /\ PackageCache.cached r2 = false
    /\ PackageCache.installs (PackageCache.calls st2) = 2%nat
    /\ PackageCache.cacheHits st2 = 0%nat
    /\ PackageCache.cacheMisses st2 = 2%nat.
Proof.
  eexists _, _, _, _.
  split; [lazy; reflexivity|].
  split; [reflexivity|]. split; [reflexivity|]. split; [reflexivity|].
  split; [lazy; reflexivity|].
  repeat split.
Qed.

(** On an engine that refuses the malformed tag, the first install
    already fails at the commit. *)
Example install_on_strict_engine_fails
    (sha256_hex : jsstring -> jsstring) (JSON_stringify : list jsstring -> jsstring) :
  exists d st1,
    PackageCache.install PackageCache.strict sha256_hex JSON_stringify
      python [js "requests"] (js "c1") PackageCache.empty
    = (Ok (PackageCache.mkInstallResult false false d []
             (Some [js "Failed to commit container: invalid reference format"])),
       st1)
    /\ PackageCache.images st1 = [].
Proof. eexists _, _. split; lazy; reflexivity. Qed.

(** ** The container pool *)

Lemma jsmap_get_none_keys {V} k (m : JsMap.t V) :
  ~ In k (JsMap.keys m) -> JsMap.get k m = None.
Proof.
  induction m as [|[k0 v0] m IH]; simpl; [done|].
  intros Hn. destruct (str_eqb k0 k) eqn:E.
  - apply str_eqb_eq in E. destruct Hn. by left.
  - apply IH. intros Hin. apply Hn. by right.
Qed.

(** In a map without repeated keys, a deleted key is gone. *)
Lemma jsmap_get_delete_eq {V} k (m : JsMap.t V) :
  List.NoDup (JsMap.keys m) -> JsMap.get k (JsMap.delete k m) = None.
Proof.
  induction m as [|[k0 v0] m IH]; simpl; [done|].
  intros Hnd. inversion Hnd as [|? ? Hnotin Hnd']; subst.
  destruct (str_eqb k0 k) eqn:E; simpl.
  - apply str_eqb_eq in E. subst k0. by apply jsmap_get_none_keys.
  - rewrite E. by apply IH.
Qed.

Section PoolFacts.
Import ContainerPool.

(** The entry [evictOldest] picks is in the pool and no entry was used
    longer ago. *)
Lemma oldest_from_min entries : forall o v,
  oldest_from o entries = Some v ->
  (In v entries \/ o = Some v)
  /\ (forall p, In p entries \/ o = Some p -> (p_lastUsedAt v <= p_lastUsedAt p)%Z).
Proof.
  induction entries as [|e entries IH]; intros o v; simpl.
  - intros ->. split; [by right|]. intros p [[]|[= ->]]. lia.
  - destruct o as [o|].
    + destruct (p_lastUsedAt e <? p_lastUsedAt o)%Z eqn:Hlt.
      * intros H. apply IH in H as [Hin Hmin]. split.
        -- destruct Hin as [Hin|[= ->]]; [left; by right | left; by left].
        -- intros p [[->|Hp]|[= ->]].
           ++ apply Hmin. by right.
           ++ apply Hmin. by left.
           ++ apply Z.ltb_lt in Hlt.
              specialize (Hmin e (or_intror eq_refl)). lia.
      * intros H. apply IH in H as [Hin Hmin]. split.
        -- destruct Hin as [Hin|Hin]; [left; by right | by right].
        -- intros p [[->|Hp]|[= ->]].
           ++ apply Z.ltb_ge in Hlt.
              specialize (Hmin o (or_intror eq_refl)). lia.
           ++ apply Hmin. by left.
           ++ apply Hmin. by right.
    + intros H. apply IH in H as [Hin Hmin]. split.
      * destruct Hin as [Hin|[= ->]]; [left; by right | left; by left].
      * intros p [[->|Hp]|Hp]; [|apply Hmin; by left|done].
        apply Hmin. by right.
Qed.

End PoolFacts.

Section ReleaseFacts.
Import ContainerPool.
Variable eng : Engine.
Variable config : PoolConfig.

Lemma destroyContainer_ok c st :
  e_reply eng (trace st) (PStop c) = Ok tt ->
  e_reply eng (trace st ++ [PStop c]) (PRemove c) = Ok tt ->
  destroyContainer eng c st
  = (Ok tt, mkSt (JsMap.delete c (pool st)) (trace st ++ [PStop c; PRemove c]) (reads st)).
Proof.
  intros Hstop Hremove.
  cbv [destroyContainer Eff.try_catch Eff.bind container_stop container_remove
       call set_pool Eff.modify Eff.ret Eff.throw].
  cbn [pool trace reads]. rewrite Hstop. cbn [pool trace reads]. rewrite Hremove.
  cbn [pool trace reads]. by rewrite <- app_assoc.
Qed.


(** [cleanContainer] runs its two commands and touches nothing else; it
    raises exactly when the second one does. *)
Lemma cleanContainer_runs c st :
  let rm := PExec c [js "sh"; js "-c"; js "rm -rf /workspace/* /workspace/.*"] in
  let mkdir := [js "mkdir"; js "-p"; js "/workspace"] in
  exists r,
    cleanContainer eng c st
    = (r, mkSt (pool st) (trace st ++ [rm; PExec c mkdir]) (reads st))
    /\ is_ok r = is_ok (e_exec eng (trace st ++ [rm]) c mkdir).
Proof.
  intros rm mkdir.
  cbv [cleanContainer Eff.try_catch Eff.bind Eff.ignore_errors container_exec
       Eff.ret Eff.throw].
  cbn [pool trace reads]. fold rm. fold mkdir.
  destruct (e_exec eng (trace st) c _) as [r0|e0]; cbn [pool trace reads];
    destruct (e_exec eng (trace st ++ [rm]) c mkdir) as [r1|e1];
    eexists; (split; [by rewrite <- app_assoc|reflexivity]).
Qed.

End ReleaseFacts.

Section ReleaseFull.
Import ContainerPool.
Variable eng : Engine.
Variable config : PoolConfig.


End ReleaseFull.

Section ReleaseAccepting.
Import ContainerPool.
Variable eng : Engine.
Variable config : PoolConfig.
Hypothesis exec_ok : forall h c cmd, is_ok (e_exec eng h c cmd) = true.
Hypothesis reply_ok : forall h c, e_reply eng h c = Ok tt.

(** A release on an engine that accepts every call. *)
Lemma release_accepting c lang st :
  exists tr,
    release eng config c lang st
    = (Ok tt,
       mkSt (JsMap.set c
               (mkPooled c lang (e_now eng (reads st)) (e_now eng (S (reads st))) 0 true)
               (if (maxActive config <=? JsMap.size (pool st))%nat then
                  match oldest_from None (JsMap.values (pool st)) with
                  | Some v => JsMap.delete (p_container v) (pool st)
                  | None => pool st
                  end
                else pool st))
            tr (S (S (reads st)))).
Proof.
  unfold release, Eff.try_catch.
  cbv [Eff.bind Eff.get evictOldest Eff.ret].
  destruct (maxActive config <=? JsMap.size (pool st))%nat;
    [destruct (oldest_from None (JsMap.values (pool st))) as [v|];
     [rewrite destroyContainer_ok by auto|]|];
    match goal with
    | |- context [cleanContainer eng c ?st1] =>
        destruct (cleanContainer_runs eng c st1) as (r & Hr & Hok); rewrite Hr
    end;
    rewrite exec_ok in Hok; (destruct r as [[]|e]; [|discriminate Hok]);
    cbv [now set_pool Eff.modify]; cbn [pool trace reads]; eauto.
Qed.

End ReleaseAccepting.

Section ReleaseGeneral.
Import ContainerPool.



Variable eng : Engine.
Variable config : PoolConfig.



End ReleaseGeneral.




(** The three ways an eviction can go wrong, on the three releases: a
    stop refused with [already stopped] does not keep the entry; a failed
    removal keeps it; and when the stop of [c1] fails and [c3] cannot be
    cleaned, [c1] stays and [c3] is not inserted. *)
Example release_after_an_ignored_stop_failure :
  JsMap.keys (ContainerPool.pool
                (ContainerPool.after_three_releases
                   (ContainerPool.already_stopped (js "c1")) (js "c1") (js "c2") (js "c3")))
  = [js "c2"; js "c3"].
Proof. reflexivity. Qed.

Example release_after_a_failed_removal :
  JsMap.keys (ContainerPool.pool
                (ContainerPool.after_three_releases
                   (ContainerPool.unremovable (js "c1")) (js "c1") (js "c2") (js "c3")))
  = [js "c1"; js "c2"; js "c3"].
Proof. reflexivity. Qed.

Example release_when_cleaning_fails :
  JsMap.keys (ContainerPool.pool
                (ContainerPool.after_three_releases
                   (ContainerPool.unclean (js "c1") (js "c3")) (js "c1") (js "c2") (js "c3")))
  = [js "c1"; js "c2"].
Proof. reflexivity. Qed.

(** * Further properties *)

(** ** The path validator: what is rejected, what is ignored *)

Lemma includes_cons_other sub c s :
  match sub with x :: _ => x <> c | [] => False end ->
  includes sub (c :: s) = includes sub s.
Proof.
  destruct sub as [|x sub]; [done|]. intros Hx. apply N.eqb_neq in Hx.
  cbn [includes startsWith]. by rewrite Hx.
Qed.

Lemma includes_cons_r sub c s : includes sub s = true -> includes sub (c :: s) = true.
Proof. intros H. cbn [includes]. rewrite H. apply orb_true_r. Qed.

Lemma includes_app_r sub front s :
  includes sub s = true -> includes sub (front ++ s) = true.
Proof. induction front; [done|]. intros H. apply includes_cons_r. auto. Qed.

Lemma hex_val_not_dot c v : Uri.hex_val c = Some v -> c <> DOT.
Proof. intros H ->. discriminate H. Qed.

(** An escape holds no dot, so two dots in a row lie behind it. *)
Lemma read_octet_dots s b rest :
  Uri.read_octet s = Some (b, rest) ->
  includes PosixPath.dotdot s = true -> includes PosixPath.dotdot rest = true.
Proof.
  unfold Uri.read_octet. destruct s as [|p [|h1 [|h2 s]]]; try discriminate.
  destruct (p =? PERCENT) eqn:Hp; [|discriminate]. apply N.eqb_eq in Hp. subst p.
  destruct (Uri.hex_val h1) eqn:H1; [|discriminate].
  destruct (Uri.hex_val h2) eqn:H2; [|discriminate].
  intros [= _ <-]. apply hex_val_not_dot in H1, H2.
  rewrite !includes_cons_other; [done|..]; unfold PosixPath.dotdot; cbn [js];
    first [ intros E; symmetry in E; contradiction | intros E; discriminate E | idtac ].
Qed.

Lemma read_octets_dots n s bs rest :
  Uri.read_octets n s = Some (bs, rest) ->
  includes PosixPath.dotdot s = true -> includes PosixPath.dotdot rest = true.
Proof.
  revert s bs rest; induction n as [|n IH]; intros s bs rest; simpl.
  - by intros [= _ <-].
  - destruct (Uri.read_octet s) as [[b s1]|] eqn:H1; [|discriminate].
    destruct (Uri.read_octets n s1) as [[bs' s2]|] eqn:H2; [|discriminate].
    intros [= _ <-] Hin. eapply IH; [exact H2|]. by eapply read_octet_dots.
Qed.

(** Decoding never takes two dots in a row away. *)
Lemma decode_loop_dots fuel : forall s d,
  Uri.decode_loop fuel s = Some d ->
  includes PosixPath.dotdot s = true -> includes PosixPath.dotdot d = true.
Proof.
  induction fuel as [|fuel IH]; intros s d.
  - destruct s; simpl; [by intros [= <-]|discriminate].
  - destruct s as [|c rest]; [by intros [= <-]|].
    cbn [Uri.decode_loop]. destruct (c =? PERCENT) eqn:Hc.
    + destruct (Uri.read_octet (c :: rest)) as [[b rest1]|] eqn:Hr; [|discriminate].
      intros Hd Hin. pose proof (read_octet_dots _ _ _ Hr Hin) as Hin1.
      destruct (Uri.leading_ones b) as [|[|m]]; [|discriminate|].
      * destruct (Uri.decode_loop fuel rest1) as [d'|] eqn:Hd'; [|discriminate].
        injection Hd as <-. apply includes_cons_r. by eapply IH.
      * destruct (2 <? m)%nat; [discriminate|].
        destruct (Uri.read_octets (S m) rest1) as [[bs rest2]|] eqn:Hc2; [|discriminate].
        destruct (Uri.utf8_code_point b bs); [|discriminate].
        destruct (Uri.decode_loop fuel rest2) as [d'|] eqn:Hd'; [|discriminate].
        injection Hd as <-. apply includes_app_r. eapply IH; [exact Hd'|].
        by eapply read_octets_dots.
    + destruct (Uri.decode_loop fuel rest) as [d'|] eqn:Hd'; [|discriminate].
      intros [= <-] Hin. cbn [includes] in Hin. apply orb_true_iff in Hin as [Hst|Hin].
      * destruct rest as [|c2 rest'].
        { cbn in Hst. rewrite andb_false_r in Hst. discriminate Hst. }
        cbn [startsWith PosixPath.dotdot] in Hst.
        apply andb_true_iff in Hst as [H1 Hst]. apply andb_true_iff in Hst as [H2 _].
        apply N.eqb_eq in H1, H2. subst c c2.
        destruct fuel as [|fuel']; [discriminate|].
        cbn [Uri.decode_loop] in Hd'. change (DOT =? PERCENT) with false in Hd'.
        destruct (Uri.decode_loop fuel' rest') as [d''|]; [|discriminate].
        injection Hd' as <-. reflexivity.
      * apply includes_cons_r. by eapply IH.
Qed.

Lemma search_dotdot n s :
  search n (l "..") s = includes PosixPath.dotdot s.
Proof.
  induction s as [|c s IH]; [reflexivity|].
  cbn [search includes]. rewrite IH. reflexivity.
Qed.

Lemma decode_rounds_dots n : forall s d,
  PathValidator.decode_rounds n s = Some d ->
  includes PosixPath.dotdot s = true -> includes PosixPath.dotdot d = true.
Proof.
  induction n as [|n IH]; intros s d; simpl.
  - by intros [= <-].
  - destruct (Uri.decodeURIComponent s) as [nd|] eqn:Hd; [|discriminate].
    destruct (str_eqb nd s).
    + by intros [= <-].
    + intros Hr Hin. eapply IH; [exact Hr|]. eapply decode_loop_dots; [exact Hd|done].
Qed.

Lemma decode_input_dots s :
  includes PosixPath.dotdot s = true ->
  includes PosixPath.dotdot (PathValidator.decode_input s) = true.
Proof.
  intros Hin. unfold PathValidator.decode_input.
  destruct (PathValidator.decode_rounds 3 s) as [d|] eqn:Hd; [|done].
  by eapply decode_rounds_dots.
Qed.

(** X1. A path with two dots in a row anywhere, also inside a name, is
    rejected: by the null-byte check when it holds one, by the first
    traversal pattern otherwise.  No escape sequence can hide the dots,
    and none is needed to trigger the rejection. *)
Theorem sanitizePath_rejects_two_dots cwd userPath :
  includes PosixPath.dotdot userPath = true ->
  PathValidator.sanitizePath cwd userPath =
    Throw (PathValidator.pathError
             (if includes [0] userPath
              then js "Null byte detected in path"
              else js "Path traversal pattern detected")).
Proof.
  intros Hin. unfold PathValidator.sanitizePath.
  destruct (includes [0] userPath); [reflexivity|].
  apply decode_input_dots in Hin.
  unfold PathValidator.traversalPatterns. cbn [existsb].
  unfold test at 1. by rewrite search_dotdot, Hin.
Qed.

Lemma sanitizePath_rejects_two_dots_witness :
  PathValidator.sanitizePath (js "/srv") (js "notes..txt") =
    Throw (PathValidator.pathError (js "Path traversal pattern detected")).
Proof. apply (sanitizePath_rejects_two_dots (js "/srv") (js "notes..txt")). reflexivity. Defined.

Section PathShapeFacts.
Import PathValidator PathShape.

Lemma split_app c a b : split c (a ++ c :: b) = split c a ++ split c b.
Proof.
  induction a as [|x a IH]; simpl.
  - by rewrite N.eqb_refl.
  - destruct (x =? c); [by rewrite IH|].
    rewrite IH. pose proof (split_not_nil c a) as Hne.
    by destruct (split c a).
Qed.

Lemma segments_app a b : segments (a ++ SLASH :: b) = segments a ++ segments b.
Proof. unfold segments. by rewrite split_app, List.filter_app. Qed.

Lemma segments_slash s : segments (SLASH :: s) = segments s.
Proof. apply (segments_app [] s). Qed.

Lemma segments_trailing s : segments (s ++ [SLASH]) = segments s.
Proof. rewrite segments_app. apply app_nil_r. Qed.

Lemma segments_strip s : segments (strip_leading SLASH s) = segments s.
Proof.
  induction s as [|x s IH]; [done|]. cbn [strip_leading].
  destruct (x =? SLASH) eqn:Hx; [|done].
  apply N.eqb_eq in Hx. subst x. by rewrite segments_slash.
Qed.

Lemma split_head c s w ws : split c s = w :: ws -> exists t, s = w ++ t.
Proof.
  intros H. rewrite <- (join_split c s), H.
  destruct ws; simpl; eauto. exists []. by rewrite app_nil_r.
Qed.

Lemma split_two_dots s :
  includes PosixPath.dotdot s = false ->
  Forall (fun seg => startsWith PosixPath.dotdot seg = false) (split SLASH s).
Proof.
  induction s as [|x s IH]; intros Hin.
  - by repeat constructor.
  - cbn [includes] in Hin. apply orb_false_iff in Hin as [Hst Hin].
    specialize (IH Hin). cbn [split]. destruct (x =? SLASH); [by constructor|].
    destruct (split SLASH s) as [|w ws] eqn:Hs; [by destruct (split_not_nil SLASH s)|].
    inversion IH as [|? ? Hw Hws]; subst. constructor; [|done].
    destruct (split_head _ _ _ _ Hs) as [t ->].
    unfold PosixPath.dotdot in *. cbn [startsWith] in *.
    destruct (DOT =? x); [|done]. simpl in *.
    destruct w as [|y w]; [done|]. simpl in *. by destruct (DOT =? y).
Qed.

Lemma segments_plain s :
  includes PosixPath.dotdot s = false -> Forall plain_segment (segments s).
Proof.
  intros Hin. apply split_two_dots in Hin. pose proof (split_no_sep SLASH s) as Hsep.
  unfold segments. induction (split SLASH s) as [|seg segs IH]; [constructor|].
  inversion Hin; inversion Hsep; subst. cbn [List.filter].
  destruct (kept seg) eqn:Hk; [|by apply IH].
  constructor; [done|by apply IH].
Qed.

Lemma segments_join segs :
  Forall plain_segment segs -> segments (join [SLASH] segs) = segs.
Proof.
  induction segs as [|seg segs IH]; [done|].
  intros Hall. inversion Hall as [|? ? [Hk [Hs _]] Hrest]; subst.
  assert (Hone : segments seg = [seg]).
  { unfold segments. rewrite split_single by done. cbn [List.filter]. by rewrite Hk. }
  destruct segs as [|seg' segs]; [done|].
  change (join [SLASH] (seg :: seg' :: segs))
    with (seg ++ SLASH :: join [SLASH] (seg' :: segs)).
  by rewrite segments_app, Hone, IH.
Qed.

Lemma plain_not_dotdot seg : plain_segment seg -> str_eqb seg PosixPath.dotdot = false.
Proof.
  intros (_ & _ & Hst). apply str_eqb_neq. intros ->. discriminate Hst.
Qed.

Lemma fold_normalize_step b segs : forall acc,
  Forall plain_segment (List.filter kept segs) ->
  fold_left (PosixPath.normalize_step b) segs acc = rev (List.filter kept segs) ++ acc.
Proof.
  induction segs as [|seg segs IH]; intros acc Hall; [done|].
  cbn [fold_left List.filter] in *. unfold PosixPath.normalize_step at 2.
  unfold kept in *.
  destruct (str_eqb seg [] || str_eqb seg [DOT]); cbn [negb] in *.
  - by apply IH.
  - inversion Hall as [|? ? Hseg Hrest]; subst.
    rewrite (plain_not_dotdot _ Hseg), IH by done.
    cbn [rev]. by rewrite <- app_assoc.
Qed.

(** Without a [..] segment, normalising keeps the segments that count. *)
Lemma normalizeString_plain path b :
  Forall plain_segment (segments path) ->
  PosixPath.normalizeString path b = join [SLASH] (segments path).
Proof.
  intros Hall. unfold PosixPath.normalizeString.
  rewrite fold_normalize_step by done.
  by rewrite app_nil_r, rev_involutive.
Qed.

Lemma normalize_absolute path :
  PosixPath.isAbsolute path = true ->
  Forall plain_segment (segments path) -> segments path <> [] ->
  exists t, PosixPath.normalize path = SLASH :: join [SLASH] (segments path) ++ t
            /\ (t = [] \/ t = [SLASH]).
Proof.
  intros Habs Hall Hne. unfold PosixPath.normalize.
  destruct path as [|c path]; [discriminate|].
  rewrite normalizeString_plain, Habs by done. cbn [negb].
  destruct (join [SLASH] (segments (c :: path))) as [|y j] eqn:Hj.
  - destruct (segments (c :: path)) as [|seg segs]; [done|].
    inversion Hall as [|? ? [Hk _] _]; subst.
    destruct seg; [discriminate Hk|]. by destruct segs.
  - destruct (PosixPath.trailingSeparator (c :: path)).
    + exists [SLASH]. eauto.
    + exists []. rewrite app_nil_r. eauto.
Qed.

Lemma segments_canonical segs t :
  Forall plain_segment segs -> t = [] \/ t = [SLASH] ->
  segments (SLASH :: join [SLASH] segs ++ t) = segs.
Proof.
  intros Hall [-> | ->]; rewrite segments_slash.
  - rewrite app_nil_r. by apply segments_join.
  - rewrite segments_trailing. by apply segments_join.
Qed.

Lemma resolve_absolute cwd path :
  PosixPath.isAbsolute path = true ->
  Forall plain_segment (segments path) ->
  PosixPath.resolve cwd [path] = SLASH :: join [SLASH] (segments path).
Proof.
  intros Habs Hall. unfold PosixPath.resolve. cbn [rev app PosixPath.resolve_args].
  destruct path as [|c path]; [discriminate|]. rewrite Habs.
  cbn [negb]. rewrite normalizeString_plain.
  - change ((c :: path) ++ [SLASH] ++ []) with ((c :: path) ++ [SLASH]).
    by rewrite segments_trailing.
  - change ((c :: path) ++ [SLASH] ++ []) with ((c :: path) ++ [SLASH]).
    by rewrite segments_trailing.
Qed.

Lemma workspace_plain : plain_segment (js "workspace").
Proof.
  repeat split; try reflexivity. intros Hin. simpl in Hin.
  repeat (destruct Hin as [Hin|Hin]; [discriminate Hin|]). done.
Qed.

(** Steps 2 to 4 on a text free of two dots in a row. *)
Lemma normalize_input_shape decoded :
  includes PosixPath.dotdot decoded = false ->
  exists t, normalize_input decoded
            = SLASH :: join [SLASH] (js "workspace" :: segments decoded) ++ t
            /\ (t = [] \/ t = [SLASH]).
Proof.
  intros Hin. pose proof (segments_plain _ Hin) as Hplain.
  assert (Hall : Forall plain_segment (js "workspace" :: segments decoded))
    by (constructor; [apply workspace_plain|done]).
  assert (Hjoin : forall x, segments x = segments decoded ->
    exists t, PosixPath.join_paths [WORKSPACE_ROOT; x]
              = SLASH :: join [SLASH] (js "workspace" :: segments decoded) ++ t
              /\ (t = [] \/ t = [SLASH])).
  { intros x Hx. unfold PosixPath.join_paths.
    assert (Hws : segments WORKSPACE_ROOT = [js "workspace"]) by reflexivity.
    destruct x as [|c x].
    - change (List.filter (fun a => negb (str_eqb a [])) [WORKSPACE_ROOT; []])
        with [WORKSPACE_ROOT].
      cbv beta iota. change (join [SLASH] [WORKSPACE_ROOT]) with WORKSPACE_ROOT.
      destruct (normalize_absolute WORKSPACE_ROOT) as (t & Ht & Hcase);
        [reflexivity|rewrite Hws; repeat constructor; apply workspace_plain|by rewrite Hws|].
      exists t. split; [|done]. rewrite Ht, Hws, <- Hx. reflexivity.
    - change (List.filter (fun a => negb (str_eqb a [])) [WORKSPACE_ROOT; c :: x])
        with [WORKSPACE_ROOT; c :: x].
      cbv beta iota.
      change (join [SLASH] [WORKSPACE_ROOT; c :: x])
        with (WORKSPACE_ROOT ++ SLASH :: c :: x).
      assert (Hseg : segments (WORKSPACE_ROOT ++ SLASH :: c :: x)
                     = js "workspace" :: segments decoded)
        by (by rewrite segments_app, Hws, Hx).
      destruct (normalize_absolute (WORKSPACE_ROOT ++ SLASH :: c :: x)) as (t & Ht & Hcase);
        [reflexivity|by rewrite Hseg|by rewrite Hseg|].
      exists t. by rewrite Ht, Hseg. }
  assert (Hnorm : forall x, segments x = segments decoded ->
    exists t, PosixPath.normalize (PosixPath.join_paths [WORKSPACE_ROOT; x])
              = SLASH :: join [SLASH] (js "workspace" :: segments decoded) ++ t
              /\ (t = [] \/ t = [SLASH])).
  { intros x Hx. destruct (Hjoin x Hx) as (t & -> & Hcase).
    pose proof (segments_canonical _ t Hall Hcase) as Hseg.
    destruct (normalize_absolute
                (SLASH :: join [SLASH] (js "workspace" :: segments decoded) ++ t))
      as (t' & Ht' & Hcase'); [reflexivity|by rewrite Hseg|by rewrite Hseg|].
    exists t'. by rewrite Ht', Hseg. }
  unfold normalize_input. destruct (startsWith [SLASH] decoded).
  - apply Hnorm, segments_strip.
  - by apply Hnorm.
Qed.

Lemma workspace_not_blocked rest :
  find (fun blocked => under blocked (WORKSPACE_ROOT ++ rest)) BLOCKED_PATHS = None.
Proof. vm_compute. reflexivity. Qed.

Lemma workspace_path_under segs :
  exists rest, workspace_path segs = WORKSPACE_ROOT ++ rest
    /\ (rest = [] \/ exists rest', rest = SLASH :: rest').
Proof.
  destruct segs as [|seg segs].
  - exists []. split; [reflexivity|by left].
  - exists (SLASH :: join [SLASH] (seg :: segs)). split; [reflexivity|right; eauto].
Qed.

Lemma plain_components segs :
  Forall plain_segment segs ->
  List.filter (fun c => negb (str_eqb c [])) segs = segs
  /\ existsb bad_component segs = false.
Proof.
  induction 1 as [|seg segs (Hk & _ & Hst) _ [IH1 IH2]]; [done|].
  cbn [List.filter existsb]. unfold bad_component at 1. rewrite Hst, IH1, IH2.
  unfold kept in Hk. apply negb_true_iff, orb_false_iff in Hk as [-> ->]. done.
Qed.

(** The seven steps of [sanitizePath] reduce to two checks and one
    result. *)
Lemma sanitizePath_steps cwd userPath :
  sanitizePath cwd userPath =
    if includes [0] userPath then
      Throw (pathError (js "Null byte detected in path"))
    else if existsb (fun pattern => test pattern (decode_input userPath))
                    traversalPatterns then
      Throw (pathError (js "Path traversal pattern detected"))
    else Ok (workspace_path (segments (decode_input userPath))).
Proof.
  unfold sanitizePath.
  destruct (includes [0] userPath); [reflexivity|].
  destruct (existsb _ traversalPatterns) eqn:Hpat; [reflexivity|].
  assert (Hin : includes PosixPath.dotdot (decode_input userPath) = false).
  { unfold traversalPatterns in Hpat. cbn [existsb] in Hpat.
    apply orb_false_iff in Hpat as [Hpat _]. unfold test in Hpat.
    by rewrite search_dotdot in Hpat. }
  pose proof (segments_plain _ Hin) as Hplain.
  assert (Hall : Forall plain_segment (js "workspace" :: segments (decode_input userPath)))
    by (constructor; [apply workspace_plain|done]).
  destruct (normalize_input_shape _ Hin) as (t & -> & Ht).
  rewrite resolve_absolute;
    [|reflexivity|by rewrite segments_canonical].
  rewrite segments_canonical by done.
  fold (workspace_path (segments (decode_input userPath))).
  destruct (workspace_path_under (segments (decode_input userPath)))
    as (rest & Hrest & Hcase).
  assert (Hinside : negb (str_eqb (workspace_path (segments (decode_input userPath)))
                            WORKSPACE_ROOT)
            && negb (startsWith (WORKSPACE_ROOT ++ [SLASH])
                       (workspace_path (segments (decode_input userPath)))) = false).
  { rewrite Hrest. destruct Hcase as [-> | [rest' ->]]; [reflexivity|].
    change (WORKSPACE_ROOT ++ SLASH :: rest') with ((WORKSPACE_ROOT ++ [SLASH]) ++ rest').
    rewrite startsWith_app. apply andb_false_r. }
  rewrite Hinside.
  assert (Hfind : find (fun blocked =>
                          under blocked (workspace_path (segments (decode_input userPath))))
                       BLOCKED_PATHS = None)
    by (rewrite Hrest; apply workspace_not_blocked).
  rewrite Hfind.
  assert (Hsplit : split SLASH (workspace_path (segments (decode_input userPath)))
                   = [] :: js "workspace" :: segments (decode_input userPath)).
  { unfold workspace_path.
    change (split SLASH (SLASH :: ?x)) with ([] :: split SLASH x). f_equal.
    apply split_join; [done|].
    eapply Forall_impl; [exact Hall|]. by intros seg (_ & Hs & _). }
  rewrite Hsplit.
  change (List.filter ?f ([] :: ?x)) with (List.filter f x).
  destruct (plain_components _ Hall) as [-> ->]. reflexivity.
Qed.

(** X2. [sanitizePath] in closed form.  Only the null-byte check and the
    traversal patterns can reject: whatever passes them resolves inside
    the workspace, so the escape check, the blocked-path check and the
    component check never raise, and the working directory of the
    process plays no part.  The path returned is the workspace root
    followed by the segments of the decoded text that are neither empty
    nor a single dot. *)
Theorem sanitizePath_closed_form cwd userPath :
  sanitizePath cwd userPath =
    if includes [0] userPath then
      Throw (pathError (js "Null byte detected in path"))
    else if existsb (fun pattern => test pattern (decode_input userPath))
                    traversalPatterns then
      Throw (pathError (js "Path traversal pattern detected"))
    else Ok (workspace_path (segments (decode_input userPath))).
Proof. apply sanitizePath_steps. Qed.

Lemma decode_rounds_cons_slash n : forall p,
  decode_rounds n (SLASH :: p) = cons SLASH <$> decode_rounds n p.
Proof.
  induction n as [|n IH]; intros p; [reflexivity|].
  cbn [decode_rounds]. rewrite decodeURIComponent_plain by discriminate.
  destruct (Uri.decodeURIComponent p) as [nd|]; [|reflexivity].
  cbn [fmap option_fmap option_map str_eqb]. rewrite N.eqb_refl. cbn [andb].
  destruct (str_eqb nd p); [reflexivity|apply IH].
Qed.

Lemma decode_input_cons_slash p :
  decode_input (SLASH :: p) = SLASH :: decode_input p.
Proof.
  unfold decode_input. rewrite decode_rounds_cons_slash.
  by destruct (decode_rounds 3 p).
Qed.

(** An expression without [^] matches the same way wherever the subject
    begins. *)
Lemma rmatch_no_bos n m r : uses_bos r = false ->
  forall s k, rmatch n r s k = rmatch m r s k.
Proof.
  induction r as [|p|a IHa b IHb|a IHa b IHb|a IHa|a IHa|]; cbn [uses_bos]; intros Hb s k;
    try apply orb_false_iff in Hb as [Ha Hb']; cbn [rmatch]; try done.
  - rewrite (IHa Ha). apply rmatch_ext. intros s' _. by apply IHb.
  - by rewrite (IHa Ha), (IHb Hb').
  - generalize (length s). intros fuel. revert s.
    induction fuel as [|fuel IH]; intros s; cbn [star_loop]; [done|].
    f_equal. rewrite (IHa Hb). apply rmatch_ext. intros s' _. by rewrite IH.
  - by rewrite (IHa Hb).
Qed.

Lemma search_no_bos n m r s : uses_bos r = false -> search n r s = search m r s.
Proof.
  intros Hb. induction s as [|c s IH]; cbn [search].
  - by rewrite (rmatch_no_bos n m r Hb).
  - by rewrite (rmatch_no_bos n m r Hb), IH.
Qed.

Lemma test_cons r c s :
  uses_bos r = false -> rmatch 0 r (c :: s) (fun _ => true) = false ->
  test r (c :: s) = test r s.
Proof.
  intros Hb Hc. unfold test. cbn [search length].
  by rewrite (rmatch_no_bos _ 0 r Hb), Hc, (search_no_bos _ (length s) r s Hb).
Qed.

Lemma traversalPatterns_slash d :
  existsb (fun pattern => test pattern (SLASH :: d)) traversalPatterns
  = existsb (fun pattern => test pattern d) traversalPatterns.
Proof.
  unfold traversalPatterns. cbn [existsb].
  by rewrite !test_cons by reflexivity.
Qed.

(** X3. Leading slashes are ignored: an absolute input names the same
    workspace path as the input without its first slash, and is rejected
    in the same cases with the same message. *)
Theorem sanitizePath_leading_slash cwd userPath :
  sanitizePath cwd (SLASH :: userPath) = sanitizePath cwd userPath.
Proof.
  rewrite !sanitizePath_steps.
  rewrite decode_input_cons_slash, traversalPatterns_slash, segments_slash.
  reflexivity.
Qed.

Lemma to_upper_percent c : to_upper c = PERCENT -> c = PERCENT.
Proof.
  unfold to_upper, PERCENT.
  destruct ((97 <=? c) && (c <=? 122)) eqn:H; [|done].
  apply andb_true_iff in H as [H1 H2]. apply N.leb_le in H1, H2. lia.
Qed.

Lemma search_first_char n f b s :
  (forall c, In c s -> f c = false) -> search n (Seq (Chr f) b) s = false.
Proof.
  induction s as [|c s IH]; intros Hf; [reflexivity|].
  cbn [search rmatch]. rewrite (Hf c) by (by left). cbn [andb orb].
  apply IH. intros c' Hc'. apply Hf. by right.
Qed.

Lemma search_dots_backslash n s :
  includes PosixPath.dotdot s = false -> search n (Seq (l "..") (chr 92)) s = false.
Proof.
  induction s as [|c s IH]; [reflexivity|].
  cbn [includes search]. intros H. apply orb_false_iff in H as [Hst Hin].
  rewrite (IH Hin), orb_false_r.
  change (l "..") with (Seq (chr DOT) (chr DOT)). cbn [rmatch chr].
  unfold PosixPath.dotdot in Hst. cbn [startsWith] in Hst.
  destruct (DOT =? c); [|reflexivity]. destruct s as [|c2 s]; [reflexivity|].
  cbn [andb] in *. destruct (DOT =? c2); [discriminate Hst|reflexivity].
Qed.

Lemma traversalPatterns_plain s :
  ~ In PERCENT s ->
  existsb (fun pattern => test pattern s) traversalPatterns
  = includes PosixPath.dotdot s.
Proof.
  intros Hp. unfold traversalPatterns. cbn [existsb]. unfold test.
  rewrite !search_dotdot.
  assert (Hesc : forall c, In c s -> (to_upper c =? to_upper PERCENT) = false).
  { intros c Hc. apply N.eqb_neq. intros E. apply to_upper_percent in E. congruence. }
  change (lit_ci (js "%2e%2e")) with
    (Seq (Chr (fun x => to_upper x =? to_upper PERCENT)) (lit_ci (js "2e%2e"))).
  change (lit_ci (js "%252e")) with
    (Seq (Chr (fun x => to_upper x =? to_upper PERCENT)) (lit_ci (js "252e"))).
  rewrite !search_first_char by done.
  destruct (includes PosixPath.dotdot s) eqn:Hin; [reflexivity|].
  by rewrite search_dots_backslash.
Qed.

Lemma decode_input_plain s : ~ In PERCENT s -> decode_input s = s.
Proof.
  intros Hp. unfold decode_input. cbn [decode_rounds].
  by rewrite decodeURIComponent_no_escape, str_eqb_refl.
Qed.

(** X4. For a path that holds no percent sign nothing is decoded and only
    the first pattern can match: the path is accepted exactly when it
    holds neither a null character nor two dots in a row, and the result
    is the workspace root followed by its own segments, empty ones and
    single dots left out. *)
Theorem sanitizePath_without_escapes cwd userPath :
  ~ In PERCENT userPath ->
  sanitizePath cwd userPath =
    if includes [0] userPath then
      Throw (pathError (js "Null byte detected in path"))
    else if includes PosixPath.dotdot userPath then
      Throw (pathError (js "Path traversal pattern detected"))
    else Ok (workspace_path (segments userPath)).
Proof.
  intros Hp. rewrite sanitizePath_steps.
  by rewrite decode_input_plain, traversalPatterns_plain.
Qed.

Lemma sanitizePath_without_escapes_witness :
  sanitizePath (js "/srv/app") (js "/a/./b//c.txt") = Ok (js "/workspace/a/b/c.txt").
Proof.
  apply (sanitizePath_without_escapes (js "/srv/app") (js "/a/./b//c.txt")).
  intros Hin. simpl in Hin.
  repeat (destruct Hin as [Hin|Hin]; [discriminate Hin|]). exact Hin.
Defined.

Lemma workspace_path_root segs :
  str_eqb (workspace_path segs) WORKSPACE_ROOT = match segs with [] => true | _ => false end.
Proof.
  destruct segs as [|seg segs]; [reflexivity|].
  apply str_eqb_neq. intros E.
  assert (Hlen : length (workspace_path (seg :: segs)) = length WORKSPACE_ROOT)
    by (by rewrite E).
  unfold workspace_path in Hlen.
  change (join [SLASH] (js "workspace" :: seg :: segs))
    with (js "workspace" ++ SLASH :: join [SLASH] (seg :: segs)) in Hlen.
  cbn [length] in Hlen. rewrite length_app in Hlen. cbn in Hlen. lia.
Qed.

(** X5. Writing and deleting are refused exactly when the decoded text
    has no segment left, as for the empty path, a single dot or a single
    slash, which all name the workspace root; reading and listing accept
    whatever [sanitizePath] accepts. *)
Theorem validatePathForOperation_closed_form cwd userPath op :
  validatePathForOperation cwd userPath op =
    match sanitizePath cwd userPath with
    | Throw e => Throw e
    | Ok sanitized =>
        match segments (decode_input userPath), op with
        | [], OpDelete => Throw (pathError (js "Cannot delete workspace root"))
        | [], OpWrite =>
            Throw (pathError (js "Cannot write to workspace root directory"))
        | _, _ => Ok sanitized
        end
    end.
Proof.
  unfold validatePathForOperation. rewrite sanitizePath_steps.
  destruct (includes [0] userPath); [reflexivity|].
  destruct (existsb _ traversalPatterns); [reflexivity|].
  rewrite workspace_path_root.
  by destruct (segments (decode_input userPath)), op.
Qed.

End PathShapeFacts.

(** ** The runtimes: what [execute] raises and leaves behind *)

Section ExecuteFacts.
Import Runtimes.

Lemma try_rethrow {A} (m : Eff.M World A) language w e w' :
  Eff.try_catch m (rethrow language) w = (Throw e, w') ->
  exists inner, e = mkError PlainError
                      (js language ++ js " execution failed: " ++ err_message inner).
Proof.
  unfold Eff.try_catch, rethrow, Eff.throw.
  destruct (m w) as [[r|inner] w1]; [intros H; discriminate H|].
  intros [= <- _]. eauto.
Qed.

(** X6. Whatever goes wrong inside [execute], in the validator, while
    the file is written or while the command runs, the caller sees a
    plain [Error] whose message begins with the name of the language
    followed by [execution failed:]; no other class of error leaves an
    adapter. *)
Theorem execute_raises_only_wrapped_errors env a code ctx w e w' :
  execute env a code ctx w = (Throw e, w') ->
  err_class e = PlainError
  /\ startsWith (js (display_name a) ++ js " execution failed: ") (err_message e) = true.
Proof.
  intros H.
  assert (Hwrap : exists inner,
    e = mkError PlainError
          (js (display_name a) ++ js " execution failed: " ++ err_message inner)).
  { destruct a;
      cbv [execute python_execute javascript_execute bash_execute execute_inline
           typescript_execute go_execute rust_execute] in H;
      unfold Eff.bind at 1 in H; cbn [Eff.now] in H;
      by apply try_rethrow in H. }
  destruct Hwrap as [inner ->]. split; [reflexivity|].
  cbn [err_message]. rewrite app_assoc. apply startsWith_app.
Qed.

Lemma execute_raises_only_wrapped_errors_witness :
  err_class (mkError PlainError (js "Bash execution failed: Execution timeout"))
    = PlainError
  /\ startsWith (js (display_name Bash) ++ js " execution failed: ")
       (err_message
          (mkError PlainError (js "Bash execution failed: Execution timeout"))) = true.
Proof.
  apply (execute_raises_only_wrapped_errors timing_out Bash (js "echo hi")
           plain_context fresh_world
           (mkError PlainError (js "Bash execution failed: Execution timeout"))
           (snd (execute timing_out Bash (js "echo hi") plain_context fresh_world))).
  vm_compute. reflexivity.
Defined.

(** X7. The outcome of removing the temporary files is never looked at:
    with any other behaviour of [deleteFile], every adapter returns the
    same result, raises the same error and issues the same calls. *)
Theorem execute_ignores_cleanup_outcome env deleteFile' a code ctx w :
  execute (mkEnv (env_now env) (env_random env) (env_exec env) (env_putFile env)
             deleteFile') a code ctx w
  = execute env a code ctx w.
Proof.
  destruct a;
    cbv [execute python_execute javascript_execute bash_execute execute_inline
         typescript_execute go_execute rust_execute getTempFilePath
         Eff.try_catch Eff.bind Eff.now Eff.random Eff.lift Eff.ret Eff.exec
         Eff.putFile Eff.deleteFile Eff.issue Eff.ignore_errors rethrow Eff.throw];
    cbn [env_now env_random env_exec env_putFile env_deleteFile calls reads];
    repeat case_match; simplify_eq; reflexivity.
Qed.

Ltac run_execute :=
  cbv [execute python_execute javascript_execute bash_execute execute_inline
       typescript_execute go_execute rust_execute getTempFilePath
       Eff.try_catch Eff.bind Eff.now Eff.random Eff.lift Eff.ret Eff.exec
       Eff.putFile Eff.deleteFile Eff.issue Eff.ignore_errors rethrow Eff.throw];
  cbn [calls reads].

(** X8. When the command that runs or compiles the program raises, as
    on a timeout, the runtimes that work through a file have written it
    and remove nothing: the two calls issued are the [putFile] and the
    command, and the error comes back wrapped. *)
Theorem execute_leaves_file_when_run_raises env a code ctx w err :
  a = TypeScript \/ a = Go \/ a = Rust ->
  validateCode (BLOCKLIST a) code = Ok tt ->
  (forall h p c, env_putFile env h p c = Ok tt) ->
  (forall h cmd o, env_exec env h cmd o = Throw err) ->
  exists path content command options w',
    execute env a code ctx w
    = (Throw (mkError PlainError
                (js (display_name a) ++ js " execution failed: " ++ err_message err)),
       w')
    /\ calls w' = calls w ++ [CallPutFile path content; CallExec command options].
Proof.
  intros Ha Hv Hput Hexec.
  destruct Ha as [-> | [-> | ->]]; cbn [BLOCKLIST] in Hv; run_execute;
    rewrite Hv, Hput, Hexec; cbn [calls reads]; do 5 eexists;
    (split; [reflexivity|]); cbn [calls]; by rewrite <- app_assoc.
Qed.

Lemma execute_leaves_file_when_run_raises_witness :
  exists path content command options w',
    execute timing_out TypeScript (js "console.log(1)") plain_context fresh_world
    = (Throw (mkError PlainError
                (js (display_name TypeScript) ++ js " execution failed: "
                 ++ err_message (mkError PlainError (js "Execution timeout")))),
       w')
    /\ calls w' = calls fresh_world ++ [CallPutFile path content; CallExec command options].
Proof.
  apply (execute_leaves_file_when_run_raises timing_out TypeScript
           (js "console.log(1)") plain_context fresh_world
           (mkError PlainError (js "Execution timeout"))).
  - left. reflexivity.
  - vm_compute. reflexivity.
  - reflexivity.
  - reflexivity.
Defined.

(** X9. A Rust program that does not compile: the result carries the
    exit code and the output of the compiler, with the error text behind
    the line [Compilation failed:]; nothing is thrown, the binary is
    never run, and neither the source file nor the binary is removed. *)
Theorem rust_execute_compile_failure env code ctx w cr :
  validateCode RUST_BLOCKLIST code = Ok tt ->
  (forall h p c, env_putFile env h p c = Ok tt) ->
  (forall h file binary o,
     env_exec env h [js "rustc"; file; js "-o"; binary] o = Ok cr) ->
  exitCode cr <> 0%Z ->
  exists tempFile binaryFile options elapsed w',
    rust_execute env code ctx w
    = (Ok (mkExecutionResult (stdout cr)
             (js "Compilation failed:" ++ [LF] ++ stderr cr) (exitCode cr) elapsed),
       w')
    /\ calls w' = calls w ++ [CallPutFile tempFile (rust_wrapInMain code);
                              CallExec [js "rustc"; tempFile; js "-o"; binaryFile]
                                options].
Proof.
  intros Hv Hput Hexec Hfail. run_execute.
  rewrite Hv, Hput, Hexec. apply Z.eqb_neq in Hfail. rewrite Hfail.
  cbn [negb calls reads]. do 5 eexists.
  split; [reflexivity|]. cbn [calls]. by rewrite <- app_assoc.
Qed.

Lemma rust_execute_compile_failure_witness :
  exists tempFile binaryFile options elapsed w',
    rust_execute rejecting_compiler (js "fn main() { let x = ; }") plain_context
      fresh_world
    = (Ok (mkExecutionResult []
             (js "Compilation failed:" ++ [LF] ++ js "error: expected item") 1 elapsed),
       w')
    /\ calls w' = [CallPutFile tempFile (rust_wrapInMain (js "fn main() { let x = ; }"));
                   CallExec [js "rustc"; tempFile; js "-o"; binaryFile] options].
Proof.
  apply (rust_execute_compile_failure rejecting_compiler
           (js "fn main() { let x = ; }") plain_context fresh_world
           (mkExecResult [] (js "error: expected item") 1 0)).
  - vm_compute. reflexivity.
  - reflexivity.
  - reflexivity.
  - simpl. lia.
Defined.

End ExecuteFacts.

(** ** Installing packages *)

Section PackagesFacts.
Import Runtimes Packages.

Lemma search_bos_later n a s : (length s < n)%nat -> search n (Seq Bos a) s = false.
Proof.
  induction s as [|c s IH]; intros Hlen; cbn [search rmatch].
  - assert (Hne : (length (@nil N) =? n)%nat = false) by (apply Nat.eqb_neq; lia).
    by rewrite Hne.
  - assert (Hne : (length (c :: s) =? n)%nat = false) by (apply Nat.eqb_neq; lia).
    rewrite Hne. cbn [andb orb]. apply IH. cbn [length] in Hlen. lia.
Qed.

Lemma star_class_to_end n cls s :
  rmatch n (Star (Chr cls)) s (fun rest => rmatch n Eos rest (fun _ => true))
  = forallb cls s.
Proof.
  induction s as [|c s IH]; rewrite rmatch_star.
  - reflexivity.
  - cbv beta.
    change (rmatch n Eos (c :: s) (fun _ => true)) with false.
    change (rmatch n (Chr cls) (c :: s) ?K) with (cls c && K s).
    cbv beta. rewrite IH.
    assert (Hlt : (length s <? length (c :: s))%nat = true)
      by (apply Nat.ltb_lt; cbn [length]; lia).
    by rewrite Hlt.
Qed.

(** The anchored class pattern holds exactly for the non-empty texts
    made of characters of the class. *)
Lemma test_whole cls s :
  test (whole cls) s = negb (str_eqb s []) && forallb cls s.
Proof.
  unfold test, whole, Plus. cbn [seqs]. destruct s as [|c s].
  - reflexivity.
  - cbn [search]. rewrite search_bos_later by (cbn [length]; lia).
    rewrite orb_false_r.
    change (rmatch ?n (Seq Bos ?x) ?t ?k) with ((length t =? n)%nat && rmatch n x t k).
    rewrite Nat.eqb_refl. cbn [andb].
    change (rmatch ?n (Seq (Seq (Chr cls) (Star (Chr cls))) Eos) (c :: s) ?k)
      with (cls c && rmatch n (Star (Chr cls)) s (fun rest => rmatch n Eos rest k)).
    rewrite star_class_to_end. reflexivity.
Qed.

Lemma validatePackageNames_step blocked cls pkg more :
  validatePackageNames blocked cls (pkg :: more) =
    if blocked pkg then Throw (not_allowed pkg)
    else if negb (str_eqb pkg []) && forallb cls pkg
         then validatePackageNames blocked cls more
         else Throw (invalid_name pkg).
Proof.
  cbn [validatePackageNames]. rewrite test_whole.
  by destruct (blocked pkg), (negb (str_eqb pkg []) && forallb cls pkg).
Qed.

(** X10. The names a runtime accepts: a list passes [validatePackageNames]
    exactly when every name is off the runtime's blocklist, is not empty
    and holds only characters of the runtime's class; nothing else, such
    as a space, a semicolon, a version constraint or a line break, gets
    through. *)
Theorem validatePackageNames_accepts blocked cls packages :
  is_ok (validatePackageNames blocked cls packages)
  = forallb (fun pkg => negb (blocked pkg) && negb (str_eqb pkg []) && forallb cls pkg)
      packages.
Proof.
  induction packages as [|pkg more IH]; [reflexivity|].
  rewrite validatePackageNames_step. cbn [forallb].
  destruct (blocked pkg); [reflexivity|].
  destruct (negb (str_eqb pkg []) && forallb cls pkg) eqn:Hok; cbn [negb andb].
  - rewrite Hok. exact IH.
  - by rewrite Hok.
Qed.

Ltac run_install :=
  cbv [installPackages python_installPackages typescript_installPackages
       javascript_installPackages bash_installPackages install_at_once
       go_installPackages rust_installPackages guarded failure installed report
       finish_each
       Eff.try_catch Eff.bind Eff.now Eff.lift Eff.ret Eff.exec
       Eff.putFile Eff.issue Eff.throw];
  cbn [calls reads].

(** X11. A request that names one package the validator refuses reaches
    the container with nothing: no file is written and no command is
    run, for any runtime; the refusal comes back as a failed
    [InstallResult] that carries the validator's message, not as an
    exception. *)
Theorem installPackages_refused_names_reach_nothing env toLowerCase a packages w e :
  validator toLowerCase a packages = Throw e ->
  installPackages env toLowerCase a packages w
  = (Ok (PackageCache.mkInstallResult false false
           (env_now env (S (reads w)) - env_now env (reads w)) []
           (Some [err_message e])),
     mkWorld (calls w) (S (S (reads w)))).
Proof.
  intros Hv. destruct a; cbn [validator] in Hv; run_install; rewrite Hv; reflexivity.
Qed.

Lemma installPackages_refused_names_reach_nothing_witness :
  installPackages quiet_env ascii_lower Rust [js "serde"; js "x; rm -rf /"] fresh_world
  = (Ok (PackageCache.mkInstallResult false false
           (env_now quiet_env 1 - env_now quiet_env 0) []
           (Some [err_message (invalid_name (js "x; rm -rf /"))])),
     mkWorld [] 2).
Proof.
  apply (installPackages_refused_names_reach_nothing quiet_env ascii_lower Rust
           [js "serde"; js "x; rm -rf /"] fresh_world (invalid_name (js "x; rm -rf /"))).
  vm_compute. reflexivity.
Defined.


Lemma failure_outcome env startTime message valid packages w res w' :
  failure env startTime message w = (Ok res, w') -> install_outcome valid packages res.
Proof.
  cbv [failure Eff.bind Eff.now Eff.ret]. intros [= <- _].
  split; [reflexivity|]. cbn. eauto.
Qed.

Lemma installed_outcome env startTime packages w res w' :
  installed env startTime packages w = (Ok res, w') -> install_outcome true packages res.
Proof.
  cbv [installed Eff.bind Eff.now Eff.ret]. intros [= <- _].
  split; [reflexivity|]. cbn. eauto.
Qed.

Lemma report_outcome env startTime packages r w res w' :
  report env startTime packages r w = (Ok res, w') -> install_outcome true packages res.
Proof.
  unfold report. destruct (negb (exitCode r =? 0)%Z).
  - apply failure_outcome.
  - apply installed_outcome.
Qed.

Lemma install_each_outcome env command startTime valid all packages : forall w early w',
  install_each env command startTime packages w = (Ok early, w') ->
  match early with Some res => install_outcome valid all res | None => True end.
Proof.
  induction packages as [|pkg more IH]; intros w early w'.
  - cbn. by intros [= <- _].
  - cbn [install_each]. unfold Eff.bind at 1.
    destruct (Eff.exec env (command pkg) no_options w) as [[r|e] w1];
      [|intros H; discriminate H].
    destruct (negb (exitCode r =? 0)%Z).
    + unfold Eff.bind.
      destruct (failure env startTime (stderr r) w1) as [[res|e] w2] eqn:Hf;
        [|intros H; discriminate H].
      cbn. intros [= <- _]. by eapply failure_outcome.
    + apply IH.
Qed.

Lemma finish_each_outcome env command startTime packages w res w' :
  finish_each env command startTime packages w = (Ok res, w') ->
  install_outcome true packages res.
Proof.
  unfold finish_each. unfold Eff.bind at 1.
  destruct (install_each env command startTime packages w) as [[early|e] w1] eqn:He;
    [|intros H; discriminate H].
  pose proof (install_each_outcome _ _ _ true packages _ _ _ _ He) as Hshape.
  destruct early as [res'|].
  - cbn. by intros [= <- _].
  - apply installed_outcome.
Qed.

Lemma guarded_outcome env startTime body valid packages w :
  (forall res w1, body w = (Ok res, w1) -> install_outcome valid packages res) ->
  exists res w', guarded env startTime body w = (Ok res, w')
                 /\ install_outcome valid packages res.
Proof.
  intros Hbody. unfold guarded, Eff.try_catch.
  destruct (body w) as [[res|e] w1] eqn:Hb.
  - exists res, w1. split; [reflexivity|]. by eapply Hbody.
  - destruct (failure env startTime (err_message e) w1) as [r w2] eqn:Hf.
    assert (Hok : exists res, r = Ok res).
    { revert Hf. cbv [failure Eff.bind Eff.now Eff.ret]. intros [= <- _]. eauto. }
    destruct Hok as [res ->]. exists res, w2. split; [reflexivity|].
    by eapply failure_outcome.
Qed.

(** X12. [installPackages] never raises, whatever the container does:
    every run ends with an [InstallResult] that is not from the cache;
    a success lists exactly the requested packages, which all passed the
    validator, and no error; a failure lists no package, also when some
    were installed before the failing one, and exactly one error. *)
Theorem installPackages_always_reports env toLowerCase a packages w :
  exists res w',
    installPackages env toLowerCase a packages w = (Ok res, w')
    /\ install_outcome (is_ok (validator toLowerCase a packages)) packages res.
Proof.
  assert (Hlift : forall (validate : list jsstring -> result unit)
                    (rest : Eff.M World PackageCache.InstallResult) w0,
    (forall res w1, rest w0 = (Ok res, w1) -> install_outcome true packages res) ->
    forall res w1,
      (let* _ := Eff.lift (validate packages) in rest) w0 = (Ok res, w1) ->
      install_outcome (is_ok (validate packages)) packages res).
  { intros validate rest w0 Hrest res w1. cbv [Eff.bind Eff.lift].
    destruct (validate packages); [|intros H; discriminate H]. apply Hrest. }
  assert (Hexec : forall cmd (k : ExecResult -> Eff.M World PackageCache.InstallResult) w0,
    (forall r w1 res w2, k r w1 = (Ok res, w2) -> install_outcome true packages res) ->
    forall res w1,
      (let* r := Eff.exec env cmd no_options in k r) w0 = (Ok res, w1) ->
      install_outcome true packages res).
  { intros cmd k w0 Hk res w1. unfold Eff.bind.
    destruct (Eff.exec env cmd no_options w0) as [[r|e] w2]; [|intros H; discriminate H].
    apply Hk. }
  destruct a;
    cbv [installPackages validator python_installPackages typescript_installPackages
         javascript_installPackages bash_installPackages install_at_once
         go_installPackages rust_installPackages];
    unfold Eff.bind at 1; cbn [Eff.now];
    apply guarded_outcome; apply Hlift.
  - intros res w1. unfold Eff.bind at 1.
    destruct (Eff.putFile _ _ _ _) as [[u|e] w2]; [|intros H; discriminate H].
    apply Hexec. intros r w3 res' w4. apply report_outcome.
  - intros res w1. unfold Eff.bind at 1.
    destruct (Eff.putFile _ _ _ _) as [[u|e] w2]; [|intros H; discriminate H].
    apply Hexec. intros r w3 res' w4. apply report_outcome.
  - apply Hexec. intros _ w2. apply Hexec. intros r w3 res' w4. apply report_outcome.
  - apply Hexec. intros _ w2. apply Hexec. intros r w3 res' w4. apply report_outcome.
  - apply Hexec. intros _ w2 res w3. apply finish_each_outcome.
  - apply Hexec. intros r w2 res w3. unfold Eff.bind at 1.
    destruct (negb (exitCode r =? 0)%Z).
    + destruct (Eff.putFile _ _ _ _) as [[u|e] w4]; [|intros H; discriminate H].
      apply finish_each_outcome.
    + cbn [Eff.ret]. apply finish_each_outcome.
  - apply Hexec. intros _ w2. apply Hexec. intros r w3 res' w4. apply report_outcome.
Qed.

Lemma validatePackageNames_ok blocked cls packages :
  validatePackageNames blocked cls packages = Ok tt ->
  Forall (fun pkg => blocked pkg = false /\ pkg <> [] /\ forallb cls pkg = true) packages.
Proof.
  induction packages as [|pkg more IH]; [constructor|].
  rewrite validatePackageNames_step.
  destruct (blocked pkg) eqn:Hb; [intros H; discriminate H|].
  destruct (negb (str_eqb pkg []) && forallb cls pkg) eqn:Hok; [|intros H; discriminate H].
  apply andb_true_iff in Hok as [Hne Hcls]. apply negb_true_iff, str_eqb_neq in Hne.
  intros Hmore. constructor; [by repeat split|by apply IH].
Qed.

Lemma In_take {A} (x : A) n : forall xs, In x (take n xs) -> In x xs.
Proof.
  induction n as [|n IH]; intros [|y xs]; cbn; try done.
  intros [->|H]; [by left|right; by apply IH].
Qed.

(** The loop issues its commands in the order of the list, for the
    packages up to the one that stops it. *)
Lemma install_each_calls env command startTime packages : forall w,
  exists n, calls (snd (install_each env command startTime packages w))
            = calls w ++ map (fun pkg => CallExec (command pkg) no_options)
                           (take n packages).
Proof.
  induction packages as [|pkg more IH]; intros w.
  - exists O. cbn. by rewrite app_nil_r.
  - cbn [install_each]. cbv [Eff.bind Eff.exec Eff.issue].
    destruct (env_exec env (calls w) (command pkg) no_options) as [r|e].
    + destruct (negb (exitCode r =? 0)%Z).
      * exists 1%nat. reflexivity.
      * destruct (IH (mkWorld (calls w ++ [CallExec (command pkg) no_options]) (reads w)))
          as [n Hn].
        exists (S n). rewrite Hn. cbn [calls take map]. by rewrite <- app_assoc.
    + exists 1%nat. reflexivity.
Qed.

Lemma finish_each_calls env command startTime packages w :
  exists n, calls (snd (finish_each env command startTime packages w))
            = calls w ++ map (fun pkg => CallExec (command pkg) no_options)
                           (take n packages).
Proof.
  destruct (install_each_calls env command startTime packages w) as [n Hn].
  exists n. unfold finish_each, Eff.bind.
  destruct (install_each env command startTime packages w) as [[[res|]|e] w1];
    cbn [snd] in *; exact Hn.
Qed.

Lemma guarded_calls env startTime body w :
  calls (snd (guarded env startTime body w)) = calls (snd (body w)).
Proof.
  unfold guarded, Eff.try_catch. by destruct (body w) as [[res|e] w1].
Qed.

(** X13. The text handed to the shell by the Rust installer: every
    command line is [cargo add] followed by one requested name that is
    not empty and holds only letters, digits, [_] and [-], so that no
    character with a meaning for the shell reaches [sh -c]; the other
    calls are the test for [Cargo.toml] and the writing of its fixed
    first content. *)
Theorem rust_installPackages_shell_commands env packages w :
  exists new,
    calls (snd (rust_installPackages env packages w)) = calls w ++ new
    /\ Forall (cargo_call packages) new.
Proof.
  unfold rust_installPackages. unfold Eff.bind at 1. cbn [Eff.now].
  rewrite guarded_calls. cbv [Eff.bind Eff.lift]. cbn [calls].
  destruct (rust_validatePackageNames packages) as [[]|e] eqn:Hv.
  2:{ exists []. split; [by rewrite app_nil_r|constructor]. }
  apply validatePackageNames_ok in Hv.
  assert (Hloop : forall n,
    Forall (cargo_call packages)
      (map (fun pkg => CallExec (cargo_add pkg) no_options) (take n packages))).
  { intros n. apply List.Forall_forall. intros c Hc.
    apply in_map_iff in Hc as (pkg & <- & Hin). apply In_take in Hin.
    rewrite List.Forall_forall in Hv. destruct (Hv pkg Hin) as (_ & Hne & Hcls).
    right; right. exists pkg. done. }
  cbv [Eff.exec Eff.issue]. cbn [calls reads].
  destruct (env_exec env (calls w) [js "test"; js "-f"; js "Cargo.toml"] no_options)
    as [r|e].
  2:{ exists [CallExec [js "test"; js "-f"; js "Cargo.toml"] no_options].
      split; [reflexivity|]. repeat constructor. }
  destruct (negb (exitCode r =? 0)%Z).
  - cbv [Eff.putFile Eff.issue]. cbn [calls reads].
    destruct (env_putFile env _ (js "/workspace/Cargo.toml") CARGO_TOML) as [[]|e].
    + match goal with |- context [finish_each env cargo_add ?st packages ?w0] =>
        destruct (finish_each_calls env cargo_add st packages w0) as [n ->] end.
      cbn [calls]. eexists. rewrite <- !app_assoc. split; [reflexivity|].
      constructor; [by left|]. constructor; [right; by left|]. by apply Hloop.
    + cbn [snd calls]. eexists. rewrite <- !app_assoc. split; [reflexivity|].
      constructor; [by left|]. constructor; [right; by left|]. constructor.
  - cbn [Eff.ret].
    match goal with |- context [finish_each env cargo_add ?st packages ?w0] =>
      destruct (finish_each_calls env cargo_add st packages w0) as [n ->] end.
    cbn [calls]. eexists. rewrite <- !app_assoc. split; [reflexivity|].
    constructor; [by left|]. by apply Hloop.
Qed.

Lemma install_each_stops env reply command startTime before pkg after :
  (forall h cmd o, env_exec env h cmd o = Ok (reply cmd)) ->
  Forall (fun p => exitCode (reply (command p)) = 0%Z) before ->
  exitCode (reply (command pkg)) <> 0%Z ->
  forall w,
    install_each env command startTime (before ++ pkg :: after) w
    = (Ok (Some (PackageCache.mkInstallResult false false
                   (env_now env (reads w) - startTime) []
                   (Some [stderr (reply (command pkg))]))),
       mkWorld (calls w ++ map (fun p => CallExec (command p) no_options) (before ++ [pkg]))
               (S (reads w))).
Proof.
  intros Hexec Hbefore Hfail. induction Hbefore as [|p before Hp _ IH]; intros w.
  - cbn [app install_each]. cbv [Eff.bind Eff.exec Eff.issue]. rewrite Hexec.
    apply Z.eqb_neq in Hfail. rewrite Hfail. reflexivity.
  - cbn [app install_each]. cbv [Eff.bind Eff.exec Eff.issue]. rewrite Hexec, Hp.
    cbn [Z.eqb negb]. rewrite IH. cbn [calls reads map]. by rewrite <- app_assoc.
Qed.

(** X14. The Go installer stops at the first module that [go get]
    refuses: the modules before it have been fetched, those after it are
    never asked for, and the result reports a failure with the error
    text of that command and an empty list of installed packages. *)
Theorem go_installPackages_stops_at_first_failure env reply before pkg after w :
  go_validatePackageNames (before ++ pkg :: after) = Ok tt ->
  (forall h cmd o, env_exec env h cmd o = Ok (reply cmd)) ->
  Forall (fun p => exitCode (reply (go_get p)) = 0%Z) before ->
  exitCode (reply (go_get pkg)) <> 0%Z ->
  exists elapsed w',
    go_installPackages env (before ++ pkg :: after) w
    = (Ok (PackageCache.mkInstallResult false false elapsed []
             (Some [stderr (reply (go_get pkg))])), w')
    /\ calls w'
       = calls w
         ++ CallExec [js "sh"; js "-c"; js "test -f go.mod || go mod init sandbox"]
              no_options
         :: map (fun p => CallExec (go_get p) no_options) (before ++ [pkg]).
Proof.
  intros Hv Hexec Hbefore Hfail.
  cbv [go_installPackages guarded finish_each Eff.try_catch Eff.bind Eff.now Eff.lift].
  rewrite Hv. cbv [Eff.exec Eff.issue]. rewrite Hexec. cbn [calls reads].
  rewrite (install_each_stops env reply go_get _ before pkg after Hexec Hbefore Hfail).
  cbn [Eff.ret calls reads]. do 2 eexists. split; [reflexivity|].
  cbn [calls]. by rewrite <- app_assoc.
Qed.

Lemma go_installPackages_stops_at_first_failure_witness :
  exists elapsed w',
    go_installPackages (missing_module (js "example.com/gone"))
      ([js "example.com/a"] ++ js "example.com/gone" :: [js "example.com/b"]) fresh_world
    = (Ok (PackageCache.mkInstallResult false false elapsed []
             (Some [stderr (mkExecResult [] (js "go: module not found") 1 0)])), w')
    /\ calls w'
       = calls fresh_world
         ++ CallExec [js "sh"; js "-c"; js "test -f go.mod || go mod init sandbox"]
              no_options
         :: map (fun p => CallExec (go_get p) no_options)
              ([js "example.com/a"] ++ [js "example.com/gone"]).
Proof.
  apply (go_installPackages_stops_at_first_failure
           (missing_module (js "example.com/gone"))
           (fun cmd => if existsb (str_eqb (js "example.com/gone")) cmd
                       then mkExecResult [] (js "go: module not found") 1 0
                       else mkExecResult [] [] 0 0)
           [js "example.com/a"] (js "example.com/gone") [js "example.com/b"]
           fresh_world).
  - vm_compute. reflexivity.
  - reflexivity.
  - repeat constructor.
  - vm_compute. discriminate.
Defined.

Lemma class_excludes (cls : N -> bool) c s : cls c = false -> forallb cls s = true -> ~ In c s.
Proof.
  intros Hc Hall Hin. rewrite forallb_forall in Hall. specialize (Hall c Hin). congruence.
Qed.

(** X15. The requirements file of the Python installer: when the names
    pass the validator, the text written to [/tmp/requirements.txt]
    splits at its line breaks into exactly the requested names, in
    order, so that [pip] reads one requirement for each name and no
    other line. *)
Theorem python_installPackages_requirements env toLowerCase packages w :
  packages <> [] ->
  python_validatePackageNames toLowerCase packages = Ok tt ->
  exists content rest,
    calls (snd (python_installPackages env toLowerCase packages w))
    = calls w ++ CallPutFile (js "/tmp/requirements.txt") content :: rest
    /\ split LF content = packages.
Proof.
  intros Hne Hv. exists (join [LF] packages).
  assert (Hlines : split LF (join [LF] packages) = packages).
  { apply split_join; [done|]. apply validatePackageNames_ok in Hv.
    eapply Forall_impl; [exact Hv|]. intros pkg (_ & _ & Hcls).
    by apply (class_excludes python_name). }
  unfold python_installPackages. unfold Eff.bind at 1. cbn [Eff.now].
  rewrite guarded_calls. cbv [Eff.bind Eff.lift]. rewrite Hv.
  cbv [Eff.putFile Eff.issue]. cbn [calls reads].
  destruct (env_putFile env (calls w) (js "/tmp/requirements.txt") (join [LF] packages))
    as [[]|e]; [|by exists []].
  cbv [Eff.exec Eff.issue]. cbn [calls reads].
  destruct (env_exec env _ _ no_options) as [r|e].
  - unfold report. destruct (negb (exitCode r =? 0)%Z);
      cbv [failure installed Eff.bind Eff.now Eff.ret]; cbn [snd calls];
      eexists; (split; [by rewrite <- app_assoc|done]).
  - cbn [snd calls]. eexists. split; [by rewrite <- app_assoc|done].
Qed.

Lemma python_installPackages_requirements_witness :
  exists content rest,
    calls (snd (python_installPackages quiet_env ascii_lower
                  [js "numpy"; js "requests"] fresh_world))
    = calls fresh_world ++ CallPutFile (js "/tmp/requirements.txt") content :: rest
    /\ split LF content = [js "numpy"; js "requests"].
Proof.
  apply (python_installPackages_requirements quiet_env ascii_lower
           [js "numpy"; js "requests"] fresh_world).
  - discriminate.
  - vm_compute. reflexivity.
Defined.

End PackagesFacts.

(** ** One command in a container: frames, end and timeout *)

Section ContainerStreamFacts.
Import ContainerExec ContainerStream.

Lemma demux_frames frames : forall tail out err,
  demux (map frame frames ++ tail) out err
  = demux tail (out ++ text_of true frames) (err ++ text_of false frames).
Proof.
  induction frames as [|[[] chunk] frames IH]; intros tail out err.
  - unfold text_of. cbn. by rewrite !app_nil_r.
  - cbn [map app frame fst snd demux]. rewrite IH. unfold text_of.
    cbn [List.filter fst Bool.eqb map snd concat]. by rewrite <- app_assoc.
  - cbn [map app frame fst snd demux]. rewrite IH. unfold text_of.
    cbn [List.filter fst Bool.eqb map snd concat]. by rewrite <- app_assoc.
Qed.

Lemma exec_body_reaches eng elapsed :
  reaches_stream eng ->
  exec_body eng elapsed =
    match executeWithTimeout (start_exec eng) with
    | None => None
    | Some (Throw e) => Some (Throw e)
    | Some (Ok (out, err)) =>
        match inspect_exit eng with
        | Throw e => Some (Throw e)
        | Ok code =>
            Some (Ok (mkExecResult out err
                        (match code with Some c => c | None => 0%Z end) elapsed))
        end
    end.
Proof.
  intros [[Hrun | [Hrun Hstart]] Hcreate]; unfold exec_body;
    rewrite Hrun; cbn [wrap]; rewrite ?Hstart, Hcreate; reflexivity.
Qed.

(** X16. Output is gathered per stream and in order of arrival: when
    the stream ends, the result holds the stdout frames joined as they
    came and the stderr frames likewise, whatever their interleaving;
    events after the end, such as the timer, change nothing; an exit
    code the engine does not report counts as 0. *)
Theorem exec_gathers_frames_until_end eng elapsed frames later code :
  reaches_stream eng ->
  start_exec eng = Ok (map frame frames ++ StreamEnd :: later) ->
  inspect_exit eng = Ok code ->
  exec eng elapsed
  = Some (Ok (mkExecResult (text_of true frames) (text_of false frames)
                (match code with Some c => c | None => 0%Z end) elapsed)).
Proof.
  intros Hreach Hstream Hexit. unfold exec. rewrite exec_body_reaches by done.
  rewrite Hstream. cbn [executeWithTimeout]. rewrite demux_frames. cbn [demux app].
  by rewrite Hexit.
Qed.

Lemma exec_gathers_frames_until_end_witness :
  exec done_engine 12
  = Some (Ok (mkExecResult (js "ab") (js "warn") 0 12)).
Proof.
  apply (exec_gathers_frames_until_end done_engine 12 interleaved [TimerFired] None).
  - split; [right; split; reflexivity|reflexivity].
  - reflexivity.
  - reflexivity.
Defined.

(** X17. A timer that fires before the stream ends settles the call:
    [Container.exec] raises the plain error [Execution timeout] without
    the usual prefix, the output received so far is dropped, and a later
    end of the stream changes nothing. *)
Theorem exec_timeout_drops_output eng elapsed frames later :
  reaches_stream eng ->
  start_exec eng = Ok (map frame frames ++ TimerFired :: later) ->
  exec eng elapsed = Some (Throw (mkError PlainError (js "Execution timeout"))).
Proof.
  intros Hreach Hstream. unfold exec. rewrite exec_body_reaches by done.
  rewrite Hstream. cbn [executeWithTimeout]. rewrite demux_frames. reflexivity.
Qed.

Lemma exec_timeout_drops_output_witness :
  exec slow_engine 30000 = Some (Throw (mkError PlainError (js "Execution timeout"))).
Proof.
  apply (exec_timeout_drops_output slow_engine 30000 interleaved [StreamEnd]).
  - split; [left; reflexivity|reflexivity].
  - reflexivity.
Defined.

End ContainerStreamFacts.

(** ** The target of [putFile] *)

Section ContainerFilesFacts.
Import ContainerFiles PathValidator PathShape.

Lemma lastIndexOf_absent c s : ~ In c s -> lastIndexOf c s = (-1)%Z.
Proof.
  induction s as [|x s IH]; [done|]. intros Hn. cbn [lastIndexOf].
  rewrite IH by (intros H; apply Hn; by right). cbn.
  destruct (x =? c) eqn:Hx; [|done]. apply N.eqb_eq in Hx. destruct Hn. by left.
Qed.

Lemma lastIndexOf_last c dir name :
  ~ In c name -> lastIndexOf c (dir ++ c :: name) = Z.of_nat (length dir).
Proof.
  intros Hn. induction dir as [|x dir IH].
  - cbn [app lastIndexOf length]. rewrite lastIndexOf_absent by done.
    cbn. by rewrite N.eqb_refl.
  - cbn [app lastIndexOf length]. rewrite IH.
    assert (H0 : (0 <=? Z.of_nat (length dir))%Z = true) by (apply Z.leb_le; lia).
    rewrite H0. lia.
Qed.

Lemma putFile_target_last dir name :
  ~ In SLASH name ->
  entry_name (dir ++ SLASH :: name) = match name with [] => js "file" | _ => name end
  /\ archive_dir (dir ++ SLASH :: name) = match dir with [] => [SLASH] | _ => dir end.
Proof.
  intros Hn. split.
  - unfold entry_name. rewrite split_app, (split_single SLASH name) by done.
    rewrite last_snoc. by destruct name.
  - unfold archive_dir, substring0. rewrite lastIndexOf_last by done.
    rewrite Nat2Z.id, take_app_length. by destruct dir.
Qed.

(** X18. Where a file lands.  For a path that ends in a name behind a
    slash, [putFile] unpacks in the directory before that slash an
    archive whose entry is the name; a path that ends in a slash gets
    the entry name [file]; a path with no slash at all, or with its only
    slash in front, is unpacked in the root directory. *)
Theorem putFile_target dir name :
  ~ In SLASH name ->
  entry_name (dir ++ SLASH :: name) = match name with [] => js "file" | _ => name end
  /\ archive_dir (dir ++ SLASH :: name) = match dir with [] => [SLASH] | _ => dir end
  /\ entry_name name = match name with [] => js "file" | _ => name end
  /\ archive_dir name = [SLASH].
Proof.
  intros Hn. destruct (putFile_target_last dir name Hn) as [H1 H2].
  repeat split; try done.
  - unfold entry_name. rewrite (split_single SLASH name) by done. by destruct name.
  - unfold archive_dir, substring0. by rewrite lastIndexOf_absent.
Qed.

Lemma putFile_target_witness :
  entry_name (js "/workspace/out" ++ SLASH :: js "a.txt") = js "a.txt"
  /\ archive_dir (js "/workspace/out" ++ SLASH :: js "a.txt") = js "/workspace/out"
  /\ entry_name (js "a.txt") = js "a.txt"
  /\ archive_dir (js "a.txt") = [SLASH].
Proof.
  apply (putFile_target (js "/workspace/out") (js "a.txt")).
  intros Hin. simpl in Hin.
  repeat (destruct Hin as [Hin|Hin]; [discriminate Hin|]). exact Hin.
Defined.

Lemma join_snoc sep xs x :
  xs <> [] -> join sep (xs ++ [x]) = join sep xs ++ sep ++ x.
Proof.
  induction xs as [|y xs IH]; [done|]. intros _.
  destruct xs as [|z xs]; [reflexivity|].
  change (join sep ((y :: z :: xs) ++ [x])) with (y ++ sep ++ join sep ((z :: xs) ++ [x])).
  rewrite IH by done.
  change (join sep (y :: z :: xs)) with (y ++ sep ++ join sep (z :: xs)).
  by rewrite <- !app_assoc.
Qed.

Lemma sanitizePath_ok_shape cwd userPath r :
  sanitizePath cwd userPath = Ok r ->
  r = workspace_path (segments (decode_input userPath))
  /\ Forall plain_segment (segments (decode_input userPath)).
Proof.
  rewrite sanitizePath_steps.
  destruct (includes [0] userPath); [intros H; discriminate H|].
  destruct (existsb _ traversalPatterns) eqn:Hpat; [intros H; discriminate H|].
  intros [= <-]. split; [reflexivity|]. apply segments_plain.
  unfold traversalPatterns in Hpat. cbn [existsb] in Hpat.
  apply orb_false_iff in Hpat as [Hpat _]. unfold test in Hpat.
  by rewrite search_dotdot in Hpat.
Qed.

(** X19. From the file tool to the container: for every path that
    [validatePathForOperation] accepts for writing, the directory and
    the entry name [putFile] derives from it give the path back when
    joined by a slash, and the directory is the workspace root or lies
    under it. *)
Theorem write_target_inside_workspace cwd userPath r :
  validatePathForOperation cwd userPath OpWrite = Ok r ->
  archive_dir r ++ SLASH :: entry_name r = r
  /\ under WORKSPACE_ROOT (archive_dir r) = true.
Proof.
  unfold validatePathForOperation.
  destruct (sanitizePath cwd userPath) as [sanitized|e] eqn:Hs; [|intros H; discriminate H].
  destruct (sanitizePath_ok_shape _ _ _ Hs) as [-> Hplain].
  rewrite workspace_path_root.
  destruct (segments (decode_input userPath)) as [|seg segs] eqn:Hsegs;
    [intros H; discriminate H|].
  intros [= <-].
  destruct (exists_last (l := seg :: segs)) as (init & name & Hlast); [done|].
  rewrite Hlast in *. clear Hlast Hsegs seg segs.
  apply Forall_app in Hplain as [_ Hname].
  inversion Hname as [|? ? (Hk & Hslash & _) _]; subst.
  assert (Hpath : workspace_path (init ++ [name])
                  = workspace_path init ++ SLASH :: name).
  { unfold workspace_path.
    change (js "workspace" :: init ++ [name]) with ((js "workspace" :: init) ++ [name]).
    by rewrite join_snoc. }
  rewrite Hpath.
  destruct (putFile_target_last (workspace_path init) name Hslash) as [He Hd].
  assert (Hname' : name <> []) by (intros ->; discriminate Hk).
  assert (He' : entry_name (workspace_path init ++ SLASH :: name) = name)
    by (rewrite He; by destruct name).
  assert (Hd' : archive_dir (workspace_path init ++ SLASH :: name) = workspace_path init)
    by (rewrite Hd; reflexivity).
  rewrite He', Hd'. split; [reflexivity|].
  destruct (workspace_path_under init) as (rest & -> & Hcase). unfold under.
  destruct Hcase as [-> | [rest' ->]].
  - rewrite app_nil_r. reflexivity.
  - change (WORKSPACE_ROOT ++ SLASH :: rest') with ((WORKSPACE_ROOT ++ [SLASH]) ++ rest').
    rewrite startsWith_app. apply orb_true_r.
Qed.

Lemma write_target_inside_workspace_witness :
  archive_dir (js "/workspace/src/main.py") ++ SLASH :: entry_name (js "/workspace/src/main.py")
    = js "/workspace/src/main.py"
  /\ under WORKSPACE_ROOT (archive_dir (js "/workspace/src/main.py")) = true.
Proof.
  apply (write_target_inside_workspace (js "/app") (js "src//main.py")).
  vm_compute. reflexivity.
Defined.

End ContainerFilesFacts.

(** ** The session manager: the two maps stay in step *)

Section JsMapMore.
Context {V : Type}.
Implicit Types m : JsMap.t V.

Lemma jsmap_keys_mutate k (f : V -> V) m : JsMap.keys (JsMap.mutate k f m) = JsMap.keys m.
Proof.
  unfold JsMap.keys. induction m as [|[k0 v] m IH]; [done|]. cbn [JsMap.mutate].
  destruct (str_eqb k0 k); cbn [map fst]; by rewrite ?IH.
Qed.

Lemma jsmap_get_some_keys k m v : JsMap.get k m = Some v -> In k (JsMap.keys m).
Proof.
  induction m as [|[k0 v0] m IH]; [done|]. cbn [JsMap.get JsMap.keys map fst].
  destruct (str_eqb k0 k) eqn:E.
  - apply str_eqb_eq in E. by left.
  - intros H. right. by apply IH.
Qed.

Lemma jsmap_keys_delete_in k k' m :
  In k (JsMap.keys (JsMap.delete k' m)) -> In k (JsMap.keys m).
Proof.
  induction m as [|[k0 v0] m IH]; [done|]. cbn [JsMap.delete].
  destruct (str_eqb k0 k'); cbn [JsMap.keys map fst].
  - intros H. by right.
  - intros [H|H]; [by left|right; by apply IH].
Qed.

Lemma jsmap_keys_delete_nodup k m :
  List.NoDup (JsMap.keys m) -> List.NoDup (JsMap.keys (JsMap.delete k m)).
Proof.
  induction m as [|[k0 v0] m IH]; [done|]. cbn [JsMap.delete JsMap.keys map fst].
  intros Hnd. inversion Hnd as [|? ? Hnotin Hnd']; subst.
  destruct (str_eqb k0 k); [done|]. cbn [map fst]. constructor; [|by apply IH].
  intros Hin. apply Hnotin. by eapply jsmap_keys_delete_in.
Qed.

Lemma jsmap_keys_set_fresh k v m :
  JsMap.get k m = None -> JsMap.keys (JsMap.set k v m) = JsMap.keys m ++ [k].
Proof.
  induction m as [|[k0 v0] m IH]; [done|]. cbn [JsMap.get JsMap.set].
  destruct (str_eqb k0 k); [intros H; discriminate H|].
  intros H. cbn [JsMap.keys map fst app]. f_equal. by apply IH.
Qed.

Lemma jsmap_keys_set_nodup k v m :
  JsMap.get k m = None -> List.NoDup (JsMap.keys m) ->
  List.NoDup (JsMap.keys (JsMap.set k v m)).
Proof.
  intros Hk Hnd. rewrite jsmap_keys_set_fresh by done.
  apply NoDup_ListNoDup, NoDup_app. split; [by apply NoDup_ListNoDup|].
  split; [|apply NoDup_singleton].
  intros x Hx Hx'. apply list_elem_of_singleton in Hx'. subst x.
  apply list_elem_of_In in Hx.
  assert (Hnone : forall m', JsMap.get k m' = None -> ~ In k (JsMap.keys m')).
  { clear. intros m'. induction m' as [|[k0 v0] m' IH]; [by intros _ []|].
    cbn [JsMap.get JsMap.keys map fst]. destruct (str_eqb k0 k) eqn:E;
      [intros H; discriminate H|].
    apply str_eqb_neq in E. intros H [Heq|Hin]; [done|by apply IH]. }
  by apply (Hnone m).
Qed.

End JsMapMore.

Section InStep.
Import SessionManager SessionOps.

Ltac by_key a b :=
  let E := fresh "E" in
  destruct (str_eqb a b) eqn:E;
  [apply str_eqb_eq in E | apply str_eqb_neq in E].

Lemma in_step_maps st st' :
  sessions st' = sessions st -> sessionsByName st' = sessionsByName st ->
  in_step st -> in_step st'.
Proof. unfold in_step. by intros -> ->. Qed.

Lemma in_step_mutate st k (f : Session -> Session) tr rd :
  (forall s, s_id (f s) = s_id s /\ s_name (f s) = s_name s) ->
  in_step st ->
  in_step (mkSt (JsMap.mutate k f (sessions st)) (sessionsByName st) tr rd).
Proof.
  intros Hf (Hnd & Hndn & Hid & Hname). unfold in_step. cbn [sessions sessionsByName].
  split; [by rewrite jsmap_keys_mutate|]. split; [done|]. split.
  - intros id s. rewrite jsmap_get_mutate. destruct (str_eqb k id).
    + destruct (JsMap.get id (sessions st)) as [s0|] eqn:Hs0; [|intros H; discriminate H].
      cbn. intros [= <-]. destruct (Hf s0) as [-> ->]. by apply Hid.
    + apply Hid.
  - intros name id Hn. destruct (Hname name id Hn) as (s & Hs & Hsn).
    rewrite jsmap_get_mutate. destruct (str_eqb k id).
    + rewrite Hs. cbn. eexists. split; [reflexivity|]. by destruct (Hf s) as [_ ->].
    + eauto.
Qed.

Lemma in_step_delete st id s tr rd :
  in_step st -> JsMap.get id (sessions st) = Some s ->
  in_step (mkSt (JsMap.delete id (sessions st))
                (JsMap.delete (s_name s) (sessionsByName st)) tr rd).
Proof.
  intros (Hnd & Hndn & Hid & Hname) Hs. destruct (Hid id s Hs) as [Hsid Hsname].
  unfold in_step. cbn [sessions sessionsByName].
  split; [by apply jsmap_keys_delete_nodup|].
  split; [by apply jsmap_keys_delete_nodup|]. split.
  - intros id' s' Hs'.
    assert (Hne : id <> id').
    { intros <-. rewrite jsmap_get_delete_eq in Hs' by done. discriminate Hs'. }
    rewrite jsmap_get_delete_ne in Hs' by done.
    destruct (Hid id' s' Hs') as [Hsid' Hsname']. split; [done|].
    rewrite jsmap_get_delete_ne; [done|]. intros Heq. rewrite Heq in Hsname. congruence.
  - intros name i Hn.
    assert (Hne : s_name s <> name).
    { intros <-. rewrite jsmap_get_delete_eq in Hn by done. discriminate Hn. }
    rewrite jsmap_get_delete_ne in Hn by done.
    destruct (Hname name i Hn) as (s' & Hs' & Hsn'). exists s'. split; [|done].
    rewrite jsmap_get_delete_ne; [done|]. intros <-. congruence.
Qed.

Lemma in_step_insert st id name s tr rd :
  in_step st ->
  JsMap.get id (sessions st) = None -> JsMap.get name (sessionsByName st) = None ->
  s_id s = id -> s_name s = name ->
  in_step (mkSt (JsMap.set id s (sessions st)) (JsMap.set name id (sessionsByName st))
             tr rd).
Proof.
  intros (Hnd & Hndn & Hid & Hname) Hfresh Hfree Hsid Hsname.
  unfold in_step. cbn [sessions sessionsByName].
  split; [by apply jsmap_keys_set_nodup|].
  split; [by apply jsmap_keys_set_nodup|]. split.
  - intros i s'. rewrite jsmap_get_set. by_key id i.
    + intros [= <-]. split; [congruence|].
      rewrite jsmap_get_set, Hsname, str_eqb_refl. congruence.
    + intros Hs'. destruct (Hid i s' Hs') as [Hi Hn]. split; [done|].
      rewrite jsmap_get_set. by_key name (s_name s'); [congruence|done].
  - intros n i. rewrite jsmap_get_set. by_key name n.
    + intros [= <-]. exists s. rewrite jsmap_get_set, str_eqb_refl. split; congruence.
    + intros Hn. destruct (Hname n i Hn) as (s' & Hs' & Hsn'). exists s'. split; [|done].
      rewrite jsmap_get_set. by_key id i; [congruence|done].
Qed.

Lemma touch_keeps t s :
  s_id (with_lastUsedAt t s) = s_id s /\ s_name (with_lastUsedAt t s) = s_name s.
Proof. done. Qed.

Lemma state_keeps x s :
  s_id (with_state x s) = s_id s /\ s_name (with_state x s) = s_name s.
Proof. done. Qed.

Lemma expiry_keeps e s :
  s_id (with_expiresAt e s) = s_id s /\ s_name (with_expiresAt e s) = s_name s.
Proof. done. Qed.

Variable eng : Engine.

(** What [get] does to the manager. *)
Lemma get_cases nameOrId st :
  get eng nameOrId st = (Ok None, st)
  \/ exists key s,
       JsMap.get key (sessions st) = Some s
       /\ get eng nameOrId st
          = (Ok (Some (key, with_lastUsedAt (e_now eng (reads st)) s)),
             mkSt (JsMap.mutate key (with_lastUsedAt (e_now eng (reads st))) (sessions st))
                  (sessionsByName st) (trace st) (S (reads st))).
Proof.
  destruct (locate nameOrId st) as [key|] eqn:Hloc.
  - right. assert (Hhas : exists s, JsMap.get key (sessions st) = Some s).
    { revert Hloc. unfold locate, JsMap.has.
      destruct (JsMap.get nameOrId (sessions st)) eqn:H1; [intros [= <-]; eauto|].
      destruct (JsMap.get nameOrId (sessionsByName st)) as [[|c id]|];
        try (intros H; discriminate H).
      destruct (JsMap.get (c :: id) (sessions st)) eqn:H2; [|intros H; discriminate H].
      intros [= <-]. eauto. }
    destruct Hhas as [s Hs]. exists key, s. split; [done|].
    unfold get, Eff.bind, Eff.get. rewrite Hloc.
    cbv [now set_sessions Eff.modify Eff.ret]. cbn [sessions sessionsByName trace reads].
    by rewrite jsmap_get_mutate_eq, Hs.
  - left. unfold get, Eff.bind, Eff.get. by rewrite Hloc.
Qed.

Lemma get_in_step nameOrId st : in_step st -> in_step (snd (get eng nameOrId st)).
Proof.
  intros Hst. destruct (get_cases nameOrId st) as [-> | (key & s & _ & ->)]; [done|].
  apply in_step_mutate; [apply touch_keeps|done].
Qed.

(** The engine calls leave the maps alone. *)
Lemma call_maps c st :
  sessions (snd (call eng c st)) = sessions st
  /\ sessionsByName (snd (call eng c st)) = sessionsByName st.
Proof. done. Qed.

Lemma container_call_maps (m : jsstring -> M unit) c st :
  m = container_stop eng \/ m = container_remove eng \/ m = container_pause eng
  \/ m = container_unpause eng \/ m = container_start eng ->
  sessions (snd (m c st)) = sessions st
  /\ sessionsByName (snd (m c st)) = sessionsByName st.
Proof.
  intros [-> | [-> | [-> | [-> | ->]]]];
    cbv [container_stop container_remove container_pause container_unpause
         container_start Eff.try_catch call Eff.throw Eff.ret];
    repeat case_match; done.
Qed.

Lemma try_rethrow_same {A} (m : M A) st :
  Eff.try_catch m (fun error => Eff.throw error) st = m st.
Proof. unfold Eff.try_catch, Eff.throw. by destruct (m st) as [[a|e] st']. Qed.

Lemma bind_in_step {A B} (m : M A) (k : A -> M B) st :
  in_step (snd (m st)) ->
  (forall a st1, m st = (Ok a, st1) -> in_step st1 -> in_step (snd (k a st1))) ->
  in_step (snd (Eff.bind m k st)).
Proof.
  unfold Eff.bind. destruct (m st) as [[a|e] st1]; cbn [snd]; intros H1 Hk; [|done].
  by apply Hk.
Qed.

Lemma container_in_step (m : jsstring -> M unit) c st :
  m = container_stop eng \/ m = container_remove eng \/ m = container_pause eng
  \/ m = container_unpause eng \/ m = container_start eng ->
  in_step st -> in_step (snd (m c st)).
Proof.
  intros Hm Hst. destruct (container_call_maps m c st Hm) as [H1 H2].
  by eapply in_step_maps.
Qed.

Lemma mutate_in_step k f st :
  (forall s, s_id (f s) = s_id s /\ s_name (f s) = s_name s) ->
  in_step st -> in_step (snd (set_sessions (JsMap.mutate k f) st)).
Proof. intros Hf Hst. by apply in_step_mutate. Qed.

Lemma now_in_step st : in_step st -> in_step (snd (now eng st)).
Proof. by apply in_step_maps. Qed.

Lemma pause_in_step sessionId st : in_step st -> in_step (snd (pause eng sessionId st)).
Proof.
  intros Hst. unfold pause. apply bind_in_step; [by apply get_in_step|].
  intros [[key session]|] st1 _ Hst1; [|done].
  destruct (s_state session); try done; rewrite try_rethrow_same;
    (apply bind_in_step; [apply container_in_step; tauto|]);
    intros _ st2 _ Hst2; by apply mutate_in_step.
Qed.

Lemma resume_in_step sessionId st : in_step st -> in_step (snd (resume eng sessionId st)).
Proof.
  intros Hst. unfold resume. apply bind_in_step; [by apply get_in_step|].
  intros [[key session]|] st1 _ Hst1; [|done].
  destruct (s_state session); try done. rewrite try_rethrow_same.
  apply bind_in_step; [apply container_in_step; tauto|].
  intros _ st2 _ Hst2. apply bind_in_step; [by apply mutate_in_step|].
  intros _ st3 _ Hst3. apply bind_in_step; [by apply now_in_step|].
  intros t st4 _ Hst4. by apply mutate_in_step.
Qed.

Lemma extend_in_step sessionId secs st :
  in_step st -> in_step (snd (extend eng sessionId secs st)).
Proof.
  intros Hst. unfold extend. apply bind_in_step; [by apply get_in_step|].
  intros [[key session]|] st1 _ Hst1; [|done].
  destruct (s_expiresAt session).
  - by apply mutate_in_step.
  - apply bind_in_step; [by apply now_in_step|].
    intros t st2 _ Hst2. by apply mutate_in_step.
Qed.

Lemma get_found nameOrId st key session st1 :
  get eng nameOrId st = (Ok (Some (key, session)), st1) ->
  JsMap.get key (sessions st1) = Some session.
Proof.
  destruct (get_cases nameOrId st) as [-> | (key' & s & Hs & ->)];
    [intros H; discriminate H|].
  intros [= <- <- <-]. cbn [sessions]. by rewrite jsmap_get_mutate_eq, Hs.
Qed.

Lemma destroy_in_step sessionId st : in_step st -> in_step (snd (destroy eng sessionId st)).
Proof.
  intros Hst. unfold destroy. apply bind_in_step; [by apply get_in_step|].
  intros [[key session]|] st1 Hget Hst1; [|done].
  apply get_found in Hget. rewrite try_rethrow_same.
  assert (Hkey : s_id session = key) by (by apply Hst1).
  destruct (container_call_maps (container_stop eng) (s_container session) st1)
    as [Hs2 Hn2]; [tauto|].
  unfold Eff.bind at 1.
  destruct (container_stop eng (s_container session) st1) as [[[]|e] st2] eqn:Hstop;
    cbn [snd] in *; [|by eapply in_step_maps].
  assert (Hst2 : in_step st2) by (by eapply in_step_maps).
  destruct (container_call_maps (container_remove eng) (s_container session) st2)
    as [Hs3 Hn3]; [tauto|].
  unfold Eff.bind at 1.
  destruct (container_remove eng (s_container session) st2) as [[[]|e] st3] eqn:Hrem;
    cbn [snd] in *; [|by eapply in_step_maps].
  assert (Hst3 : in_step st3) by (by eapply in_step_maps).
  cbv [Eff.bind set_sessions set_names Eff.modify]. cbn [snd sessions sessionsByName].
  apply in_step_delete; [done|]. by rewrite Hkey, Hs3, Hs2.
Qed.

Lemma cleanup_each_in_step ids : forall st,
  in_step st -> in_step (snd (cleanup_each eng ids st)).
Proof.
  induction ids as [|id ids IH]; intros st Hst; [done|].
  cbn [cleanup_each]. apply bind_in_step.
  - unfold Eff.try_catch, Eff.bind, Eff.get.
    destruct (JsMap.get id (sessions st)); [|done].
    pose proof (destroy_in_step id st Hst) as Hd.
    by destruct (destroy eng id st) as [[[]|e] st1].
  - intros _ st1 _ Hst1. by apply IH.
Qed.

Lemma shutdown_each_in_step ids : forall st,
  in_step st -> in_step (snd (shutdown_each eng ids st)).
Proof.
  induction ids as [|id ids IH]; intros st Hst; [done|].
  cbn [shutdown_each]. apply bind_in_step.
  - unfold Eff.try_catch. pose proof (destroy_in_step id st Hst) as Hd.
    by destruct (destroy eng id st) as [[[]|e] st1].
  - intros _ st1 _ Hst1. by apply IH.
Qed.

Lemma create_in_step name config st :
  in_step st -> JsMap.get (e_uuid eng (reads st)) (sessions st) = None ->
  in_step (snd (create eng name config st)).
Proof.
  intros Hst Hfresh. unfold create. rewrite try_rethrow_same.
  unfold Eff.bind at 1. cbn [Eff.get].
  destruct (JsMap.get name (sessionsByName st)) as [existingId|] eqn:Hname.
  { pose proof Hst as (_ & _ & _ & Hn). destruct (Hn _ _ Hname) as (s & Hs & _).
    rewrite Hs. unfold Eff.bind, Eff.throw. done. }
  unfold Eff.bind at 1. cbn [Eff.ret].
  unfold Eff.bind at 1. unfold createContainer.
  destruct (e_create eng (trace st)) as [container|e]; [|by eapply in_step_maps].
  set (st1 := mkSt (sessions st) (sessionsByName st)
                (trace st ++ [ECreate (imageMap (c_language config)) (c_language config)])
                (reads st)).
  assert (Hst1 : in_step st1) by (by eapply in_step_maps).
  destruct (container_call_maps (container_start eng) container st1) as [Hs2 Hn2]; [tauto|].
  assert (Hr2 : reads (snd (container_start eng container st1)) = reads st).
  { cbv [container_start Eff.try_catch call Eff.throw Eff.ret]. by repeat case_match. }
  unfold Eff.bind at 1.
  destruct (container_start eng container st1) as [[[]|e] st2] eqn:Hstart;
    cbn [snd] in *; [|by eapply in_step_maps].
  assert (Hst2 : in_step st2) by (by eapply in_step_maps).
  destruct st2 as [ss2 ns2 tr2 rd2]. cbn [sessions sessionsByName reads] in *. subst.
  cbv [Eff.bind uuidv4 now Eff.ret set_sessions set_names Eff.modify].
  cbn [sessions sessionsByName reads trace].
  destruct (c_ttl config) as [ttl|]; [destruct (ttl =? 0)%Z|];
    cbn [snd sessions sessionsByName];
    by apply (in_step_insert (mkSt (sessions st) (sessionsByName st) tr2 (reads st))).
Qed.

(** X20. When the requests to the session manager run one at a time,
    each to completion before the next starts, the two maps stay in step
    through every request, whether it succeeds or raises and whatever the
    engine answers: keys stay unique, every session is stored under its
    own id and found under its name, and every name leads to a stored
    session of that name.  The id source is asked that the next id is not
    already in use.  Requests that overlap are outside this statement:
    [create] waits for the engine between its check of the name and its
    writes to the maps, so two creations of one name that overlap can
    both pass the check. *)
Theorem requests_keep_maps_in_step r st :
  in_step st -> fresh_ids eng st -> in_step (after eng r st).
Proof.
  intros Hst Hfresh. destruct r; cbn [after].
  - apply create_in_step; [done|]. by apply Hfresh.
  - by apply get_in_step.
  - by apply pause_in_step.
  - by apply resume_in_step.
  - by apply extend_in_step.
  - by apply destroy_in_step.
  - unfold cleanup. apply bind_in_step; [by apply now_in_step|].
    intros t st1 _ Hst1. unfold Eff.bind, Eff.get. by apply cleanup_each_in_step.
  - unfold shutdown, Eff.bind, Eff.get. by apply shutdown_each_in_step.
Qed.

End InStep.

Lemma requests_keep_maps_in_step_witness :
  SessionOps.in_step
    (SessionOps.after SessionManager.obliging
       (SessionOps.RCreate (js "demo")
          (SessionManager.mkSessionConfig python (Some 3600%Z) []))
       SessionManager.empty).
Proof.
  apply (requests_keep_maps_in_step SessionManager.obliging
           (SessionOps.RCreate (js "demo")
              (SessionManager.mkSessionConfig python (Some 3600%Z) []))
           SessionManager.empty).
  - repeat split; try constructor; intros; discriminate.
  - intros n _. split; [intros H; discriminate H|reflexivity].
Defined.

Section SessionRoundTrips.
Import SessionManager SessionOps.
Variable eng : Engine.

Lemma create_ok_maps name config st session st1 :
  create eng name config st = (Ok session, st1) ->
  JsMap.get (s_id session) (sessions st1) = Some session
  /\ JsMap.get name (sessionsByName st1) = Some (s_id session)
  /\ s_name session = name /\ s_state session = active
  /\ s_language session = c_language config.
Proof.
  unfold create. rewrite try_rethrow_same.
  cbv [Eff.bind Eff.get Eff.ret Eff.throw createContainer container_start
       Eff.try_catch call uuidv4 now set_sessions set_names Eff.modify].
  cbn [sessions sessionsByName trace reads].
  intros H. repeat case_match; simplify_eq; cbn [sessions sessionsByName s_id s_name s_state
    s_language]; rewrite !jsmap_get_set, !str_eqb_refl; done.
Qed.

(** X21. What [create] returns can be found again: after a successful
    [create] the session is the one [get] returns, under its name as
    under its id, with only the time of last use refreshed.  The id must
    not be the empty text, and the name must not be the id of a stored
    session, since [get] tries its argument as an id first. *)
Theorem create_then_get name config st session st1 :
  create eng name config st = (Ok session, st1) ->
  s_id session <> [] ->
  JsMap.has name (sessions st1) = false ->
  exists st2,
    get eng name st1
      = (Ok (Some (s_id session, with_lastUsedAt (e_now eng (reads st1)) session)), st2)
    /\ get eng (s_id session) st1
      = (Ok (Some (s_id session, with_lastUsedAt (e_now eng (reads st1)) session)), st2)
    /\ JsMap.get (s_id session) (sessions st2)
      = Some (with_lastUsedAt (e_now eng (reads st1)) session).
Proof.
  intros Hc Hid Hname. destruct (create_ok_maps _ _ _ _ _ Hc) as (Hs & Hn & _).
  exists (mkSt (JsMap.mutate (s_id session) (with_lastUsedAt (e_now eng (reads st1)))
                 (sessions st1))
               (sessionsByName st1) (trace st1) (S (reads st1))).
  split; [|split].
  - unfold get, Eff.bind, Eff.get, locate. rewrite Hname, Hn.
    destruct (s_id session) as [|c id] eqn:Eid; [done|].
    unfold JsMap.has. rewrite Hs.
    cbv [now set_sessions Eff.modify Eff.ret]. cbn [sessions sessionsByName trace reads].
    rewrite jsmap_get_mutate_eq, Hs. reflexivity.
  - by rewrite (get_by_id eng _ _ _ Hs).
  - cbn [sessions]. by rewrite jsmap_get_mutate_eq, Hs.
Qed.




Hypothesis accepting : forall h c, e_reply eng h c = Ok tt.




End SessionRoundTrips.

Lemma create_then_get_witness :
  exists st2,
    SessionManager.get SessionManager.obliging (js "demo") SessionManager.demo
      = (Ok (Some (SessionManager.s_id SessionManager.demo_session,
                   SessionManager.with_lastUsedAt
                     (SessionManager.e_now SessionManager.obliging
                        (SessionManager.reads SessionManager.demo))
                     SessionManager.demo_session)), st2)
    /\ SessionManager.get SessionManager.obliging
         (SessionManager.s_id SessionManager.demo_session) SessionManager.demo
      = (Ok (Some (SessionManager.s_id SessionManager.demo_session,
                   SessionManager.with_lastUsedAt
                     (SessionManager.e_now SessionManager.obliging
                        (SessionManager.reads SessionManager.demo))
                     SessionManager.demo_session)), st2)
    /\ JsMap.get (SessionManager.s_id SessionManager.demo_session)
         (SessionManager.sessions st2)
      = Some (SessionManager.with_lastUsedAt
                (SessionManager.e_now SessionManager.obliging
                   (SessionManager.reads SessionManager.demo))
                SessionManager.demo_session).
Proof.
  apply (create_then_get SessionManager.obliging (js "demo")
           (SessionManager.mkSessionConfig python (Some 3600%Z) [])
           SessionManager.empty SessionManager.demo_session SessionManager.demo).
  - vm_compute. reflexivity.
  - discriminate.
  - reflexivity.
Defined.


(** ** The package cache: hits, counters and the cache key *)

Section CacheFacts.
Import PackageCache.
Variable eng : Engine.
Variable sha256_hex : jsstring -> jsstring.
Variable JSON_stringify : list jsstring -> jsstring.

Ltac run_install_cache :=
  cbv [install hasImage listImages commitImage container_commit runtime_installPackages
       record now Eff.try_catch Eff.bind Eff.get Eff.modify Eff.ret Eff.throw Eff.lift];
  cbn [cacheHits cacheMisses images calls reads].

(** X23. A hit: when the listing succeeds and some image carries the
    name computed for the request, [install] asks the engine for the
    listing and for nothing else, neither installing nor committing,
    counts one hit, and reports success from the cache with the
    requested packages. *)
Theorem install_hit language packages container st :
  e_list_fails eng (calls st) = None ->
  listed (imageName sha256_hex JSON_stringify language packages) (images st) = true ->
  install eng sha256_hex JSON_stringify language packages container st
  = (Ok (mkInstallResult true true
           (e_now eng (S (reads st)) - e_now eng (reads st)) packages None),
     mkSt (S (cacheHits st)) (cacheMisses st) (images st)
          (calls st ++ [KListImages]) (S (S (reads st)))).
Proof.
  intros Hlist Hhit. run_install_cache. rewrite Hlist, Hhit. reflexivity.
Qed.

(** X24. Every request is counted once: [install] never raises, and
    when it returns exactly one of the two counters has grown by one,
    whatever the engine and the adapter did; the hit counter grows
    exactly when the result is marked as cached. *)
Theorem install_counts_once language packages container st :
  exists res st',
    install eng sha256_hex JSON_stringify language packages container st = (Ok res, st')
    /\ (cacheHits st' + cacheMisses st' = S (cacheHits st + cacheMisses st))%nat
    /\ (cacheHits st' = S (cacheHits st) -> success res = true /\ cached res = true).
Proof.
  run_install_cache.
  destruct (e_list_fails eng (calls st)) as [e|].
  - destruct (e_installPackages eng _ packages) as [[[] c d i er]|e'];
      cbn [success negb]; [destruct (e_commit eng _ _ _)| |];
      cbn [cacheHits cacheMisses]; do 2 eexists;
      (split; [reflexivity|]); cbn [cacheHits cacheMisses]; split; lia.
  - destruct (listed _ (images st)).
    + do 2 eexists. split; [reflexivity|]. cbn [cacheHits cacheMisses success cached].
      split; [lia|done].
    + destruct (e_installPackages eng _ packages) as [[[] c d i er]|e'];
        cbn [success negb]; [destruct (e_commit eng _ _ _)| |];
        cbn [cacheHits cacheMisses]; do 2 eexists;
        (split; [reflexivity|]); cbn [cacheHits cacheMisses]; split; lia.
Qed.

End CacheFacts.

Lemma install_hit_witness :
  PackageCache.install PackageCache.obliging (fun data => data) (fun xs => concat xs)
    python [js "requests"] (js "c9") prebuilt
  = (Ok (PackageCache.mkInstallResult true true
           (PackageCache.e_now PackageCache.obliging (S (PackageCache.reads prebuilt))
            - PackageCache.e_now PackageCache.obliging (PackageCache.reads prebuilt))
           [js "requests"] None),
     PackageCache.mkSt (S (PackageCache.cacheHits prebuilt))
       (PackageCache.cacheMisses prebuilt) (PackageCache.images prebuilt)
       (PackageCache.calls prebuilt ++ [PackageCache.KListImages])
       (S (S (PackageCache.reads prebuilt)))).
Proof.
  apply (install_hit PackageCache.obliging (fun data => data) (fun xs => concat xs)
           python [js "requests"] (js "c9") prebuilt).
  - reflexivity.
  - vm_compute. reflexivity.
Defined.

Section SortFacts.
Import PackageCache.

Lemma str_leb_total a : forall b, str_leb a b = true \/ str_leb b a = true.
Proof.
  induction a as [|x a IH]; intros [|y b]; cbn [str_leb]; try tauto.
  rewrite (N.eqb_sym y x). destruct (x =? y) eqn:E; [apply IH|].
  apply N.eqb_neq in E. destruct (N.lt_total x y) as [H|[H|H]]; [left|done|right];
    by apply N.ltb_lt.
Qed.

Lemma str_leb_antisym a : forall b, str_leb a b = true -> str_leb b a = true -> a = b.
Proof.
  induction a as [|x a IH]; intros [|y b]; cbn [str_leb]; try done.
  rewrite (N.eqb_sym y x). destruct (x =? y) eqn:E.
  - apply N.eqb_eq in E. subst y. intros H1 H2. f_equal. by apply IH.
  - intros H1 H2. apply N.ltb_lt in H1, H2. lia.
Qed.

Lemma str_leb_trans a : forall b c,
  str_leb a b = true -> str_leb b c = true -> str_leb a c = true.
Proof.
  induction a as [|x a IH]; intros [|y b] [|z c]; cbn [str_leb]; try done.
  destruct (x =? y) eqn:Exy, (y =? z) eqn:Eyz, (x =? z) eqn:Exz;
    rewrite ?N.eqb_eq, ?N.eqb_neq, ?N.ltb_lt in *; subst; try (apply IH);
    intros; try lia; try done.
Qed.

Lemma insert_sorted_comm x y l :
  insert_sorted x (insert_sorted y l) = insert_sorted y (insert_sorted x l).
Proof.
  assert (Hpair : forall rest, 
    (if str_leb x y then x :: y :: rest else y :: x :: rest)
    = (if str_leb y x then y :: x :: rest else x :: y :: rest)).
  { intros rest. destruct (str_leb x y) eqn:Hxy, (str_leb y x) eqn:Hyx; try done.
    - by rewrite (str_leb_antisym x y Hxy Hyx).
    - destruct (str_leb_total x y); congruence. }
  induction l as [|z l IH].
  - cbn [insert_sorted]. specialize (Hpair []).
    by destruct (str_leb x y), (str_leb y x).
  - cbn [insert_sorted].
    destruct (str_leb y z) eqn:Hyz, (str_leb x z) eqn:Hxz; cbn [insert_sorted];
      rewrite ?Hyz, ?Hxz.
    + specialize (Hpair (z :: l)). by destruct (str_leb x y), (str_leb y x).
    + destruct (str_leb x y) eqn:Hxy; [|done].
      rewrite (str_leb_trans x y z Hxy Hyz) in Hxz. discriminate Hxz.
    + destruct (str_leb y x) eqn:Hyx; [|done].
      rewrite (str_leb_trans y x z Hyx Hxz) in Hyz. discriminate Hyz.
    + by rewrite IH.
Qed.

Lemma sort_permutation xs ys : Permutation xs ys -> sort xs = sort ys.
Proof.
  unfold sort. induction 1 as [|x l l' _ IH|x y l|l l' l'' _ IH1 _ IH2]; cbn [fold_right].
  - done.
  - by rewrite IH.
  - apply insert_sorted_comm.
  - congruence.
Qed.

(** X25. The order of the request does not matter to the cache: two
    lists that hold the same packages the same number of times get the
    same cache key and the same image name, because the key is computed
    from the sorted list. *)
Theorem imageName_order_free sha256_hex JSON_stringify language packages packages' :
  Permutation packages packages' ->
  getCacheKey sha256_hex JSON_stringify language packages'
  = getCacheKey sha256_hex JSON_stringify language packages
  /\ imageName sha256_hex JSON_stringify language packages'
     = imageName sha256_hex JSON_stringify language packages.
Proof.
  intros Hperm. apply sort_permutation in Hperm.
  unfold imageName, getCacheKey. by rewrite Hperm.
Qed.

End SortFacts.

Lemma imageName_order_free_witness :
  PackageCache.getCacheKey (fun data => data) (fun xs => concat xs) python
    [js "numpy"; js "requests"]
  = PackageCache.getCacheKey (fun data => data) (fun xs => concat xs) python
      [js "requests"; js "numpy"]
  /\ PackageCache.imageName (fun data => data) (fun xs => concat xs) python
       [js "numpy"; js "requests"]
     = PackageCache.imageName (fun data => data) (fun xs => concat xs) python
         [js "requests"; js "numpy"].
Proof.
  apply (imageName_order_free (fun data => data) (fun xs => concat xs) python
           [js "requests"; js "numpy"] [js "numpy"; js "requests"]).
  apply perm_swap.
Defined.

(** ** The container pool: bound and reuse *)

Section PoolBound.
Import ContainerPool PoolOps.

Lemma jsmap_in_get {V} k (v : V) (m : JsMap.t V) :
  List.NoDup (JsMap.keys m) -> In (k, v) m -> JsMap.get k m = Some v.
Proof.
  induction m as [|[k0 v0] m IH]; [done|]. cbn [JsMap.keys map fst].
  intros Hnd. inversion Hnd as [|? ? Hnotin Hnd']; subst.
  cbn [JsMap.get]. intros [[= -> ->]|Hin]; [by rewrite str_eqb_refl|].
  destruct (str_eqb k0 k) eqn:E; [|by apply IH].
  apply str_eqb_eq in E. subst k0. destruct Hnotin. apply in_map_iff. by exists (k, v).
Qed.

Lemma jsmap_get_in {V} k (v : V) (m : JsMap.t V) : JsMap.get k m = Some v -> exists k', In (k', v) m /\ k' = k.
Proof.
  induction m as [|[k0 v0] m IH]; [done|]. cbn [JsMap.get].
  destruct (str_eqb k0 k) eqn:E.
  - apply str_eqb_eq in E. intros [= ->]. exists k0. split; [by left|done].
  - intros H. destruct (IH H) as (k' & Hin & Hk'). exists k'. split; [by right|done].
Qed.

Lemma jsmap_size_delete {V} k (v : V) (m : JsMap.t V) :
  JsMap.get k m = Some v -> S (JsMap.size (JsMap.delete k m)) = JsMap.size m.
Proof.
  unfold JsMap.size. induction m as [|[k0 v0] m IH]; [done|].
  cbn [JsMap.get JsMap.delete]. destruct (str_eqb k0 k); [done|].
  intros H. cbn [length]. by rewrite IH.
Qed.

Lemma jsmap_size_set {V} k (v : V) (m : JsMap.t V) :
  (JsMap.size (JsMap.set k v m) <= S (JsMap.size m))%nat.
Proof.
  unfold JsMap.size. induction m as [|[k0 v0] m IH]; [cbn; lia|].
  cbn [JsMap.set]. destruct (str_eqb k0 k); cbn [length]; lia.
Qed.

Lemma jsmap_keys_set_nodup_any {V} k (v : V) (m : JsMap.t V) :
  List.NoDup (JsMap.keys m) -> List.NoDup (JsMap.keys (JsMap.set k v m)).
Proof.
  intros Hnd. destruct (JsMap.get k m) as [v0|] eqn:Hk.
  - assert (Hkeys : JsMap.keys (JsMap.set k v m) = JsMap.keys m); [|by rewrite Hkeys].
    clear Hnd. revert Hk. induction m as [|[k0 v1] m IH]; [done|].
    cbn [JsMap.get JsMap.set]. destruct (str_eqb k0 k) eqn:E.
    + apply str_eqb_eq in E. by subst k0.
    + intros H. cbn [JsMap.keys map fst]. f_equal. by apply IH.
  - by apply jsmap_keys_set_nodup.
Qed.

Lemma well_keyed_delete st k tr rd :
  well_keyed st -> well_keyed (mkSt (JsMap.delete k (pool st)) tr rd).
Proof.
  intros [Hnd Hkey]. split; cbn [pool]; [by apply jsmap_keys_delete_nodup|].
  intros k' pooled. destruct (str_eqb k k') eqn:E.
  - apply str_eqb_eq in E. subst k'. by rewrite jsmap_get_delete_eq.
  - apply str_eqb_neq in E. rewrite jsmap_get_delete_ne by done. apply Hkey.
Qed.

Lemma well_keyed_set st c pooled tr rd :
  well_keyed st -> p_container pooled = c ->
  well_keyed (mkSt (JsMap.set c pooled (pool st)) tr rd).
Proof.
  intros [Hnd Hkey] Hc. split; cbn [pool]; [by apply jsmap_keys_set_nodup_any|].
  intros k' p'. rewrite jsmap_get_set. destruct (str_eqb c k') eqn:E.
  - apply str_eqb_eq in E. intros [= <-]. congruence.
  - apply Hkey.
Qed.

Lemma oldest_from_kept entries : forall o,
  exists v, oldest_from (Some o) entries = Some v.
Proof.
  induction entries as [|e entries IH]; intros o; cbn [oldest_from]; [eauto|].
  destruct (p_lastUsedAt e <? p_lastUsedAt o)%Z; apply IH.
Qed.

Lemma oldest_from_some entries p o :
  exists v, oldest_from o (p :: entries) = Some v.
Proof.
  cbn [oldest_from]. destruct o as [o|]; [destruct (_ <? _)%Z|]; apply oldest_from_kept.
Qed.

Variable eng : Engine.
Variable config : PoolConfig.
Hypothesis exec_ok : forall h c cmd, is_ok (e_exec eng h c cmd) = true.
Hypothesis reply_ok : forall h c, e_reply eng h c = Ok tt.

(** X26. On an engine that carries out every call, a pool within its
    bound stays within it: after [release] the pool holds at most
    [maxActive] containers, the released one among them as a healthy
    entry with a use count of 0, each entry under the id of its
    container. *)
Theorem release_keeps_pool_within_bound c lang st :
  (1 <= maxActive config)%nat ->
  well_keyed st ->
  (JsMap.size (pool st) <= maxActive config)%nat ->
  exists st',
    release eng config c lang st = (Ok tt, st')
    /\ (JsMap.size (pool st') <= maxActive config)%nat
    /\ well_keyed st'
    /\ exists t1 t2, JsMap.get c (pool st') = Some (mkPooled c lang t1 t2 0 true).
Proof.
  intros Hmax [Hnd Hkey] Hsize.
  destruct (release_accepting eng config exec_ok reply_ok c lang st) as [tr Hrel].
  eexists. split; [exact Hrel|]. cbn [pool].
  set (entry := mkPooled c lang (e_now eng (reads st)) (e_now eng (S (reads st))) 0 true).
  split; [|split].
  - destruct (maxActive config <=? JsMap.size (pool st))%nat eqn:Hfull.
    + apply Nat.leb_le in Hfull.
      destruct (pool st) as [|[k0 p0] m] eqn:Hpool; [cbn in Hfull; lia|].
      destruct (oldest_from_some (map snd m) p0 None) as [v Hv].
      change (JsMap.values ((k0, p0) :: m)) with (p0 :: map snd m). rewrite Hv.
      destruct (oldest_from_min _ _ _ Hv) as [[Hin|Hin] _]; [|discriminate Hin].
      change (p0 :: map snd m) with (JsMap.values ((k0, p0) :: m)) in Hin.
      apply in_map_iff in Hin as ([kv pv] & Heq & Hin). cbn [snd] in Heq. subst pv.
      rewrite <- Hpool in *.
      pose proof (jsmap_in_get _ _ _ Hnd Hin) as Hget.
      rewrite (Hkey _ _ Hget).
      pose proof (jsmap_size_delete _ _ _ Hget) as Hdel.
      pose proof (jsmap_size_set c entry (JsMap.delete kv (pool st))). lia.
    + apply Nat.leb_gt in Hfull.
      pose proof (jsmap_size_set c entry (pool st)). lia.
  - assert (Hwk : well_keyed st) by done.
    destruct (maxActive config <=? JsMap.size (pool st))%nat;
      [destruct (oldest_from None (JsMap.values (pool st))) as [v|]|].
    + apply (well_keyed_set (mkSt (JsMap.delete (p_container v) (pool st)) [] 0));
        [by apply well_keyed_delete|done].
    + by apply well_keyed_set.
    + by apply well_keyed_set.
  - exists (e_now eng (reads st)), (e_now eng (S (reads st))).
    by rewrite jsmap_get_set, str_eqb_refl.
Qed.

End PoolBound.

Lemma release_keeps_pool_within_bound_witness :
  exists st',
    ContainerPool.release ContainerPool.obliging ContainerPool.two_slots (js "c1") python
      ContainerPool.empty = (Ok tt, st')
    /\ (JsMap.size (ContainerPool.pool st')
        <= ContainerPool.maxActive ContainerPool.two_slots)%nat
    /\ PoolOps.well_keyed st'
    /\ exists t1 t2,
         JsMap.get (js "c1") (ContainerPool.pool st')
         = Some (ContainerPool.mkPooled (js "c1") python t1 t2 0 true).
Proof.
  apply (release_keeps_pool_within_bound ContainerPool.obliging ContainerPool.two_slots
           (fun _ _ _ => eq_refl) (fun _ _ => eq_refl) (js "c1") python
           ContainerPool.empty).
  - simpl. lia.
  - split; [constructor|]. intros k pooled H. discriminate H.
  - simpl. lia.
Defined.

Section PoolReuse.
Import ContainerPool PoolOps.

Lemma find_first {A} (f : A -> bool) before x after :
  forallb (fun a => negb (f a)) before = true -> f x = true ->
  find f (before ++ x :: after) = Some x.
Proof.
  induction before as [|b before IH]; cbn [forallb app find]; intros Hb Hx.
  - by rewrite Hx.
  - apply andb_true_iff in Hb as [Hb Hrest]. apply negb_true_iff in Hb. rewrite Hb.
    by apply IH.
Qed.

Lemma find_none {A} (f : A -> bool) xs :
  forallb (fun a => negb (f a)) xs = true -> find f xs = None.
Proof.
  induction xs as [|x xs IH]; cbn [forallb find]; [done|]. intros Hb.
  apply andb_true_iff in Hb as [Hb Hrest]. apply negb_true_iff in Hb. rewrite Hb.
  by apply IH.
Qed.

(** X27. Reuse takes the first match: of the pooled containers, in the
    order of the map, [getAvailableContainer] hands out the first one
    that is of the language asked for and healthy, skipping the others;
    that entry, and no other, leaves the pool, which shrinks by one;
    when no entry matches, nothing is handed out and the pool is as
    before.  No call goes to the engine in either case. *)
Theorem getAvailableContainer_takes_first language st :
  well_keyed st ->
  (forall before pooled after,
      JsMap.values (pool st) = before ++ pooled :: after ->
      forallb (fun p => negb (available language p)) before = true ->
      available language pooled = true ->
      getAvailableContainer language st
      = (Ok (Some pooled),
         mkSt (JsMap.delete (p_container pooled) (pool st)) (trace st) (reads st))
      /\ JsMap.get (p_container pooled) (JsMap.delete (p_container pooled) (pool st))
         = None
      /\ S (JsMap.size (JsMap.delete (p_container pooled) (pool st)))
         = JsMap.size (pool st)
      /\ forall k, k <> p_container pooled ->
           JsMap.get k (JsMap.delete (p_container pooled) (pool st))
           = JsMap.get k (pool st))
  /\ (forallb (fun p => negb (available language p)) (JsMap.values (pool st)) = true ->
      getAvailableContainer language st = (Ok None, st)).
Proof.
  intros [Hnd Hkey]. split.
  - intros before pooled after Hvalues Hbefore Havail.
    assert (Hin : In pooled (JsMap.values (pool st)))
      by (rewrite Hvalues; apply in_elt).
    apply in_map_iff in Hin as ([k p] & Heq & Hin). cbn [snd] in Heq. subst p.
    pose proof (jsmap_in_get _ _ _ Hnd Hin) as Hget.
    pose proof (Hkey _ _ Hget) as Hk. subst k.
    split; [|split; [|split]].
    + cbv [getAvailableContainer Eff.bind Eff.get set_pool Eff.modify Eff.ret].
      by rewrite Hvalues, find_first.
    + by apply jsmap_get_delete_eq.
    + by eapply jsmap_size_delete.
    + intros k Hne. by apply jsmap_get_delete_ne.
  - intros Hnone. cbv [getAvailableContainer Eff.bind Eff.get Eff.ret].
    by rewrite find_none.
Qed.

End PoolReuse.

Lemma getAvailableContainer_takes_first_witness :
  PoolOps.getAvailableContainer python idle_pool
  = (Ok (Some (ContainerPool.mkPooled (js "p2") python 30 31 0 true)),
     ContainerPool.mkSt
       [(js "g1", ContainerPool.mkPooled (js "g1") go 10 11 0 true);
        (js "p1", ContainerPool.mkPooled (js "p1") python 20 21 0 false)]
       [] 0).
Proof.
  assert (Hwk : PoolOps.well_keyed idle_pool).
  { split.
    - repeat constructor; intros H; vm_compute in H;
        repeat (destruct H as [H|H]; [discriminate H|]); exact H.
    - intros k pooled. unfold idle_pool.
      cbn [ContainerPool.pool JsMap.get].
      repeat (let E := fresh "E" in
              destruct (str_eqb _ k) eqn:E;
              [apply str_eqb_eq in E; subst k; by intros [= <-]|clear E]).
      intros H. discriminate H. }
  destruct (getAvailableContainer_takes_first python idle_pool Hwk) as [Hfirst _].
  destruct (Hfirst
              [ContainerPool.mkPooled (js "g1") go 10 11 0 true;
               ContainerPool.mkPooled (js "p1") python 20 21 0 false]
              (ContainerPool.mkPooled (js "p2") python 30 31 0 true) []
              eq_refl eq_refl eq_refl) as [Hrun _].
  exact Hrun.
Defined.

(** ** The audit log: what stays in memory and what is read back *)

Section AuditFacts.
Import AuditLogger AuditQueries.

Lemma log_events now id eventType details options lg :
  events (snd (log now id eventType details options lg))
  = skipn (length (events lg) + 1 - maxInMemoryEvents lg)
      (events lg ++ [fst (log now id eventType details options lg)])
  \/ (maxInMemoryEvents lg < length (events lg))%nat.
Proof.
  destruct (Nat.lt_ge_cases (maxInMemoryEvents lg) (length (events lg))) as [Hover|Hin];
    [by right|left].
  cbn [log snd fst events]. rewrite length_app. cbn [length].
  destruct (maxInMemoryEvents lg <? length (events lg) + 1)%nat eqn:Hfull.
  - apply Nat.ltb_lt in Hfull.
    assert (Heq : (length (events lg) + 1 - maxInMemoryEvents lg = 1)%nat) by lia.
    rewrite Heq. by destruct (events lg ++ _).
  - apply Nat.ltb_ge in Hfull.
    assert (Heq : (length (events lg) + 1 - maxInMemoryEvents lg = 0)%nat) by lia.
    by rewrite Heq.
Qed.

Lemma event_of_any en lg lg' : event_of en lg = event_of en lg'.
Proof. reflexivity. Qed.

Lemma log_entry_fields lg en :
  maxInMemoryEvents (log_entry lg en) = maxInMemoryEvents lg
  /\ enabled (log_entry lg en) = enabled lg
  /\ hasStream (log_entry lg en) = hasStream lg
  /\ written (log_entry lg en)
     = written lg ++ (if enabled lg && hasStream lg then [event_of en lg] else []).
Proof.
  unfold log_entry, event_of. cbn [log snd fst maxInMemoryEvents enabled hasStream written].
  repeat split. destruct (enabled lg && hasStream lg); [done|by rewrite app_nil_r].
Qed.

(** X28. The memory of the logger is a window on the stream of events:
    after any run of calls of [log], on a logger that was within its
    limit, the events in memory are the last [maxInMemoryEvents] of all
    events, old and new, in the order they were logged, so never more
    than the limit; the log file, when writing is on, has received every
    new event and loses none. *)
Theorem log_keeps_the_latest entries : forall lg,
  (length (events lg) <= maxInMemoryEvents lg)%nat ->
  let new := map (fun en => event_of en lg) entries in
  events (log_all entries lg)
  = skipn (length (events lg ++ new) - maxInMemoryEvents lg) (events lg ++ new)
  /\ (length (events (log_all entries lg)) <= maxInMemoryEvents lg)%nat
  /\ written (log_all entries lg)
     = written lg ++ (if enabled lg && hasStream lg then new else []).
Proof.
  induction entries as [|en entries IH]; intros lg Hbound new.
  - subst new. cbn [map log_all fold_left]. rewrite !app_nil_r.
    assert (Heq : (length (events lg) - maxInMemoryEvents lg = 0)%nat) by lia.
    rewrite Heq. split; [done|]. split; [done|].
    destruct (enabled lg && hasStream lg); by rewrite app_nil_r.
  - cbn [log_all fold_left]. fold (log_all entries (log_entry lg en)).
    destruct (log_entry_fields lg en) as (Hmax & Hen & Hst & Hwr).
    assert (Hstep : events (log_entry lg en)
                    = skipn (length (events lg) + 1 - maxInMemoryEvents lg)
                        (events lg ++ [event_of en lg])).
    { destruct (log_events (en_now en) (en_id en) (en_type en) (en_details en)
                  (en_options en) lg) as [H|H]; [exact H|lia]. }
    assert (Hbound1 : (length (events (log_entry lg en)) <= maxInMemoryEvents lg)%nat).
    { rewrite Hstep, length_skipn, length_app. cbn [length]. lia. }
    destruct (IH (log_entry lg en)) as (Hev & Hlen & Hwritten); [by rewrite Hmax|].
    rewrite Hmax, Hen, Hst in *.
    subst new. cbn [map].
    assert (Hrest : map (fun en0 => event_of en0 (log_entry lg en)) entries
                    = map (fun en0 => event_of en0 lg) entries) by reflexivity.
    rewrite Hrest in *. set (new' := map (fun en0 => event_of en0 lg) entries) in *.
    split; [|split; [done|]].
    + rewrite Hev, Hstep. clear Hev Hwritten Hlen Hbound1 Hstep Hrest Hwr.
      destruct (Nat.eq_dec (length (events lg)) (maxInMemoryEvents lg)) as [Hfull|Hroom].
      * rewrite <- Hfull.
        assert (H1 : (length (events lg) + 1 - length (events lg) = 1)%nat) by lia.
        rewrite H1. destruct (events lg) as [|x E'] eqn:HE.
        -- cbn [app skipn length]. rewrite Nat.sub_0_r. cbn [app length].
           rewrite Nat.sub_0_r. reflexivity.
        -- change (skipn 1 ((x :: E') ++ [event_of en lg])) with (E' ++ [event_of en lg]).
           rewrite <- app_assoc. cbn [app].
           replace (length (E' ++ event_of en lg :: new') - length (x :: E'))%nat
             with (length new') by (rewrite length_app; cbn [length]; lia).
           replace (length (x :: E' ++ event_of en lg :: new') - length (x :: E'))%nat
             with (S (length new')) by (cbn [length]; rewrite length_app; cbn [length]; lia).
           reflexivity.
      * assert (H0 : (length (events lg) + 1 - maxInMemoryEvents lg = 0)%nat) by lia.
        rewrite H0. change (skipn 0 ?l) with l. rewrite <- app_assoc. cbn [app].
        reflexivity.
    + rewrite Hwritten, Hwr.
      destruct (enabled lg && hasStream lg); rewrite ?app_nil_r, <- ?app_assoc; reflexivity.
Qed.

End AuditFacts.

Lemma log_keeps_the_latest_witness :
  let new := map (fun en => AuditQueries.event_of en small_logger) three_entries in
  AuditLogger.events (AuditQueries.log_all three_entries small_logger)
  = skipn (length (AuditLogger.events small_logger ++ new)
           - AuditLogger.maxInMemoryEvents small_logger)
      (AuditLogger.events small_logger ++ new)
  /\ (length (AuditLogger.events (AuditQueries.log_all three_entries small_logger))
      <= AuditLogger.maxInMemoryEvents small_logger)%nat
  /\ AuditLogger.written (AuditQueries.log_all three_entries small_logger)
     = AuditLogger.written small_logger
       ++ (if AuditLogger.enabled small_logger && AuditLogger.hasStream small_logger
           then new else []).
Proof.
  apply (log_keeps_the_latest three_entries small_logger). simpl. lia.
Defined.

Section AuditReadBack.
Import AuditLogger AuditQueries.

Lemma filter_twice {A} (p q : A -> bool) xs :
  List.filter p (List.filter q xs) = List.filter (fun x => q x && p x) xs.
Proof.
  induction xs as [|x xs IH]; [done|]. cbn [List.filter].
  destruct (q x); cbn [List.filter andb]; [destruct (p x)|]; by rewrite IH.
Qed.

Lemma getRecentEvents_one_filter count filter lg :
  getRecentEvents count filter lg
  = slice_from_end count
      (List.filter (fun e => match filter with Some f => matches f e | None => true end)
         (events lg)).
Proof.
  unfold getRecentEvents. f_equal. destruct filter as [[t s l]|].
  - unfold matches. cbn [f_eventType f_severity f_language].
    assert (Hall : forall xs : list AuditEvent, xs = List.filter (fun _ => true) xs).
    { intros xs. symmetry. apply forallb_filter_id. by apply forallb_forall. }
    destruct t as [t|], s as [s|], l as [[|c l]|]; rewrite ?filter_twice;
      try (rewrite (Hall (events lg)) at 1; rewrite ?filter_twice);
      apply filter_ext; intros e; cbn [andb]; rewrite ?andb_true_r, ?andb_assoc;
      reflexivity.
  - symmetry. apply forallb_filter_id. by apply forallb_forall.
Qed.

Lemma slice_from_end_suffix {A} count (xs : list A) :
  exists older, xs = older ++ slice_from_end count xs.
Proof.
  unfold slice_from_end. destruct (0 <? count)%Z;
    eexists; symmetry; apply firstn_skipn.
Qed.

Lemma slice_from_end_length {A} count (xs : list A) :
  (0 < count)%Z ->
  length (slice_from_end count xs) = Nat.min (Z.to_nat count) (length xs).
Proof.
  intros Hc. unfold slice_from_end. apply Z.ltb_lt in Hc. rewrite Hc.
  rewrite length_skipn. lia.
Qed.

(** X29. Reading back: [getRecentEvents] returns the tail end of the
    events in memory that pass every filter given, oldest first; for a
    positive count it returns that many of them, or all when there are
    fewer; a count of 0 does not mean none but all of them.  The same
    holds for [getSecurityEvents] and its fixed choice of events. *)
Theorem getRecentEvents_returns_the_tail count filter lg :
  let passing :=
    List.filter (fun e => match filter with Some f => matches f e | None => true end)
      (events lg) in
  let security := List.filter is_security_event (events lg) in
  (exists older, passing = older ++ getRecentEvents count filter lg)
  /\ (exists older, security = older ++ getSecurityEvents count lg)
  /\ ((0 < count)%Z ->
      length (getRecentEvents count filter lg)
      = Nat.min (Z.to_nat count) (length passing)
      /\ length (getSecurityEvents count lg)
         = Nat.min (Z.to_nat count) (length security))
  /\ (count = 0%Z ->
      getRecentEvents count filter lg = passing
      /\ getSecurityEvents count lg = security).
Proof.
  intros passing security. rewrite getRecentEvents_one_filter. fold passing.
  unfold getSecurityEvents. fold security.
  split; [apply slice_from_end_suffix|]. split; [apply slice_from_end_suffix|].
  split.
  - intros Hc. split; by apply slice_from_end_length.
  - intros ->. by split.
Qed.

End AuditReadBack.

(** ** [wrapInMain]: what the compilers are given *)

Section WrapFacts.
Import Runtimes.

Lemma test_anchored r s :
  test (Seq Bos r) s = rmatch (length s) r s (fun _ => true).
Proof.
  unfold test.
  assert (Hfront : rmatch (length s) (Seq Bos r) s (fun _ => true)
                   = rmatch (length s) r s (fun _ => true))
    by (cbn [rmatch]; by rewrite Nat.eqb_refl).
  destruct s as [|c s]; cbn [search]; rewrite Hfront; [apply orb_false_r|].
  rewrite search_bos_later by (cbn [length]; lia). apply orb_false_r.
Qed.

Lemma package_main_declared rest :
  test GO_PACKAGE_DECL (js "package main" ++ [LF; LF] ++ rest) = true.
Proof.
  change GO_PACKAGE_DECL
    with (Seq Bos (seqs [Star sp; l "package"; Plus sp; Plus word])).
  rewrite test_anchored. generalize (length (js "package main" ++ [LF; LF] ++ rest)).
  intros n. lazy. reflexivity.
Qed.

Lemma fn_main_found rest :
  test RUST_FN_MAIN (js "fn main() {" ++ rest) = true.
Proof.
  unfold test. generalize (length (js "fn main() {" ++ rest)). intros n.
  change (js "fn main() {" ++ rest) with (102 :: (js "n main() {" ++ rest)).
  cbn [search]. apply orb_true_iff. left. lazy. reflexivity.
Qed.

(** X30. What the compilers are given: the text [wrapInMain] returns
    always opens with or already held a package clause, for Go, and
    always holds a [main] function, for Rust; so wrapping a second time
    changes nothing. *)
Theorem wrapInMain_settles code :
  test GO_PACKAGE_DECL (go_wrapInMain code) = true
  /\ go_wrapInMain (go_wrapInMain code) = go_wrapInMain code
  /\ test RUST_FN_MAIN (rust_wrapInMain code) = true
  /\ rust_wrapInMain (rust_wrapInMain code) = rust_wrapInMain code.
Proof.
  assert (Hgo : test GO_PACKAGE_DECL (go_wrapInMain code) = true).
  { unfold go_wrapInMain. destruct (test GO_PACKAGE_DECL code) eqn:Hdecl; [done|].
    destruct (negb (test GO_FUNC_MAIN code)); apply package_main_declared. }
  assert (Hrust : test RUST_FN_MAIN (rust_wrapInMain code) = true).
  { unfold rust_wrapInMain. destruct (test RUST_FN_MAIN code) eqn:Hmain; [done|].
    apply fn_main_found. }
  split; [done|]. split; [|split; [done|]].
  - unfold go_wrapInMain at 1. by rewrite Hgo.
  - unfold rust_wrapInMain at 1. by rewrite Hrust.
Qed.

End WrapFacts.
